(** * The filesystem assetstore adapter of Girder

    A shallow embedding of [girder/utility/filesystem_assetstore_adapter.py]:
    the content-addressed, resumable store that appends upload chunks to a
    scratch file, publishes the finished file under its SHA-512 digest,
    streams byte ranges back, scans for missing files, deletes by reference
    count and imports files in place.

    Python state is passed explicitly.  The disk is a finite map from path
    strings to nodes; dictionaries that the adapter mutates in place (the
    upload, the file document, the assetstore document) travel in the state of
    a small state-and-exception monad, so that what an exception leaves
    behind is visible. *)

From Stdlib Require Import ZArith Lia.
From Stdlib Require Import Strings.Byte Strings.Ascii Strings.String.
From stdpp Require Import base option list strings gmap.

Local Open Scope string_scope.
Local Open Scope nat_scope.
Local Open Scope list_scope.

(** ** Bytes and text *)

Abbreviation bytes := (list byte).

Definition byte_of_N (n : N) : byte :=
  default x00 (Byte.of_N (n mod 256)%N).

(** [str.encode('utf8')] on one code point; lone surrogates and values past
    U+10FFFF have no encoding (Python raises [UnicodeEncodeError]). *)
Definition utf8_encode_cp (c : N) : option bytes :=
  if (c <? 0x80)%N then Some [byte_of_N c]
  else if (c <? 0x800)%N then
    Some [byte_of_N (0xC0 + c / 64); byte_of_N (0x80 + c mod 64)]
  else if (c <? 0x10000)%N then
    if ((0xD800 <=? c) && (c <=? 0xDFFF))%N then None
    else Some [byte_of_N (0xE0 + c / 4096);
               byte_of_N (0x80 + (c / 64) mod 64);
               byte_of_N (0x80 + c mod 64)]
  else if (c <? 0x110000)%N then
    Some [byte_of_N (0xF0 + c / 262144);
          byte_of_N (0x80 + (c / 4096) mod 64);
          byte_of_N (0x80 + (c / 64) mod 64);
          byte_of_N (0x80 + c mod 64)]
  else None.

(** A text string is its sequence of code points. *)
Abbreviation text := (list N).

Definition encode_utf8 (t : text) : option bytes :=
  mjoin <$> mapM utf8_encode_cp t.

(** ** Exceptions *)

Inductive validation_reason :=
  | NotAbsolute
  | CannotMakeDirectory (root : string)
  | NotWritable (root : string)
  | SizeExceeded
  | NoSuchDirectory (p : string)
  | BadParentType (parentType : string).

Inductive errno := EEXIST | ENOENT | ENOTDIR | EISDIR | EACCES.

Inductive exn :=
  | ValidationException (why : validation_reason)
  | GirderException (ident : string)
  | OSError (code : errno)
  | KeyError (key : string)
  | UnicodeEncodeError
  | CorruptDigestState
  | RecursionError.

(** What [uploadChunk] may be handed: a text string, a byte string, or a
    file-like object of which only [read] is used.  The reads of a
    [FileChunk] give its bytes and then report the end; those of a
    [BrokenChunk] give its bytes and then raise, as [read] may on a stream
    that breaks. *)
Inductive chunk :=
  | TextChunk (t : text)
  | BytesChunk (b : bytes)
  | FileChunk (data : bytes)
  | BrokenChunk (data : bytes) (e : exn).

(** ** A state-and-exception monad

    [M S A] runs on a state [S]; an exception keeps the state reached when
    it was raised, as a Python exception keeps the mutations made so far. *)

Definition M (S A : Type) : Type := S → S * (exn + A).

Global Instance M_ret {S} : MRet (M S) := λ A x s, (s, inr x).
Global Instance M_bind {S} : MBind (M S) := λ A B f m s,
  match m s with
  | (s', inl e) => (s', inl e)
  | (s', inr x) => f x s'
  end.

Definition raise {S A} (e : exn) : M S A := λ s, (s, inl e).
Definition get {S} : M S S := λ s, (s, inr s).
Definition put {S} (s : S) : M S unit := λ _, (s, inr ()).
Definition of_result {S A} (r : exn + A) : M S A := λ s, (s, r).

(** [try: m except OSError: h] and the like: [handles e] selects the
    exceptions the clause catches. *)
Definition try_except {S A} (m : M S A) (handles : exn → bool) (h : exn → M S A)
  : M S A := λ s,
  match m s with
  | (s', inl e) => if handles e then h e s' else (s', inl e)
  | r => r
  end.

(** Run a computation on the first or the second component of a pair. *)
Definition on_fst {S T A} (m : M S A) : M (S * T) A := λ '(s, t),
  let '(s', r) := m s in ((s', t), r).
Definition on_snd {S T A} (m : M T A) : M (S * T) A := λ '(s, t),
  let '(t', r) := m t in ((s, t'), r).

Definition is_OSError (e : exn) : bool :=
  match e with OSError _ => true | _ => false end.
Definition is_ValidationException (e : exn) : bool :=
  match e with ValidationException _ => true | _ => false end.

(** ** [posixpath]: the path functions the adapter calls *)

Definition is_slash (c : ascii) : bool := bool_decide (c = "/"%char).

Definition startswith_slash (p : string) : bool :=
  match p with String c _ => is_slash c | EmptyString => false end.

Fixpoint endswith_slash (p : string) : bool :=
  match p with
  | EmptyString => false
  | String c EmptyString => is_slash c
  | String _ r => endswith_slash r
  end.

Fixpoint all_slashes (p : string) : bool :=
  match p with
  | EmptyString => true
  | String c r => is_slash c && all_slashes r
  end.

(** [p.rstrip('/')] *)
Fixpoint rstrip_slash (p : string) : string :=
  match p with
  | EmptyString => EmptyString
  | String c r =>
      match rstrip_slash r with
      | EmptyString => if is_slash c then EmptyString else String c EmptyString
      | r' => String c r'
      end
  end.

Definition isabs (p : string) : bool := startswith_slash p.

(** [os.path.join(a, b)] *)
Definition join (a b : string) : string :=
  if startswith_slash b then b
  else if bool_decide (a = "") || endswith_slash a then a +:+ b
  else a +:+ "/" +:+ b.

(** [(p[:i], p[i:])] for [i = p.rfind('/') + 1] *)
Fixpoint rsplit_slash (p : string) : string * string :=
  match p with
  | EmptyString => (EmptyString, EmptyString)
  | String c r =>
      let '(h, t) := rsplit_slash r in
      match h with
      | EmptyString =>
          if is_slash c then (String c EmptyString, t)
          else (EmptyString, String c t)
      | _ => (String c h, t)
      end
  end.

(** [os.path.split] *)
Definition split (p : string) : string * string :=
  let '(head, tail) := rsplit_slash p in
  (if negb (bool_decide (head = "")) && negb (all_slashes head)
   then rstrip_slash head else head, tail).

Definition dirname (p : string) : string := fst (split p).
Definition basename (p : string) : string := snd (rsplit_slash p).

(** [p.split('/')] and ['/'.join(comps)] *)
Fixpoint split_slash (p : string) : list string :=
  match p with
  | EmptyString => [EmptyString]
  | String c r =>
      if is_slash c then EmptyString :: split_slash r
      else match split_slash r with
           | x :: xs => String c x :: xs
           | [] => [String c EmptyString]
           end
  end.

Definition join_slash (comps : list string) : string :=
  match comps with
  | [] => ""
  | x :: xs => fold_left (λ acc y, acc +:+ "/" +:+ y) xs x
  end.

(** One round of the loop of [normpath]; [new_comps] is kept last-first. *)
Definition normpath_step (initial_slashes : nat) (new_comps : list string)
    (comp : string) : list string :=
  if bool_decide (comp = "") || bool_decide (comp = ".") then new_comps
  else if negb (bool_decide (comp = ".."))
          || (bool_decide (initial_slashes = 0) && bool_decide (new_comps = []))
          || bool_decide (head new_comps = Some "..")
  then comp :: new_comps
  else tail new_comps.

Definition normpath (path : string) : string :=
  if bool_decide (path = "") then "." else
  let initial_slashes :=
    if startswith_slash path then
      if String.prefix "//" path && negb (String.prefix "///" path) then 2 else 1
    else 0 in
  let comps := rev (fold_left (normpath_step initial_slashes) (split_slash path) []) in
  let path := String.concat "" (replicate initial_slashes "/") +:+ join_slash comps in
  if bool_decide (path = "") then "." else path.

(** What the adapter reads from the process environment: the current
    directory ([os.getcwd]), the home directories [expanduser] looks up
    (the empty name is the current user), and the order in which
    [os.listdir] gives the names of a directory, which is the operating
    system's to choose: [listing] rearranges them. *)
Record os_env := {
  cwd : string;
  home_of : string → option string;
  listing : list string → list string
}.

Definition abspath (env : os_env) (path : string) : string :=
  normpath (if isabs path then path else join (cwd env) path).

(** Split at the first ['/']: [(p[:i], p[i:])] for [i = p.find('/')]
    ([len(p)] when there is none). *)
Fixpoint lsplit_slash (p : string) : string * string :=
  match p with
  | EmptyString => (EmptyString, EmptyString)
  | String c r =>
      if is_slash c then (EmptyString, p)
      else let '(h, t) := lsplit_slash r in (String c h, t)
  end.

Definition expanduser (env : os_env) (path : string) : string :=
  match path with
  | String "~" rest =>
      let '(name, tl) := lsplit_slash rest in
      match home_of env name with
      | None => path
      | Some userhome =>
          let r := rstrip_slash userhome +:+ tl in
          if bool_decide (r = "") then "/" else r
      end
  | _ => path
  end.

(** ** The disk

    A node is a regular file with its bytes or a directory with its write
    permission.  A path string is the key of the node it names: the model
    does not identify two spellings of one path, and it has no symbolic
    links.  The write permission of a directory is read by [os.access]
    and by the calls that make an entry in it; the calls that remove an
    entry do not look at it. *)

Inductive node :=
  | File (content : bytes)
  | Dir (writable : bool).

Abbreviation fs := (gmap string node).

Definition exists_ (d : fs) (p : string) : bool := bool_decide (is_Some (d !! p)).
Definition isfile (d : fs) (p : string) : bool :=
  match d !! p with Some (File _) => true | _ => false end.
Definition isdir (d : fs) (p : string) : bool :=
  match d !! p with Some (Dir _) => true | _ => false end.

(** [os.access(p, os.W_OK)] *)
Definition access_W_OK (d : fs) (p : string) : bool :=
  match d !! p with
  | Some (Dir w) => w
  | Some (File _) => true
  | None => false
  end.

(** The directory a new entry [p] goes into; slashes that end [p] do not
    count. *)
Definition parent (p : string) : string :=
  let h := dirname (if all_slashes p then p else rstrip_slash p) in
  if bool_decide (h = "") then "." else h.

(** Making an entry needs its directory, and the permission to write
    there. *)
Definition check_parent (d : fs) (p : string) : exn + unit :=
  match d !! parent p with
  | Some (Dir true) => inr ()
  | Some (Dir false) => inl (OSError EACCES)
  | Some (File _) => inl (OSError ENOTDIR)
  | None => inl (OSError ENOENT)
  end.

Definition mkdir (p : string) : M fs unit := λ d,
  match d !! p with
  | Some _ => (d, inl (OSError EEXIST))
  | None =>
      match check_parent d p with
      | inl e => (d, inl e)
      | inr _ => (<[p := Dir true]> d, inr ())
      end
  end.

Definition is_EEXIST (e : exn) : bool :=
  match e with OSError EEXIST => true | _ => false end.

(** [os.makedirs(name)]; the recursion is on ever shorter heads, so the
    length of [name] is fuel enough. *)
Fixpoint makedirs_fuel (fuel : nat) (name : string) : M fs unit :=
  match fuel with
  | 0 => mkdir name
  | S fuel =>
      let '(head, tail) := split name in
      let '(head, tail) :=
        if bool_decide (tail = "") then split head else (head, tail) in
      d ← get;
      if negb (bool_decide (head = "")) && negb (bool_decide (tail = ""))
         && negb (exists_ d head)
      then
        try_except (makedirs_fuel fuel head) is_EEXIST (λ _, mret ());;
        if bool_decide (tail = ".") then mret () else mkdir name
      else mkdir name
  end.

Definition makedirs (name : string) : M fs unit :=
  makedirs_fuel (String.length name) name.

(** [os.remove] and [os.unlink].  The permission to write to the directory
    of [p], which the call needs, is taken as given: what is stated of a
    removal is stated of a process that may remove. *)
Definition remove (p : string) : M fs unit := λ d,
  match d !! p with
  | Some (File _) => (delete p d, inr ())
  | Some (Dir _) => (d, inl (OSError EISDIR))
  | None => (d, inl (OSError ENOENT))
  end.

(** [shutil.move(src, dst)] of a regular file to a place where no directory
    is.  A directory at [src], which [shutil.move] renames, is outside the
    model, which refuses it: what is stated of a move is stated of a source
    that is no directory. *)
Definition move (src dst : string) : M fs unit := λ d,
  match d !! src with
  | Some (File c) =>
      match d !! dst with
      | Some (Dir _) => (d, inl (OSError EISDIR))
      | _ =>
          match check_parent d dst with
          | inl e => (d, inl e)
          | inr _ => (<[dst := File c]> (delete src d), inr ())
          end
      end
  | Some (Dir _) => (d, inl (OSError EISDIR))
  | None => (d, inl (OSError ENOENT))
  end.

(** [os.chmod]: files carry no permission bits in the model. *)
Definition chmod (p : string) : M fs unit := λ d,
  if exists_ d p then (d, inr ()) else (d, inl (OSError ENOENT)).

(** [open(p, 'rb')] followed by reading: the bytes of the file. *)
Definition open_rb (p : string) : M fs bytes := λ d,
  match d !! p with
  | Some (File c) => (d, inr c)
  | Some (Dir _) => (d, inl (OSError EISDIR))
  | None => (d, inl (OSError ENOENT))
  end.

(** [open(p, 'a+b')]: the file is created empty when it is not there. *)
Definition open_ab (p : string) : M fs bytes := λ d,
  match d !! p with
  | Some (File c) => (d, inr c)
  | Some (Dir _) => (d, inl (OSError EISDIR))
  | None =>
      match check_parent d p with
      | inl e => (d, inl e)
      | inr _ => (<[p := File []]> d, inr [])
      end
  end.

(** Closing a handle writes its buffer back. *)
Definition close_file (p : string) (content : bytes) : M fs unit := λ d,
  (<[p := File content]> d, inr ()).

(** [f.truncate(n)]: cut, or pad with zero bytes. *)
Definition truncate (n : nat) (content : bytes) : bytes :=
  take n content ++ replicate (n - length content) x00.

Record stat_result := { st_size : nat; st_mtime : Z }.

(** [os.stat(p)].  Modification stamps are kept by the environment, not by the
    nodes: [mtimes] gives the stamp of each path.  A directory reports size
    zero. *)
Definition os_stat (mtimes : string → Z) (d : fs) (p : string) : exn + stat_result :=
  match d !! p with
  | Some (File c) => inr {| st_size := length c; st_mtime := mtimes p |}
  | Some (Dir _) => inr {| st_size := 0; st_mtime := mtimes p |}
  | None => inl (OSError ENOENT)
  end.

(** [os.path.getsize] *)
Definition getsize (d : fs) (p : string) : exn + nat :=
  match d !! p with
  | Some (File c) => inr (length c)
  | Some (Dir _) => inr 0
  | None => inl (OSError ENOENT)
  end.

(** The entries of the directory [p]: the names [n] with a node at
    [join p n].  [os.listdir(p)] gives them in the order of the
    environment. *)
Definition listdir (d : fs) (p : string) : list string :=
  omap (λ k, let n := basename k in
             if negb (bool_decide (n = "")) && bool_decide (join p n = k)
                && negb (bool_decide (k = p))
             then Some n else None)
       (map fst (map_to_list d)).

(** ** Documents *)

Record upload := {
  upload_tempFile : string;
  upload_sha512state : string;
  upload_received : nat;
  upload_size : nat
}.

Record assetstore := {
  assetstore_id : N;
  assetstore_root : string
}.

(** A file document.  The keys [sha512], [path], [imported] and [mtime] are
    set by the adapter and may be missing. *)
Record file := {
  file_id : N;
  file_name : string;
  file_itemId : N;
  file_creatorId : N;
  file_assetstoreId : N;
  file_mimeType : option string;
  file_size : nat;
  file_sha512 : option string;
  file_path : option string;
  file_imported : option bool;
  file_mtime : option Z
}.

Record folder := {
  folder_id : N;
  folder_name : string;
  folder_parentId : N;
  folder_parentType : string;
  folder_creatorId : N
}.

Record item := {
  item_id : N;
  item_name : string;
  item_folderId : N;
  item_creatorId : N
}.

(** [d[key]] on a key that may be missing, and the truth value of
    [d.get(key)]. *)
Definition getitem {S A} (key : string) (o : option A) : M S A :=
  match o with Some v => mret v | None => raise (KeyError key) end.

Definition truthy (o : option bool) : bool := default false o.

Definition set_root (doc : assetstore) (r : string) : assetstore :=
  {| assetstore_id := assetstore_id doc; assetstore_root := r |}.

Definition set_sha512_path (f : file) (hash path : string) : file :=
  {| file_id := file_id f; file_name := file_name f; file_itemId := file_itemId f;
     file_creatorId := file_creatorId f; file_assetstoreId := file_assetstoreId f;
     file_mimeType := file_mimeType f; file_size := file_size f;
     file_sha512 := Some hash; file_path := Some path;
     file_imported := file_imported f; file_mtime := file_mtime f |}.

Definition set_imported (f : file) (path : string) (mtime : Z) : file :=
  {| file_id := file_id f; file_name := file_name f; file_itemId := file_itemId f;
     file_creatorId := file_creatorId f; file_assetstoreId := file_assetstoreId f;
     file_mimeType := file_mimeType f; file_size := file_size f;
     file_sha512 := file_sha512 f; file_path := Some path;
     file_imported := Some true; file_mtime := Some mtime |}.

Definition set_state_received (u : upload) (state : string) (received : nat) : upload :=
  {| upload_tempFile := upload_tempFile u; upload_sha512state := state;
     upload_received := received; upload_size := upload_size u |}.

(** ** The metadata store *)

Record store := {
  folders : list folder;
  items : list item;
  files : list file;
  next_id : N
}.

(** A query dictionary over file documents: equality on the keys the adapter
    and its callers filter by. *)
Record query := {
  q_assetstoreId : option N;
  q_sha512 : option string;
  q_imported : option bool;
  q_name : option string
}.

Definition no_filter : query :=
  {| q_assetstoreId := None; q_sha512 := None; q_imported := None; q_name := None |}.

Definition field_matches {A} `{EqDecision A} (want : option A) (have : option A) : bool :=
  match want with
  | None => true
  | Some v => bool_decide (have = Some v)
  end.

Definition matches (q : query) (f : file) : bool :=
  field_matches (q_assetstoreId q) (Some (file_assetstoreId f))
  && field_matches (q_sha512 q) (file_sha512 f)
  && field_matches (q_imported q) (file_imported f)
  && field_matches (q_name q) (Some (file_name f)).

(** [dict(base, **filters)]: a key of [filters] wins. *)
Definition dict_update (base filters : query) : query :=
  {| q_assetstoreId := from_option Some (q_assetstoreId base) (q_assetstoreId filters);
     q_sha512 := from_option Some (q_sha512 base) (q_sha512 filters);
     q_imported := from_option Some (q_imported base) (q_imported filters);
     q_name := from_option Some (q_name base) (q_name filters) |}.

(** Modelled from the spec: the metadata-record store of section 6, which is
    not among the sources: [find(query)] gives the matching records in
    store order, here with an optional [limit]; [count(True)] is the length
    of what the cursor yields. *)
Definition find (st : store) (q : query) (limit : option nat) : list file :=
  let l := filter (λ f, matches q f = true) (files st) in
  match limit with Some n => take n l | None => l end.

Definition set_folders (st : store) (l : list folder) (n : N) : store :=
  {| folders := l; items := items st; files := files st; next_id := n |}.
Definition set_items (st : store) (l : list item) (n : N) : store :=
  {| folders := folders st; items := l; files := files st; next_id := n |}.
Definition set_files (st : store) (l : list file) (n : N) : store :=
  {| folders := folders st; items := items st; files := l; next_id := n |}.

(** Modelled from the spec: [createFolder(..., reuseExisting=True)] of the
    folder model, absent from the sources: section 4.7 has subdirectories
    become containers, reusing an existing same-named container. *)
Definition createFolder (parent : N) (name parentType : string) (creator : N)
  : M store folder := λ st,
  match list_find (λ f, folder_parentId f = parent ∧ folder_parentType f = parentType
                        ∧ folder_name f = name) (folders st) with
  | Some (_, f) => (st, inr f)
  | None =>
      let f := {| folder_id := next_id st; folder_name := name;
                  folder_parentId := parent; folder_parentType := parentType;
                  folder_creatorId := creator |} in
      (set_folders st (folders st ++ [f]) (next_id st + 1), inr f)
  end.

(** Modelled from the spec: [createItem(..., reuseExisting=True)] of the item
    model, absent from the sources: an existing same-named item of the
    folder is reused (section 8, import fidelity). *)
Definition createItem (name : string) (creator : N) (folder : N) : M store item :=
  λ st,
  match list_find (λ i, item_folderId i = folder ∧ item_name i = name) (items st) with
  | Some (_, i) => (st, inr i)
  | None =>
      let i := {| item_id := next_id st; item_name := name;
                  item_folderId := folder; item_creatorId := creator |} in
      (set_items st (items st ++ [i]) (next_id st + 1), inr i)
  end.

(** Modelled from the spec: [createFile(..., reuseExisting=True)] of the file
    model, absent from the sources: section 4.7 has a file become a content
    record that carries the name and the size handed over; a record of the
    same name under the item keeps its identity and the keys the adapter
    set on it.  The record is stored by [save] only. *)
Definition createFile (name : string) (creator : N) (it : item) (a : assetstore)
    (mimeType : option string) (size : nat) : M store file := λ st,
  match list_find (λ f, file_itemId f = item_id it ∧ file_name f = name) (files st) with
  | Some (_, f) =>
      (st, inr {| file_id := file_id f; file_name := name; file_itemId := item_id it;
                  file_creatorId := creator; file_assetstoreId := assetstore_id a;
                  file_mimeType := mimeType; file_size := size;
                  file_sha512 := file_sha512 f; file_path := file_path f;
                  file_imported := file_imported f; file_mtime := file_mtime f |})
  | None =>
      (set_files st (files st) (next_id st + 1),
       inr {| file_id := next_id st; file_name := name; file_itemId := item_id it;
              file_creatorId := creator; file_assetstoreId := assetstore_id a;
              file_mimeType := mimeType; file_size := size;
              file_sha512 := None; file_path := None;
              file_imported := None; file_mtime := None |})
  end.

(** Modelled from the spec: [save(record)] of the file model, absent from the
    sources: the record replaces the stored one of the same [_id], or is
    added. *)
Definition save (f : file) : M store file := λ st,
  let l := files st in
  let l' := if bool_decide (Exists (λ g, file_id g = file_id f) l)
            then (λ g, if bool_decide (file_id g = file_id f) then f else g) <$> l
            else l ++ [f] in
  (set_files st l' (next_id st), inr f).

(** ** The digest

    [hashlib.sha512] objects and the [sha512_state] module that serialises
    them are taken as an interface.  The laws are those of a streaming hash:
    feeding two pieces is feeding their concatenation, a serialised state
    restores to itself, and a digest is 128 hexadecimal characters. *)

Class Digest := {
  digest_state : Type;
  sha512 : digest_state;
  sha512_update : digest_state → bytes → digest_state;
  hexdigest : digest_state → string;
  serializeHex : digest_state → string;
  restoreHex : string → option digest_state
}.

Definition is_hex_digit (c : ascii) : bool :=
  let n := nat_of_ascii c in
  ((48 <=? n) && (n <=? 57)) || ((97 <=? n) && (n <=? 102)).

Fixpoint all_hex (s : string) : bool :=
  match s with
  | EmptyString => true
  | String c r => is_hex_digit c && all_hex r
  end.

Class DigestLaws (D : Digest) : Prop := {
  update_nil : ∀ h, sha512_update h [] = h;
  update_app : ∀ h a b, sha512_update (sha512_update h a) b = sha512_update h (a ++ b);
  restore_serialize : ∀ h, restoreHex (serializeHex h) = Some h;
  hexdigest_length : ∀ h, String.length (hexdigest h) = 128;
  hexdigest_hex : ∀ h, all_hex (hexdigest h) = true
}.

Definition BUF_SIZE : nat := Z.to_nat 65536.

(** Modelled from the spec: [getChunkSize] of the abstract adapter, absent
    from the sources: the [len(chunk)] of section 4.2, counted in the bytes
    that will be appended; the source's comment ("if we know the chunk
    size") has the length of a file-like chunk unknown before it is read. *)
Definition getChunkSize (c : chunk) : exn + option nat :=
  match c with
  | TextChunk t =>
      match encode_utf8 t with
      | Some b => inr (Some (length b))
      | None => inl UnicodeEncodeError
      end
  | BytesChunk b => inr (Some (length b))
  | FileChunk _ => inr None
  | BrokenChunk _ _ => inr None
  end.

(** Modelled from the spec: [checkUploadSize] of the abstract adapter, absent
    from the sources: section 4.2 fails with the size-exceeded error when
    [received + len(chunk)] is over [size]; an unknown length passes. *)
Definition checkUploadSize (u : upload) (chunkSize : option nat) : exn + unit :=
  match chunkSize with
  | None => inr ()
  | Some n =>
      if upload_size u <? upload_received u + n
      then inl (ValidationException SizeExceeded)
      else inr ()
  end.

(** ** The adapter *)

Section Adapter.
Context {D : Digest}.

(** The loop that digests what a crash left on disk, from the seek position
    on; [rest] is what the handle has still to read. *)
Fixpoint digest_blocks (fuel : nat) (rest : bytes) (checksum : digest_state)
  : digest_state :=
  match fuel with
  | 0 => checksum
  | S fuel =>
      match take BUF_SIZE rest with
      | [] => checksum
      | data => digest_blocks fuel (drop BUF_SIZE rest) (sha512_update checksum data)
      end
  end.

(** Every round reads at least one byte, so the length is fuel enough. *)
Definition catch_up (rest : bytes) (checksum : digest_state) : digest_state :=
  digest_blocks (length rest) rest checksum.

(** The loop that appends the chunk: [size], the scratch file's bytes and
    the checksum, while [rest] is what [chunk.read] has still to give. *)
Fixpoint append_blocks (fuel : nat) (u : upload) (rest : bytes)
    (st : nat * bytes * digest_state) : nat * bytes * digest_state :=
  match fuel with
  | 0 => st
  | S fuel =>
      let '(size, content, checksum) := st in
      if upload_size u <? upload_received u + size then st
      else
        match take BUF_SIZE rest with
        | [] => st
        | data =>
            append_blocks fuel u (drop BUF_SIZE rest)
              (size + length data, content ++ data, sha512_update checksum data)
        end
  end.

(** [os.stat(upload['tempFile']).st_size] *)
Definition requestOffset (u : upload) : M fs nat := λ d,
  (d, getsize d (upload_tempFile u)).

Definition restore {S} (state : string) : M S digest_state :=
  match restoreHex state with
  | Some c => mret c
  | None => raise CorruptDigestState
  end.

(** The two [isinstance] tests: a text chunk is encoded, a byte string is
    wrapped in a [BytesIO]; what results is read through [read].  These are
    the bytes the reads give, block after block, to the appending loop. *)
Definition read_all {S} (c : chunk) : M S bytes :=
  match c with
  | TextChunk t =>
      match encode_utf8 t with
      | Some b => mret b
      | None => raise UnicodeEncodeError
      end
  | BytesChunk b => mret b
  | FileChunk b => mret b
  | BrokenChunk b _ => mret b
  end.

(** The read that ends the appending loop.  The loop tests the size before
    it reads: when [size] bytes have been appended and the size is not
    exceeded, it reads once more, and on a [BrokenChunk] that read raises.
    The [with] block has closed the scratch file by then, so what was
    written stays. *)
Definition read_raises {S} (c : chunk) (u : upload) (size : nat) : M S unit :=
  match c with
  | BrokenChunk _ e =>
      if upload_size u <? upload_received u + size then mret () else raise e
  | _ => mret ()
  end.

Definition uploadChunk (c : chunk) : M (fs * upload) unit :=
  u ← on_snd get;
  n ← of_result (getChunkSize c);
  of_result (checkUploadSize u n);;
  data ← read_all c;
  checksum ← restore (upload_sha512state u);
  offset ← on_fst (requestOffset u);
  checksum ← (if upload_received u <? offset then
                content ← on_fst (open_rb (upload_tempFile u));
                mret (catch_up (drop (upload_received u) content) checksum)
              else mret checksum);
  content ← on_fst (open_ab (upload_tempFile u));
  let '(size, content, checksum) :=
    append_blocks (length data) u data (0, content, checksum) in
  on_fst (close_file (upload_tempFile u) content);;
  read_raises c u size;;
  try_except (of_result (checkUploadSize u (Some size))) is_ValidationException
    (λ e, content ← on_fst (open_ab (upload_tempFile u));
          on_fst (close_file (upload_tempFile u)
                    (truncate (upload_received u) content));;
          raise e);;
  on_snd (put (set_state_received u (serializeHex checksum)
                 (upload_received u + size))).

Definition finalizeUpload (a : assetstore) (u : upload) : M (fs * file) unit :=
  checksum ← restore (upload_sha512state u);
  let hash := hexdigest checksum in
  let dir := join (substring 0 2 hash) (substring 2 2 hash) in
  let absdir := join (assetstore_root a) dir in
  let path := join dir hash in
  let abspath := join (assetstore_root a) path in
  d ← on_fst get;
  (if negb (exists_ d absdir) then on_fst (makedirs absdir) else mret ());;
  d ← on_fst get;
  (if exists_ d abspath then on_fst (remove (upload_tempFile u))
   else
     on_fst (move (upload_tempFile u) abspath);;
     try_except (on_fst (chmod abspath)) is_OSError (λ _, mret ()));;
  on_snd (f ← get; put (set_sha512_path f hash path)).
End Adapter.

(** [self.tempDir], set in [__init__]. *)
Definition tempDir (a : assetstore) : string := join (assetstore_root a) "temp".

Definition validateInfo (env : os_env) : M (fs * assetstore) unit :=
  on_snd (doc ← get; put (set_root doc (expanduser env (assetstore_root doc))));;
  doc ← on_snd get;
  let root := assetstore_root doc in
  (if negb (isabs root) then raise (ValidationException NotAbsolute) else mret ());;
  d ← on_fst get;
  (if negb (isdir d root) then
     try_except (on_fst (makedirs root)) is_OSError
       (λ _, raise (ValidationException (CannotMakeDirectory root)))
   else mret ());;
  d ← on_fst get;
  if negb (access_W_OK d root) then raise (ValidationException (NotWritable root))
  else mret ().

Definition fullPath {S} (a : assetstore) (f : file) : M S string :=
  if truthy (file_imported f) then getitem "path" (file_path f)
  else p ← getitem "path" (file_path f); mret (join (assetstore_root a) p).

(** The loop of the generator [stream]: [content] and [pos] are the open
    file and its position; the chunks are listed in the order they are
    yielded. *)
Fixpoint stream_loop (fuel : nat) (content : bytes) (pos : nat)
    (bytesRead endByte : Z) : list bytes :=
  match fuel with
  | 0 => []
  | S fuel =>
      let readLen := Z.min (Z.of_nat BUF_SIZE) (endByte - bytesRead) in
      if (readLen <=? 0)%Z then []
      else
        match take (Z.to_nat readLen) (drop pos content) with
        | [] => []
        | data =>
            data :: stream_loop fuel content (pos + length data)
                      (bytesRead + readLen) endByte
        end
  end.

(** The generator function [downloadFile] returns; it opens the file when it
    is run, on the disk of that moment. *)
Definition stream (path : string) (offset endByte : Z) : M fs (list bytes) :=
  content ← open_rb path;
  let pos := if (0 <? offset)%Z then Z.to_nat offset else 0 in
  mret (stream_loop (length content) content pos offset endByte).

Definition file_does_not_exist : string :=
  "girder.utility.filesystem_assetstore_adapter.file-does-not-exist".

(** [downloadFile(file, offset, headers, endByte)].  The response headers
    set when [headers] holds belong to the web framework and are left out. *)
Definition downloadFile (a : assetstore) (f : file) (offset : Z)
    (endByte : option Z) : M fs (M fs (list bytes)) :=
  let endByte :=
    match endByte with
    | None => Z.of_nat (file_size f)
    | Some e => if (Z.of_nat (file_size f) <? e)%Z then Z.of_nat (file_size f) else e
    end in
  path ← fullPath a f;
  d ← get;
  if negb (isfile d path) then raise (GirderException file_does_not_exist)
  else mret (stream path offset endByte).

Definition deleteFile (a : assetstore) (st : store) (f : file) : M fs unit :=
  if truthy (file_imported f) then mret ()
  else
    sha ← getitem "sha512" (file_sha512 f);
    let q := {| q_assetstoreId := Some (assetstore_id a); q_sha512 := Some sha;
                q_imported := None; q_name := None |} in
    let matching := find st q (Some 2) in
    if bool_decide (length matching = 1) then
      p ← getitem "path" (file_path f);
      let path := join (assetstore_root a) p in
      d ← get;
      if isfile d path then remove path else mret ()
    else mret ().

Definition cancelUpload (u : upload) : M fs unit :=
  d ← get;
  if exists_ d (upload_tempFile u) then remove (upload_tempFile u) else mret ().

(** [for x in l: body(x)] *)
Fixpoint for_each {S A} (l : list A) (body : A → M S unit) : M S unit :=
  match l with
  | [] => mret ()
  | x :: l => body x;; for_each l body
  end.

(** [importFile(item, path, user, name, mimeType)]; the disk is only read. *)
Definition importFile (env : os_env) (mtimes : string → Z) (d : fs)
    (a : assetstore) (it : item) (path : string) (user : N)
    (name : option string) (mimeType : option string) : M store file :=
  st ← of_result (os_stat mtimes d path);
  let name := match name with
              | Some n => if bool_decide (n = "") then basename path else n
              | None => basename path
              end in
  f ← createFile name user it a mimeType (st_size st);
  save (set_imported f (abspath env (expanduser env path)) (st_mtime st)).

(** [importData(parent, parentType, params, progress, user)].  The progress
    collaborator is left out.  [fuel] bounds the depth of the recursion, as
    the interpreter's recursion limit does. *)
Fixpoint importData (fuel : nat) (env : os_env) (mtimes : string → Z) (d : fs)
    (a : assetstore) (parent : N) (parentType : string) (importPath : string)
    (user : N) : M store unit :=
  match fuel with
  | 0 => raise RecursionError
  | S fuel =>
      if negb (isdir d importPath)
      then raise (ValidationException (NoSuchDirectory importPath))
      else
        for_each (listing env (listdir d importPath)) (λ name,
          let path := join importPath name in
          if isdir d path then
            folder ← createFolder parent name parentType user;
            importData fuel env mtimes d a (folder_id folder) "folder"
              (join importPath name) user
          else
            (if negb (bool_decide (parentType = "folder"))
             then raise (ValidationException (BadParentType parentType))
             else mret ());;
            it ← createItem name user parent;
            importFile env mtimes d a it path user (Some name) None;;
            mret ())
  end.

(** What [findInvalidFiles] yields. *)
Record finding := {
  reason : string;
  finding_file : file;
  finding_path : string
}.

(** The loop of the generator [findInvalidFiles] over the cursor: the
    findings in the order they are yielded, and the exception that ended the
    iteration, if one did.  The progress collaborator is left out. *)
Fixpoint scan (a : assetstore) (d : fs) (checkSize : bool) (cursor : list file)
  : list finding * option exn :=
  match cursor with
  | [] => ([], None)
  | f :: cursor =>
      match fullPath a f d with
      | (_, inl e) => ([], Some e)
      | (_, inr path) =>
          let verdict : exn + option string :=
            if negb (isfile d path) then inr (Some "missing")
            else if checkSize then
              match getsize d path with
              | inl e => inl e
              | inr n => inr (if bool_decide (n = file_size f) then None
                              else Some "size")
              end
            else inr None in
          match verdict with
          | inl e => ([], Some e)
          | inr v =>
              let '(rest, e) := scan a d checkSize cursor in
              (match v with
               | Some r => {| reason := r; finding_file := f;
                              finding_path := path |} :: rest
               | None => rest
               end, e)
          end
      end
  end.

Definition findInvalidFiles (a : assetstore) (st : store) (d : fs)
    (filters : option query) (checkSize : bool) : list finding * option exn :=
  let filters := default no_filter filters in
  let q := dict_update
             {| q_assetstoreId := Some (assetstore_id a); q_sha512 := None;
                q_imported := None; q_name := None |} filters in
  let cursor := find st q None in
  scan a d checkSize cursor.

(** ** A stand-in digest

    To run the model on examples the interface needs an inhabitant.  This
    one keeps the bytes it was fed; its digest is a 512-bit polynomial
    checksum written in 128 hexadecimal characters, its serialised state
    the bytes in hexadecimal. *)

Definition hex_char (n : N) : ascii :=
  default "0"%char (String.get (N.to_nat (n mod 16)) "0123456789abcdef").

Fixpoint hex_fixed (width : nat) (n : N) : string :=
  match width with
  | 0 => EmptyString
  | S w => String (hex_char n) (hex_fixed w (n / 16))
  end.

Definition unhex_char (c : ascii) : option N :=
  let n := N_of_ascii c in
  if ((48 <=? n) && (n <=? 57))%N then Some (n - 48)%N
  else if ((97 <=? n) && (n <=? 102))%N then Some (n - 87)%N
  else None.

Fixpoint hex_of_bytes (l : bytes) : string :=
  match l with
  | [] => EmptyString
  | b :: l =>
      String (hex_char (Byte.to_N b / 16)) (String (hex_char (Byte.to_N b))
        (hex_of_bytes l))
  end.

Fixpoint bytes_of_hex (s : string) : option bytes :=
  match s with
  | EmptyString => Some []
  | String a (String b r) =>
      hi ← unhex_char a; lo ← unhex_char b; l ← bytes_of_hex r;
      Some (byte_of_N (16 * hi + lo) :: l)
  | _ => None
  end.

Definition checksum512 (l : bytes) : N :=
  fold_left (λ acc b, ((acc * 257 + Byte.to_N b + 1) mod 2 ^ 512)%N) l 0%N.

Definition demo_digest : Digest := {|
  digest_state := bytes;
  sha512 := [];
  sha512_update := λ h data, h ++ data;
  hexdigest := λ h, hex_fixed 128 (checksum512 h);
  serializeHex := hex_of_bytes;
  restoreHex := bytes_of_hex
|}.

(** The bytes of an ASCII string, for examples. *)
Definition b (s : string) : bytes := list_byte_of_string s.

(** ** Example data *)

Definition demo_root : assetstore := {| assetstore_id := 7; assetstore_root := "/data" |}.

(** A scratch file after a crash: five bytes on disk, one recorded. *)
Definition crashed_disk : fs :=
  {[ "/" := Dir true; "/data" := Dir true; "/data/temp" := Dir true;
     "/data/temp/tmpA" := File (b "hello") ]}.

Definition crashed_upload (size : nat) : upload :=
  {| upload_tempFile := "/data/temp/tmpA";
     upload_sha512state := serializeHex (Digest := demo_digest) (b "h");
     upload_received := 1;
     upload_size := size |}.

Definition stored_file (id : N) (name : string) (size : nat) (sha : string) : file :=
  {| file_id := id; file_name := name; file_itemId := 1; file_creatorId := 1;
     file_assetstoreId := 7; file_mimeType := None; file_size := size;
     file_sha512 := Some sha;
     file_path := Some (join (join (substring 0 2 sha) (substring 2 2 sha)) sha);
     file_imported := None; file_mtime := None |}.

Definition imported_file (id : N) (name : string) (size : nat) (path : string) : file :=
  {| file_id := id; file_name := name; file_itemId := 1; file_creatorId := 1;
     file_assetstoreId := 7; file_mimeType := None; file_size := size;
     file_sha512 := None; file_path := Some path;
     file_imported := Some true; file_mtime := Some 0%Z |}.

Definition store_of (l : list file) : store :=
  {| folders := []; items := []; files := l; next_id := 100 |}.

(** Two records of one digest, a third record whose file is gone, and an
    imported record. *)
Definition shared_disk : fs :=
  {[ "/" := Dir true; "/data" := Dir true; "/data/ab" := Dir true;
     "/data/ab/cd" := Dir true; "/data/ab/cd/abcd" := File (b "hello");
     "/srv" := Dir true; "/srv/ext.bin" := File (b "external") ]}.

Definition shared_store : store :=
  store_of [stored_file 1 "one" 5 "abcd"; stored_file 2 "two" 5 "abcd";
            stored_file 3 "gone" 4 "ef01";
            imported_file 4 "ext.bin" 8 "/srv/ext.bin"].

(** ** Vocabulary of the statements *)

(** The bytes a chunk carries: those [uploadChunk] appends.  A chunk whose
    reads break carries none. *)
Definition chunk_bytes (c : chunk) : option bytes :=
  match c with
  | TextChunk t => encode_utf8 t
  | BytesChunk b => Some b
  | FileChunk b => Some b
  | BrokenChunk _ _ => None
  end.

(** The bytes the reads of a chunk give before they end or break. *)
Definition chunk_reads (c : chunk) : option bytes :=
  match c with
  | BrokenChunk b _ => Some b
  | _ => chunk_bytes c
  end.

(** The bytes of the regular file at a path. *)
Definition read_file (d : fs) (p : string) : option bytes :=
  match d !! p with Some (File c) => Some c | _ => None end.

(** The records of an assetstore that hold a digest. *)
Definition holders (a : assetstore) (st : store) (sha : string) : list file :=
  filter (λ f, file_assetstoreId f = assetstore_id a ∧ file_sha512 f = Some sha)
         (files st).

(** The path a record's bytes are looked for at: what [fullPath] returns. *)
Definition resolved (a : assetstore) (f : file) : option string :=
  match file_path f with
  | Some p => Some (if truthy (file_imported f) then p
                    else join (assetstore_root a) p)
  | None => None
  end.

(** What the scan has to say on one record. *)
Definition verdict (a : assetstore) (d : fs) (checkSize : bool) (f : file)
  : option finding :=
  match resolved a f with
  | None => None
  | Some p =>
      match d !! p with
      | Some (File c) =>
          if checkSize && negb (bool_decide (length c = file_size f))
          then Some {| reason := "size"; finding_file := f; finding_path := p |}
          else None
      | _ => Some {| reason := "missing"; finding_file := f; finding_path := p |}
      end
  end.

(** The cursor [findInvalidFiles] iterates over. *)
Definition scan_cursor (a : assetstore) (st : store) (filters : option query)
  : list file :=
  find st (dict_update
             {| q_assetstoreId := Some (assetstore_id a); q_sha512 := None;
                q_imported := None; q_name := None |}
             (default no_filter filters)) None.

(** What [join] puts before a relative second argument. *)
Definition join_prefix (a : string) : string :=
  if bool_decide (a = "") || endswith_slash a then a else a +:+ "/".

(** A path component: a string without a slash. *)
Fixpoint no_slash (s : string) : bool :=
  match s with
  | EmptyString => true
  | String c r => negb (is_slash c) && no_slash r
  end.

(** [d'] is [d] with new writable directories, none of a longer path than
    [name]: what [os.makedirs(name)] may do to a disk. *)
Definition grows (name : string) (d d' : fs) : Prop :=
  ∀ q, d' !! q = d !! q
       ∨ (d !! q = None ∧ d' !! q = Some (Dir true)
          ∧ String.length q ≤ String.length name).

(** An environment and a disk on which the root of [demo_root] is yet to be
    made. *)
Definition demo_env : os_env :=
  {| cwd := "/srv";
     home_of := λ n, if bool_decide (n = "") then Some "/home/girder" else None;
     listing := id |}.

Definition bare_disk : fs := {[ "/" := Dir true ]}.

(** A scratch file of the assetstore: a name in its temp directory, as
    [tempfile.mkstemp(dir=self.tempDir)] gives to [initUpload]. *)
Definition scratch_path (a : assetstore) (p : string) : Prop :=
  ∃ name, name ≠ "" ∧ no_slash name = true ∧ p = join (tempDir a) name.

(** Two uploads of the same five bytes, ready to be finalized. *)
Definition twin_disk : fs :=
  {[ "/" := Dir true; "/data" := Dir true; "/data/temp" := Dir true;
     "/data/temp/tmpA" := File (b "hello"); "/data/temp/tmpB" := File (b "hello") ]}.

Definition twin_upload (temp : string) : upload :=
  {| upload_tempFile := temp;
     upload_sha512state := serializeHex (Digest := demo_digest) (b "hello");
     upload_received := 5;
     upload_size := 5 |}.

Definition fresh_file (id : N) (name : string) : file :=
  {| file_id := id; file_name := name; file_itemId := 1; file_creatorId := 1;
     file_assetstoreId := 7; file_mimeType := None; file_size := 5;
     file_sha512 := None; file_path := None;
     file_imported := None; file_mtime := None |}.

(** The order of a listing is arbitrary, its names are not. *)
Definition listing_ok (env : os_env) : Prop := ∀ l, listing env l ≡ₚ l.




(** The folder [X] is the folder [F] or lies below it. *)
Inductive inside (st : store) (F : N) : N → Prop :=
  | inside_self : inside st F F
  | inside_child (fo : folder) :
      fo ∈ folders st → folder_parentType fo = "folder" →
      inside st F (folder_parentId fo) →
      inside st F (folder_id fo).

(** The folders an import into the container [P] of type [T] works in:
    [P] itself when it is a folder, and what lies below the folders that
    have it as their parent. *)
Definition region (st : store) (P : N) (T : string) (X : N) : Prop :=
  (T = "folder" ∧ X = P)
  ∨ ∃ fo, fo ∈ folders st ∧ folder_parentId fo = P ∧ folder_parentType fo = T
          ∧ inside st (folder_id fo) X.






(** The length of the longest path of the disk. *)
Definition longest (d : fs) : nat :=
  max_list (String.length <$> map fst (map_to_list d)).

(** An external tree: [a/b.txt] and [a/c/] under [/srv]. *)
Definition import_disk : fs :=
  {[ "/" := Dir true; "/srv" := Dir true; "/srv/a" := Dir true;
     "/srv/a/b.txt" := File (b "hello"); "/srv/a/c" := Dir true ]}.

Definition import_mtimes (p : string) : Z :=
  if bool_decide (p = "/srv/a/b.txt") then 1700000000%Z else 0%Z.

(** ** The rest of the adapter *)

Section AdapterRest.
Context {D : Digest}.

(** [initUpload(upload)].  [mkstemp dir] stands for
    [tempfile.mkstemp(dir=dir)] with the descriptor closed: it creates an
    empty file under a name of its choosing and returns the path. *)
Definition initUpload (mkstemp : string → M fs string) (a : assetstore)
  : M (fs * upload) unit :=
  path ← on_fst (mkstemp (tempDir a));
  on_snd (u ← get;
          put {| upload_tempFile := path;
                 upload_sha512state := serializeHex sha512;
                 upload_received := upload_received u;
                 upload_size := upload_size u |}).

(** The state of a session in normal operation: the scratch file holds
    [F], as many bytes as are recorded, and the recorded digest state is
    that of [F]. *)
Definition consistent (d : fs) (u : upload) (F : bytes) : Prop :=
  d !! upload_tempFile u = Some (File F)
  ∧ length F = upload_received u
  ∧ restoreHex (upload_sha512state u) = Some (sha512_update sha512 F).
End AdapterRest.

(** What [tempfile.mkstemp] promises: on success an empty regular file at a
    path that was free, nothing else changed; on failure no change. *)
Definition mkstemp_law (mkstemp : string → M fs string) : Prop :=
  ∀ dir d d' r, mkstemp dir d = (d', r) →
    match r with
    | inr p => d !! p = None ∧ d' = <[p := File []]> d
    | inl _ => d' = d
    end.

(** A [mkstemp] to run examples with: the first of the candidate [names]
    that is free in [dir]. *)
Fixpoint mkstemp_of (names : list string) (dir : string) : M fs string := λ d,
  match names with
  | [] => (d, inl (OSError EEXIST))
  | n :: names =>
      let p := join dir n in
      match d !! p with
      | Some _ => mkstemp_of names dir d
      | None =>
          match check_parent d p with
          | inl e => (d, inl e)
          | inr _ => (<[p := File []]> d, inr p)
          end
      end
  end.

(** [__init__(assetstore)]: the temp directory is made when missing; a
    failure is logged, not raised.  The state carries the log. *)
Definition adapter_init (a : assetstore) : M (fs * list string) unit :=
  d ← on_fst get;
  if negb (exists_ d (tempDir a)) then
    try_except (on_fst (makedirs (tempDir a))) is_OSError
      (λ _, on_snd (l ← get;
                    put (l ++ ["Failed to create filesystem assetstore directories "
                               +:+ tempDir a])))
  else mret ().

(** The canonical relative path of a digest. *)
Definition shard_rel (hash : string) : string :=
  join (join (substring 0 2 hash) (substring 2 2 hash)) hash.

(** A session in normal operation on the scratch file of [crashed_disk]. *)
Definition steady_upload (size : nat) : upload :=
  {| upload_tempFile := "/data/temp/tmpA";
     upload_sha512state := serializeHex (Digest := demo_digest) (b "hello");
     upload_received := 5;
     upload_size := size |}.

(** * The route registry of [girder/api/docs.py]

    [routes] is a dictionary of dictionaries of lists of operations, keyed
    by resource and by path; an operation is a dictionary.  The values of
    an info dictionary are left abstract: [str] embeds the strings the
    module stores itself, and [upper] is [str.upper]. *)

Inductive docs_exn :=
  | IndexError
  | ValueError.

(** [l.remove(x)]: the first element equal to [x] goes; [None] stands for
    the [ValueError] raised when there is none. *)
Fixpoint remove_first {A} `{EqDecision A} (x : A) (l : list A) : option (list A) :=
  match l with
  | [] => None
  | y :: l =>
      if bool_decide (y = x) then Some l
      else match remove_first x l with
           | Some l' => Some (y :: l')
           | None => None
           end
  end.

(** The list comprehension of [_toRoutePath]: [token[0]] raises on an
    empty token. *)
Fixpoint convRoute (route : list string) : docs_exn + list string :=
  match route with
  | [] => inr []
  | token :: route =>
      match token with
      | EmptyString => inl IndexError
      | String c rest =>
          match convRoute route with
          | inl e => inl e
          | inr conv =>
              inr ((if bool_decide (c = ":"%char) then "{" +:+ rest +:+ "}"
                    else token) :: conv)
          end
      end
  end.

Definition _toRoutePath (resource : string) (route : list string) : docs_exn + string :=
  match convRoute route with
  | inl e => inl e
  | inr conv => inr (join_slash ("" :: resource :: conv))
  end.

Section Docs.
Context {V : Type} `{EqDecision V}.
Variable str : string → V.
Variable upper : string → string.

Local Abbreviation operation := (gmap string V).
Local Abbreviation registry := (gmap string (gmap string (list (gmap string V)))).

(** [handler] is the handler's [__name__]. *)
Definition _toOperation (info : operation) (method handler : string) : operation :=
  let operation := <["httpMethod" := str (upper method)]> info in
  if bool_decide (is_Some (operation !! "nickname")) then operation
  else <["nickname" := str handler]> operation.

(** [routes[resource][path]] on the two [defaultdict]s makes the missing
    entries. *)
Definition addRouteDocs (resource : string) (route : list string) (method : string)
    (info : operation) (handler : string) (routes : registry)
  : registry * (docs_exn + unit) :=
  match _toRoutePath resource route with
  | inl e => (routes, inl e)
  | inr path =>
      let operation := _toOperation info method handler in
      let byPath := default ∅ (routes !! resource) in
      let l := default [] (byPath !! path) in
      (<[resource := <[path := if bool_decide (operation ∈ l) then l
                               else l ++ [operation]]> byPath]> routes,
       inr ())
  end.

Definition removeRouteDocs (resource : string) (route : list string) (method : string)
    (info : operation) (handler : string) (routes : registry)
  : registry * (docs_exn + unit) :=
  match routes !! resource with
  | None => (routes, inr ())
  | Some byPath =>
      match _toRoutePath resource route with
      | inl e => (routes, inl e)
      | inr path =>
          match byPath !! path with
          | None => (routes, inr ())
          | Some l =>
              let operation := _toOperation info method handler in
              if bool_decide (info ∈ l) then
                match remove_first operation l with
                | None => (routes, inl ValueError)
                | Some [] =>
                    let byPath := delete path byPath in
                    if bool_decide (byPath = ∅) then (delete resource routes, inr ())
                    else (<[resource := byPath]> routes, inr ())
                | Some l => (<[resource := <[path := l]> byPath]> routes, inr ())
                end
              else (routes, inr ())
          end
      end
  end.

(** What is registered for a resource and a path. *)
Definition registered (routes : registry) (resource path : string) : list operation :=
  default [] (routes !! resource ≫= λ byPath, byPath !! path).

(** Every registered operation carries the keys [_toOperation] sets. *)
Definition built (routes : registry) : Prop :=
  ∀ resource path op, op ∈ registered routes resource path →
    is_Some (op !! "httpMethod") ∧ is_Some (op !! "nickname").

(** No empty list and no empty dictionary is kept. *)
Definition tidy (routes : registry) : Prop :=
  ∀ resource byPath, routes !! resource = Some byPath →
    byPath ≠ ∅ ∧ ∀ path l, byPath !! path = Some l → l ≠ [].

(** No operation is registered twice for a path. *)
Definition distinct (routes : registry) : Prop :=
  ∀ resource path, NoDup (registered routes resource path).
End Docs.

(** A route token as [_toRoutePath] writes it: [:name] becomes [{name}]. *)
Definition braced (token : string) : string :=
  match token with
  | String c rest => if bool_decide (c = ":"%char) then "{" +:+ rest +:+ "}" else token
  | EmptyString => token
  end.

(** Every component with a slash before it. *)
Fixpoint slashed (l : list string) : string :=
  match l with
  | [] => ""
  | x :: l => "/" +:+ x +:+ slashed l
  end.

(** [str.upper] on ASCII, for examples. *)
Fixpoint upper_ascii (s : string) : string :=
  match s with
  | EmptyString => EmptyString
  | String c r =>
      let n := nat_of_ascii c in
      String (if (97 <=? n) && (n <=? 122) then ascii_of_nat (n - 32) else c)
             (upper_ascii r)
  end.

(** * The port search of [tests/mock_s3.py] *)

Definition _startPort : Z := 31100.
Definition _maxTries : Z := 100.

(** What [test_socket.bind] does on a port: it binds, or raises
    [socket.error] with [EADDRINUSE] or with another code. *)
Inductive bind_result :=
  | Bound
  | AddrInUse
  | BindError (errno : Z).

(** The loop of [startMockS3Server] over [range(_maxTries)], from
    [porttry] on with [fuel] rounds left: the selected port, [None] when
    the rounds are used up, or the error that is raised again. *)
Fixpoint select_port (bind : Z → bind_result) (pid : Z) (fuel : nat) (porttry : Z)
  : Z + option Z :=
  match fuel with
  | 0 => inr None
  | S fuel =>
      let port := (_startPort + (porttry + pid) mod _maxTries)%Z in
      match bind port with
      | Bound => inr (Some port)
      | AddrInUse => select_port bind pid fuel (porttry + 1)
      | BindError errno => inl errno
      end
  end.

Definition selectedPort (bind : Z → bind_result) (pid : Z) : Z + option Z :=
  select_port bind pid (Z.to_nat _maxTries) 0.

(** * Proofs *)

(** ** Running the monad *)

Ltac run :=
  unfold restore, getitem;
  unfold mbind, M_bind, mret, M_ret, on_fst, on_snd, get, put, raise,
    of_result, try_except.

(** Reduce the matches that the known results have decided, without
    unfolding any constant. *)
Ltac step := cbv beta iota zeta.

Lemma BUF_SIZE_pos : 0 < BUF_SIZE.
Proof. unfold BUF_SIZE. lia. Qed.

Lemma take_is_nil {A} (n : nat) (l : list A) : 0 < n → take n l = [] → l = [].
Proof. destruct n, l; simpl; intros; (lia || congruence). Qed.

Lemma truncate_exact (n : nat) (c : bytes) : length c = n → truncate n c = c.
Proof.
  intros <-. unfold truncate.
  rewrite firstn_all, Nat.sub_diag. simpl. apply app_nil_r.
Qed.

Lemma truncate_length (n : nat) (c : bytes) : length (truncate n c) = n.
Proof. unfold truncate. rewrite length_app, length_take, length_replicate. lia. Qed.

Lemma truncate_long (n : nat) (c : bytes) : n ≤ length c → truncate n c = take n c.
Proof.
  intros H. unfold truncate.
  replace (n - length c) with 0 by lia. simpl. apply app_nil_r.
Qed.

(** ** The block loops of [uploadChunk] *)

Section Loops.
Context {D : Digest} {L : DigestLaws D}.

Lemma digest_blocks_spec (fuel : nat) (rest : bytes) (h : digest_state) :
  length rest ≤ fuel → digest_blocks fuel rest h = sha512_update h rest.
Proof.
  revert rest h. induction fuel as [|fuel IH]; intros rest h Hlen; simpl.
  - destruct rest; simpl in Hlen; [|lia]. by rewrite update_nil.
  - destruct (take BUF_SIZE rest) as [|x data] eqn:E.
    + apply take_is_nil in E; [|apply BUF_SIZE_pos]. subst. by rewrite update_nil.
    + rewrite IH, update_app, <- E, take_drop; [done|].
      rewrite length_drop.
      assert (0 < length rest) by (destruct rest; simpl; [by rewrite take_nil in E | lia]).
      pose proof BUF_SIZE_pos. lia.
Qed.

Lemma catch_up_spec (rest : bytes) (h : digest_state) :
  catch_up rest h = sha512_update h rest.
Proof. by apply digest_blocks_spec. Qed.

(** The appending loop writes a prefix [w] of the chunk and stops at its
    end or once the declared size is exceeded. *)
Lemma append_blocks_spec (fuel : nat) (u : upload) (rest content : bytes)
    (size : nat) (h : digest_state) :
  length rest ≤ fuel →
  ∃ w, w `prefix_of` rest ∧
    append_blocks fuel u rest (size, content, h)
      = (size + length w, content ++ w, sha512_update h w) ∧
    (w = rest ∨ upload_size u < upload_received u + (size + length w)).
Proof.
  revert rest content size h.
  induction fuel as [|fuel IH]; intros rest content size h Hlen.
  - destruct rest; simpl in Hlen; [|lia]. exists []. simpl.
    rewrite update_nil, app_nil_r, Nat.add_0_r. auto.
  - cbn [append_blocks]. destruct (upload_size u <? upload_received u + size) eqn:Hover.
    + exists []. simpl. rewrite update_nil, app_nil_r, Nat.add_0_r.
      split; [apply prefix_nil|]. split; [done|].
      right. apply Nat.ltb_lt in Hover. lia.
    + destruct (take BUF_SIZE rest) as [|x data] eqn:E.
      * apply take_is_nil in E; [|apply BUF_SIZE_pos]. subst.
        exists []. simpl. rewrite update_nil, app_nil_r, Nat.add_0_r. auto.
      * assert (0 < length rest) as Hpos
          by (destruct rest; simpl; [by rewrite take_nil in E | lia]).
        pose proof BUF_SIZE_pos as HB.
        destruct (IH (drop BUF_SIZE rest) (content ++ x :: data)
                    (size + length (x :: data)) (sha512_update h (x :: data)))
          as (w & Hpre & Heq & Hstop).
        { rewrite length_drop. lia. }
        exists ((x :: data) ++ w). rewrite <- E in *.
        split; [|split].
        -- rewrite <- (take_drop BUF_SIZE rest) at 2. by apply prefix_app.
        -- rewrite Heq, update_app, length_app, <- app_assoc.
           by rewrite Nat.add_assoc.
        -- destruct Hstop as [-> | Hstop].
           ++ left. apply take_drop.
           ++ right. rewrite length_app. lia.
Qed.

(** A chunk that fits is appended whole. *)
Lemma append_blocks_fits (u : upload) (data content : bytes) (h : digest_state) :
  upload_received u + length data ≤ upload_size u →
  append_blocks (length data) u data (0, content, h)
    = (length data, content ++ data, sha512_update h data).
Proof.
  intros Hfit.
  destruct (append_blocks_spec (length data) u data content 0 h)
    as (w & Hpre & Heq & Hstop); [done|].
  destruct Hstop as [-> | Hstop]; [done|].
  apply prefix_length in Hpre. simpl in Hstop. lia.
Qed.
End Loops.

(** ** [uploadChunk] *)

Section UploadChunk.
Context {D : Digest} {L : DigestLaws D}.

Lemma getChunkSize_bytes (c : chunk) (data : bytes) :
  chunk_bytes c = Some data →
  getChunkSize c = inr (match c with FileChunk _ => None | _ => Some (length data) end).
Proof. destruct c; simpl; intros H; [by rewrite H | by inversion H | done..]. Qed.

(** A chunk that fits: it is appended, the digest advances over the gap a
    crash left on disk, if any, and then over the chunk. *)
Lemma uploadChunk_accepts (d : fs) (u : upload) (c : chunk) (data F : bytes)
    (h0 : digest_state) :
  chunk_bytes c = Some data →
  d !! upload_tempFile u = Some (File F) →
  restoreHex (upload_sha512state u) = Some h0 →
  upload_received u + length data ≤ upload_size u →
  uploadChunk c (d, u)
    = ((<[upload_tempFile u := File (F ++ data)]> d,
        set_state_received u
          (serializeHex
             (sha512_update
                (if upload_received u <? length F
                 then sha512_update h0 (drop (upload_received u) F) else h0)
                data))
          (upload_received u + length data)),
       inr ()).
Proof.
  intros Hc HF Hh Hfit.
  assert ((upload_size u <? upload_received u + length data) = false) as Hnb
    by (apply Nat.ltb_ge; lia).
  unfold uploadChunk. run. unfold requestOffset, getsize, open_rb, open_ab, close_file.
  rewrite (getChunkSize_bytes c data Hc).
  assert (checkUploadSize u (match c with FileChunk _ => None | _ => Some (length data) end)
          = inr ()) as ->.
  { destruct c; simpl; by rewrite ?Hnb. }
  assert (read_all c (d, u) = ((d, u), inr data)) as ->.
  { destruct c; simpl in *; [by rewrite Hc | by inversion Hc..]. }
  assert (∀ S size, read_raises (S := S) c u size = mret ()) as Hend
    by (intros S size; by destruct c).
  rewrite Hh. step. rewrite HF. step.
  destruct (upload_received u <? length F) eqn:Hgap; step; rewrite ?HF; step.
  - rewrite catch_up_spec, append_blocks_fits by done. step.
    rewrite Hend. unfold mret, M_ret. step.
    unfold checkUploadSize. rewrite Hnb. step.
    done.
  - rewrite append_blocks_fits by done. step.
    rewrite Hend. unfold mret, M_ret. step.
    unfold checkUploadSize. rewrite Hnb. step.
    done.
Qed.
End UploadChunk.

(** ** The stand-in digest is a digest *)

Lemma hex_char_is_hex (n : N) : is_hex_digit (hex_char n) = true.
Proof.
  unfold hex_char.
  assert (N.to_nat (n mod 16) < 16) as H
    by (pose proof (N.mod_upper_bound n 16); lia).
  revert H. generalize (N.to_nat (n mod 16)) as k. intros k H.
  do 16 (destruct k as [|k]; [reflexivity|]). lia.
Qed.

Lemma hex_fixed_length (w : nat) (n : N) : String.length (hex_fixed w n) = w.
Proof. revert n. induction w as [|w IH]; intros n; simpl; [done | by rewrite IH]. Qed.

Lemma hex_fixed_hex (w : nat) (n : N) : all_hex (hex_fixed w n) = true.
Proof.
  revert n. induction w as [|w IH]; intros n; [done|].
  cbn [hex_fixed all_hex]. by rewrite hex_char_is_hex, IH.
Qed.

Lemma bytes_of_hex_of_bytes (l : bytes) : bytes_of_hex (hex_of_bytes l) = Some l.
Proof.
  induction l as [|x l IH]; [done|].
  cbn [hex_of_bytes bytes_of_hex]. rewrite IH. by destruct x.
Qed.

Lemma demo_laws : DigestLaws demo_digest.
Proof.
  split.
  - intros h. exact (app_nil_r h).
  - intros h x y. exact (eq_sym (app_assoc h x y)).
  - exact bytes_of_hex_of_bytes.
  - intros h. exact (hex_fixed_length 128 _).
  - intros h. exact (hex_fixed_hex 128 _).
Qed.

(** ** Claims on [uploadChunk] *)

Section UploadClaims.
Context {D : Digest} {L : DigestLaws D}.

(** C2, crash catch-up.  When the scratch file holds more bytes than the
    session has recorded, an accepted chunk makes [uploadChunk] digest
    exactly the gap bytes [[received, on-disk size)] and then the chunk;
    if the recorded digest covered the first [received] bytes, the new
    digest is the digest of the whole scratch file, the one a session
    that never crashed reaches on the same bytes. *)
Theorem crash_catch_up (d : fs) (u : upload) (c : chunk) (data F : bytes)
    (h0 : digest_state) :
  chunk_bytes c = Some data →
  d !! upload_tempFile u = Some (File F) →
  upload_received u < length F →
  restoreHex (upload_sha512state u) = Some h0 →
  upload_received u + length data ≤ upload_size u →
  let gap := drop (upload_received u) F in
  let state' := serializeHex (sha512_update (sha512_update h0 gap) data) in
  uploadChunk c (d, u)
    = ((<[upload_tempFile u := File (F ++ data)]> d,
        set_state_received u state' (upload_received u + length data)),
       inr ())
  ∧ (h0 = sha512_update sha512 (take (upload_received u) F) →
     state' = serializeHex (sha512_update sha512 (F ++ data))
     ∧ ∀ u' : upload,
         upload_tempFile u' = upload_tempFile u →
         upload_received u' = length F →
         upload_sha512state u' = serializeHex (sha512_update sha512 F) →
         length F + length data ≤ upload_size u' →
         upload_sha512state (snd (fst (uploadChunk c (d, u')))) = state').
Proof.
  intros Hc HF Hgap Hh Hfit gap state'. split.
  - rewrite (uploadChunk_accepts d u c data F h0) by done.
    apply Nat.ltb_lt in Hgap. by rewrite Hgap.
  - intros ->.
    assert (state' = serializeHex (sha512_update sha512 (F ++ data))) as Hst.
    { unfold state', gap. by rewrite !update_app, app_assoc, take_drop. }
    split; [done|].
    intros u' Ht Hr Hs Hfit'.
    rewrite (uploadChunk_accepts d u' c data F (sha512_update sha512 F)).
    + simpl. rewrite Hr, Nat.ltb_irrefl, update_app. by rewrite Hst.
    + done.
    + by rewrite Ht.
    + rewrite Hs. apply restore_serialize.
    + lia.
Qed.

(** C3, as the code has it.  A chunk that pushes [received + len] over
    [size] fails with the size-exceeded error and leaves the session record
    as it was.  A text or byte chunk is refused before anything is
    written: the disk is untouched.  A file-like chunk is appended and the
    scratch file then cut back to exactly [received] bytes, its first
    [received] bytes when it had as many.  Either way a scratch file that
    held exactly [received] bytes holds the same bytes afterwards. *)
Theorem size_exceeded_rolls_back (d : fs) (u : upload) (c : chunk)
    (data F : bytes) :
  chunk_bytes c = Some data →
  d !! upload_tempFile u = Some (File F) →
  is_Some (restoreHex (upload_sha512state u)) →
  upload_size u < upload_received u + length data →
  ∃ d', uploadChunk c (d, u) = ((d', u), inl (ValidationException SizeExceeded))
    ∧ match c with
      | FileChunk _ =>
          ∃ content, d' = <[upload_tempFile u := File content]> d
            ∧ length content = upload_received u
            ∧ (upload_received u ≤ length F → content = take (upload_received u) F)
      | _ => d' = d
      end
    ∧ (length F = upload_received u → read_file d' (upload_tempFile u) = Some F).
Proof.
  intros Hc HF [h0 Hh] Hover.
  assert ((upload_size u <? upload_received u + length data) = true) as Hb
    by (by apply Nat.ltb_lt).
  assert (∀ c', (∃ t, c' = TextChunk t) ∨ (∃ x, c' = BytesChunk x) →
            chunk_bytes c' = Some data →
            uploadChunk c' (d, u) = ((d, u), inl (ValidationException SizeExceeded)))
    as Hearly.
  { intros c' Hk Hc'. unfold uploadChunk. run.
    rewrite (getChunkSize_bytes c' data Hc').
    destruct Hk as [[t ->] | [x ->]]; step; unfold checkUploadSize; by rewrite Hb. }
  destruct c as [t | x | x | x e0]; [| | |done].
  - exists d. rewrite Hearly by eauto. split; [done|]. split; [done|].
    intros _. unfold read_file. by rewrite HF.
  - exists d. rewrite Hearly by eauto. split; [done|]. split; [done|].
    intros _. unfold read_file. by rewrite HF.
  - simpl in Hc. injection Hc as ->.
    destruct (append_blocks_spec (length data) u data
                (F) 0 (if upload_received u <? length F
                       then sha512_update h0 (drop (upload_received u) F) else h0))
      as (w & Hpre & Heq & Hstop); [done|].
    assert (upload_size u < upload_received u + length w) as Hw.
    { destruct Hstop as [-> | Hstop]; [done | by simpl in Hstop]. }
    exists (<[upload_tempFile u := File (truncate (upload_received u) (F ++ w))]> d).
    split; [|split].
    + unfold uploadChunk. run.
      unfold requestOffset, getsize, open_rb, open_ab, close_file.
      cbn [getChunkSize read_all read_raises checkUploadSize]. run. step.
      rewrite Hh. step. rewrite HF. step.
      destruct (upload_received u <? length F) eqn:Hgap; step; rewrite ?HF; step;
        rewrite ?catch_up_spec, Heq; step;
        unfold checkUploadSize;
        (assert ((upload_size u <? upload_received u + (0 + length w)) = true) as ->
          by (apply Nat.ltb_lt; lia));
        step; cbn [is_ValidationException]; step;
        rewrite lookup_insert_eq; step; by rewrite insert_insert_eq.
    + exists (truncate (upload_received u) (F ++ w)).
      split; [done|]. split; [apply truncate_length|].
      intros Hle. rewrite truncate_long by (rewrite length_app; lia).
      by rewrite take_app_le.
    + intros Hlen. unfold read_file. rewrite lookup_insert_eq.
      rewrite truncate_long by (rewrite length_app; lia).
      rewrite take_app_le by lia. by rewrite <- Hlen, firstn_all.
Qed.

(** C10, text chunks.  Appending a text chunk is appending its UTF-8
    encoding as a byte chunk: the same disk, the same session record and
    the same outcome. *)
Theorem text_chunk_is_its_utf8 (t : text) (x : bytes) (s : fs * upload) :
  encode_utf8 t = Some x →
  uploadChunk (TextChunk t) s = uploadChunk (BytesChunk x) s.
Proof.
  intros Ht. unfold uploadChunk.
  cbn [getChunkSize read_all read_raises]. by rewrite Ht.
Qed.
End UploadClaims.

Lemma crash_catch_up_witness :
  uploadChunk (D := demo_digest) (BytesChunk (b "XY")) (crashed_disk, crashed_upload 7)
  = ((<["/data/temp/tmpA" := File (b "helloXY")]> crashed_disk,
      set_state_received (crashed_upload 7)
        (serializeHex (Digest := demo_digest) (b "helloXY")) 3),
     inr ()).
Proof.
  refine (proj1 (crash_catch_up (D := demo_digest) (L := demo_laws)
                   crashed_disk (crashed_upload 7) (BytesChunk (b "XY"))
                   (b "XY") (b "hello") (b "h") _ _ _ _ _));
    [reflexivity | reflexivity | simpl; lia | reflexivity | simpl; lia].
Defined.

(** C3 as stated fails: after a crash the scratch file holds five bytes
    while one is recorded; an eight-byte chunk that would pass the declared
    size of eight is refused with the size-exceeded error, and the scratch
    file still holds its five bytes, not one. *)
Lemma size_exceeded_leaves_longer_file :
  let r := uploadChunk (D := demo_digest) (BytesChunk (b "ABCDEFGH"))
             (crashed_disk, crashed_upload 8) in
  snd r = inl (ValidationException SizeExceeded)
  ∧ read_file (fst (fst r)) "/data/temp/tmpA" = Some (b "hello")
  ∧ upload_received (snd (fst r)) = 1.
Proof. vm_compute. auto. Qed.

Lemma size_exceeded_rolls_back_witness :
  ∃ d', uploadChunk (D := demo_digest) (FileChunk (b "ABCDEFGH"))
          (crashed_disk, crashed_upload 8)
        = ((d', crashed_upload 8), inl (ValidationException SizeExceeded))
      ∧ read_file d' "/data/temp/tmpA" = Some (b "h").
Proof.
  destruct (size_exceeded_rolls_back (D := demo_digest) (L := demo_laws)
              crashed_disk (crashed_upload 8) (FileChunk (b "ABCDEFGH"))
              (b "ABCDEFGH") (b "hello"))
    as (d' & Hrun & (content & -> & _ & Hcut) & _);
    [reflexivity | reflexivity | eexists; reflexivity | simpl; lia |].
  exists (<["/data/temp/tmpA" := File content]> crashed_disk).
  split; [exact Hrun|].
  rewrite Hcut by (simpl; lia). reflexivity.
Defined.

Lemma text_chunk_is_its_utf8_witness :
  uploadChunk (D := demo_digest) (TextChunk [0x68; 0xE9]%N)
    (crashed_disk, crashed_upload 9)
  = uploadChunk (D := demo_digest) (BytesChunk [x68; xc3; xa9])
      (crashed_disk, crashed_upload 9).
Proof. apply text_chunk_is_its_utf8. reflexivity. Defined.

(** ** [cancelUpload] *)

(** C9, cancel idempotence.  Cancelling deletes the scratch file when it is
    there and succeeds when it is not; a second cancel changes nothing. *)
Theorem cancel_idempotent (d : fs) (u : upload) :
  (∀ w, d !! upload_tempFile u ≠ Some (Dir w)) →
  cancelUpload u d = (delete (upload_tempFile u) d, inr ())
  ∧ exists_ (delete (upload_tempFile u) d) (upload_tempFile u) = false
  ∧ cancelUpload u (delete (upload_tempFile u) d)
    = (delete (upload_tempFile u) d, inr ())
  ∧ (cancelUpload u;; cancelUpload u) d = cancelUpload u d.
Proof.
  intros Hnd.
  assert (∀ d0 : fs, d0 !! upload_tempFile u = None →
            cancelUpload u d0 = (d0, inr ())) as Habsent.
  { intros d0 H0. unfold cancelUpload, exists_. run. rewrite H0.
    rewrite bool_decide_eq_false_2; [done | by intros [? ?]]. }
  assert (cancelUpload u d = (delete (upload_tempFile u) d, inr ())) as Hfirst.
  { destruct (d !! upload_tempFile u) as [[c|w]|] eqn:E.
    - unfold cancelUpload, exists_, remove. run. rewrite E.
      rewrite bool_decide_eq_true_2 by eauto. step. by rewrite E.
    - by destruct (Hnd w).
    - rewrite Habsent by done. by rewrite delete_id. }
  assert (cancelUpload u (delete (upload_tempFile u) d)
          = (delete (upload_tempFile u) d, inr ())) as Hsecond
    by (apply Habsent, lookup_delete_eq).
  split; [done|]. split; [|split; [done|]].
  - unfold exists_. rewrite lookup_delete_eq.
    apply bool_decide_eq_false_2. by intros [? ?].
  - change ((cancelUpload u;; cancelUpload u) d)
      with (match cancelUpload u d with
            | (s', inl e) => (s', inl e)
            | (s', inr _) => cancelUpload u s'
            end).
    by rewrite Hfirst, Hsecond.
Qed.

Lemma cancel_idempotent_witness :
  cancelUpload (crashed_upload 9) crashed_disk
  = (delete "/data/temp/tmpA" crashed_disk, inr ()).
Proof.
  refine (proj1 (cancel_idempotent crashed_disk (crashed_upload 9) _)).
  intros w. vm_compute. discriminate.
Defined.

(** ** [deleteFile] *)

Lemma matches_holder (a : assetstore) (sha : string) (f : file) :
  matches {| q_assetstoreId := Some (assetstore_id a); q_sha512 := Some sha;
             q_imported := None; q_name := None |} f = true
  ↔ file_assetstoreId f = assetstore_id a ∧ file_sha512 f = Some sha.
Proof.
  unfold matches, field_matches. cbn [q_assetstoreId q_sha512 q_imported q_name].
  rewrite !andb_true_r, andb_true_iff, !bool_decide_eq_true.
  split; intros [H1 H2]; split; congruence.
Qed.

Lemma find_holders (a : assetstore) (st : store) (sha : string) :
  find st {| q_assetstoreId := Some (assetstore_id a); q_sha512 := Some sha;
             q_imported := None; q_name := None |} (Some 2)
  = take 2 (holders a st sha).
Proof.
  unfold find, holders. f_equal. apply list_filter_iff.
  intros f. apply matches_holder.
Qed.

Lemma take_2_length_1 {A} (l : list A) : length (take 2 l) = 1 ↔ length l = 1.
Proof. destruct l as [|x [|y l]]; simpl; lia. Qed.

(** C6, reference-safe deletion.  An imported record is never followed to
    the disk; a record one of several holders of its digest leaves the file
    where it is; the sole holder has the file removed when it is there. *)
Theorem delete_reference_safe (a : assetstore) (st : store) (f : file) (d : fs) :
  (truthy (file_imported f) = true → deleteFile a st f d = (d, inr ()))
  ∧ (∀ sha, truthy (file_imported f) = false → file_sha512 f = Some sha →
       2 ≤ length (holders a st sha) → deleteFile a st f d = (d, inr ()))
  ∧ (∀ sha p, truthy (file_imported f) = false → file_sha512 f = Some sha →
       file_path f = Some p → length (holders a st sha) = 1 →
       deleteFile a st f d
       = (if isfile d (join (assetstore_root a) p)
          then delete (join (assetstore_root a) p) d else d, inr ())).
Proof.
  split; [|split].
  - intros Hi. unfold deleteFile. by rewrite Hi.
  - intros sha Hi Hs Hn. unfold deleteFile. rewrite Hi, Hs. run. step.
    rewrite find_holders.
    rewrite bool_decide_eq_false_2; [done|].
    rewrite take_2_length_1. lia.
  - intros sha p Hi Hs Hp Hn. unfold deleteFile. rewrite Hi, Hs, Hp. run. step.
    rewrite find_holders.
    rewrite bool_decide_eq_true_2 by (by apply take_2_length_1).
    step. unfold isfile, remove.
    destruct (d !! join (assetstore_root a) p) as [[c|w]|] eqn:E; step;
      by rewrite ?E.
Qed.

Lemma delete_reference_safe_witness :
  deleteFile demo_root shared_store (stored_file 1 "one" 5 "abcd") shared_disk
    = (shared_disk, inr ())
  ∧ deleteFile demo_root
      (store_of [stored_file 2 "two" 5 "abcd"; stored_file 3 "gone" 4 "ef01"])
      (stored_file 2 "two" 5 "abcd") shared_disk
    = (delete "/data/ab/cd/abcd" shared_disk, inr ())
  ∧ deleteFile demo_root shared_store (imported_file 4 "ext.bin" 8 "/srv/ext.bin")
      shared_disk
    = (shared_disk, inr ()).
Proof.
  split; [|split].
  - apply (proj1 (proj2 (delete_reference_safe demo_root shared_store
                           (stored_file 1 "one" 5 "abcd") shared_disk)) "abcd");
      [reflexivity | reflexivity | vm_compute; lia].
  - apply (proj2 (proj2 (delete_reference_safe demo_root
                           (store_of [stored_file 2 "two" 5 "abcd";
                                      stored_file 3 "gone" 4 "ef01"])
                           (stored_file 2 "two" 5 "abcd") shared_disk))
             "abcd" "ab/cd/abcd");
      reflexivity.
  - apply (proj1 (delete_reference_safe demo_root shared_store
                    (imported_file 4 "ext.bin" 8 "/srv/ext.bin") shared_disk)).
    reflexivity.
Defined.

(** ** [downloadFile] *)

Lemma fullPath_resolved {S} (a : assetstore) (f : file) (s : S) :
  fullPath a f s = (s, match resolved a f with
                       | Some p => inr p
                       | None => inl (KeyError "path")
                       end).
Proof.
  unfold fullPath, resolved. run.
  by destruct (truthy (file_imported f)), (file_path f).
Qed.

Lemma stream_loop_spec (fuel : nat) (content : bytes) (pos : nat)
    (bytesRead endByte : Z) :
  (bytesRead ≤ endByte)%Z →
  pos + Z.to_nat (endByte - bytesRead) ≤ length content →
  Z.to_nat (endByte - bytesRead) ≤ fuel →
  concat (stream_loop fuel content pos bytesRead endByte)
    = take (Z.to_nat (endByte - bytesRead)) (drop pos content)
  ∧ Forall (λ c, 0 < length c ≤ BUF_SIZE)
      (stream_loop fuel content pos bytesRead endByte).
Proof.
  revert pos bytesRead.
  induction fuel as [|fuel IH]; intros pos bytesRead Hle Hin Hfuel.
  - replace (Z.to_nat (endByte - bytesRead)) with 0 by lia. by split.
  - cbn [stream_loop]. pose proof BUF_SIZE_pos as HB.
    set (readLen := Z.min (Z.of_nat BUF_SIZE) (endByte - bytesRead)).
    destruct (readLen <=? 0)%Z eqn:Hz.
    + apply Z.leb_le in Hz.
      replace (Z.to_nat (endByte - bytesRead)) with 0 by lia. by split.
    + apply Z.leb_gt in Hz.
      assert (length (take (Z.to_nat readLen) (drop pos content)) = Z.to_nat readLen)
        as Hlen by (rewrite length_take, length_drop; lia).
      destruct (take (Z.to_nat readLen) (drop pos content)) as [|x data] eqn:E;
        [simpl in Hlen; lia|].
      rewrite <- E in *.
      destruct (IH (pos + Z.to_nat readLen) (bytesRead + readLen)%Z)
        as [Hcat Hall]; [lia | lia | lia |].
      rewrite Hlen. cbn [concat]. split.
      * rewrite Hcat, <- drop_drop, take_take_drop. f_equal. lia.
      * constructor; [lia | done].
Qed.

(** C4, streaming a range.  For a record whose backing file holds as many
    bytes as the record declares, and a range [[a, b)] with [b] defaulting
    to and capped at the size, running the generator [downloadFile] returns
    yields chunks that concatenate to the bytes from [a] to [b], each chunk
    non-empty and no longer than the buffer. *)
Theorem download_range (a : assetstore) (d : fs) (f : file) (path : string)
    (content : bytes) (offset : Z) (endByte : option Z) :
  resolved a f = Some path →
  d !! path = Some (File content) →
  length content = file_size f →
  let e := match endByte with
           | None => Z.of_nat (file_size f)
           | Some e => Z.min e (Z.of_nat (file_size f))
           end in
  (0 ≤ offset ≤ e)%Z →
  ∃ (gen : M fs (list bytes)) (chunks : list bytes),
    downloadFile a f offset endByte d = (d, inr gen)
    ∧ gen d = (d, inr chunks)
    ∧ concat chunks = take (Z.to_nat (e - offset)) (drop (Z.to_nat offset) content)
    ∧ length (concat chunks) = Z.to_nat (e - offset)
    ∧ Forall (λ c, 0 < length c ≤ BUF_SIZE) chunks.
Proof.
  intros Hp Hd Hlen e Hrange.
  assert (e ≤ Z.of_nat (file_size f))%Z as He by (unfold e; destruct endByte; lia).
  set (pos := if (0 <? offset)%Z then Z.to_nat offset else 0).
  assert (pos = Z.to_nat offset) as Hpos
    by (unfold pos; destruct (0 <? offset)%Z eqn:H0; [done | apply Z.ltb_ge in H0; lia]).
  destruct (stream_loop_spec (length content) content pos offset e)
    as [Hcat Hall]; [lia | lia | lia |].
  exists (stream path offset e), (stream_loop (length content) content pos offset e).
  split; [|split; [|split; [|split]]].
  - unfold downloadFile. run. rewrite fullPath_resolved, Hp. step.
    unfold isfile. rewrite Hd. step.
    replace (match endByte with
             | Some e0 => if (Z.of_nat (file_size f) <? e0)%Z
                          then Z.of_nat (file_size f) else e0
             | None => Z.of_nat (file_size f)
             end) with e; [done|].
    unfold e. destruct endByte as [e0|]; [|done].
    destruct (Z.of_nat (file_size f) <? e0)%Z eqn:Hc;
      [apply Z.ltb_lt in Hc | apply Z.ltb_ge in Hc]; lia.
  - unfold stream, open_rb. run. by rewrite Hd.
  - by rewrite Hcat, Hpos.
  - rewrite Hcat, length_take, length_drop. lia.
  - done.
Qed.

Lemma download_range_witness :
  ∃ (gen : M fs (list bytes)) (chunks : list bytes),
    downloadFile demo_root (stored_file 1 "one" 5 "abcd") 1 (Some 9%Z) shared_disk
      = (shared_disk, inr gen)
    ∧ gen shared_disk = (shared_disk, inr chunks)
    ∧ concat chunks = b "ello".
Proof.
  destruct (download_range demo_root shared_disk (stored_file 1 "one" 5 "abcd")
              "/data/ab/cd/abcd" (b "hello") 1 (Some 9%Z))
    as (gen & chunks & H1 & H2 & H3 & _);
    [reflexivity | reflexivity | reflexivity | simpl; lia |].
  exists gen, chunks. split; [exact H1|]. split; [exact H2|]. exact H3.
Defined.

(** ** [findInvalidFiles] *)

Lemma scan_verdicts (a : assetstore) (d : fs) (checkSize : bool) (cursor : list file) :
  Forall (λ f, is_Some (file_path f)) cursor →
  scan a d checkSize cursor = (omap (verdict a d checkSize) cursor, None).
Proof.
  induction 1 as [|f cursor [p Hp] _ IH]; [done|].
  cbn [scan omap list_omap]. rewrite fullPath_resolved, IH.
  unfold verdict, resolved, isfile, getsize. rewrite Hp.
  destruct (d !! _) as [[c|w]|]; cbn [negb]; try done.
  destruct checkSize; cbn [andb]; [|done].
  by destruct (bool_decide (length c = file_size f)).
Qed.

(** The scan reads the disk through [isfile] and [getsize] only. *)
Lemma scan_shape (a : assetstore) (d d' : fs) (checkSize : bool) (cursor : list file) :
  (∀ p, isfile d' p = isfile d p ∧ getsize d' p = getsize d p) →
  scan a d' checkSize cursor = scan a d checkSize cursor.
Proof.
  intros Hshape. induction cursor as [|f cursor IH]; [done|].
  cbn [scan]. rewrite !fullPath_resolved, IH.
  destruct (resolved a f) as [p|]; [|done].
  destruct (Hshape p) as [-> ->]. done.
Qed.

(** C5, scan completeness.  Over the records the query selects, the scan
    reports as missing exactly those whose resolved path is no regular
    file, and as size mismatches, when [checkSize] holds and only then,
    exactly those whose file is there with another length than the record
    declares; it reports nothing else, and it depends on the disk only
    through existence and length, never through the bytes. *)
Theorem scan_completeness (a : assetstore) (st : store) (d : fs)
    (filters : option query) (checkSize : bool) :
  Forall (λ f, is_Some (file_path f)) (scan_cursor a st filters) →
  ∃ findings, findInvalidFiles a st d filters checkSize = (findings, None)
    ∧ (∀ f p, {| reason := "missing"; finding_file := f; finding_path := p |} ∈ findings
         ↔ f ∈ scan_cursor a st filters ∧ resolved a f = Some p ∧ isfile d p = false)
    ∧ (∀ f p, {| reason := "size"; finding_file := f; finding_path := p |} ∈ findings
         ↔ checkSize = true ∧ f ∈ scan_cursor a st filters ∧ resolved a f = Some p
           ∧ ∃ c, d !! p = Some (File c) ∧ length c ≠ file_size f)
    ∧ (∀ x, x ∈ findings → reason x = "missing" ∨ reason x = "size")
    ∧ (∀ d' : fs, (∀ p, isfile d' p = isfile d p ∧ getsize d' p = getsize d p) →
         findInvalidFiles a st d' filters checkSize
         = findInvalidFiles a st d filters checkSize)
    ∧ (filters = None →
       ∀ f, f ∈ scan_cursor a st filters
            ↔ f ∈ files st ∧ file_assetstoreId f = assetstore_id a).
Proof.
  intros Hpaths.
  exists (omap (verdict a d checkSize) (scan_cursor a st filters)).
  assert (∀ x, x ∈ omap (verdict a d checkSize) (scan_cursor a st filters) ↔
            ∃ f, f ∈ scan_cursor a st filters ∧ verdict a d checkSize f = Some x)
    as Hin by (intros x; apply list_elem_of_omap).
  split; [|split; [|split; [|split; [|split]]]].
  - unfold findInvalidFiles. by apply scan_verdicts.
  - intros f p. rewrite Hin. unfold verdict, isfile. split.
    + intros (g & Hg & Hv).
      destruct (resolved a g) as [q|] eqn:Hq; [|done].
      destruct (d !! q) as [[c|w]|] eqn:Hd.
      * by destruct (checkSize && _).
      * injection Hv as -> ->. by rewrite Hd.
      * injection Hv as -> ->. by rewrite Hd.
    + intros (Hf & Hr & Hd). exists f. split; [done|]. rewrite Hr.
      by destruct (d !! p) as [[c|w]|].
  - intros f p. rewrite Hin. unfold verdict. split.
    + intros (g & Hg & Hv).
      destruct (resolved a g) as [q|] eqn:Hq; [|done].
      destruct (d !! q) as [[c|w]|] eqn:Hd; [|done|done].
      destruct checkSize; [|done]. cbn [andb] in Hv.
      destruct (bool_decide (length c = file_size g)) eqn:Hl; [done|].
      injection Hv as -> ->. apply bool_decide_eq_false in Hl. eauto 10.
    + intros (-> & Hf & Hr & c & Hd & Hl). exists f. split; [done|].
      rewrite Hr, Hd. cbn [andb]. by rewrite bool_decide_eq_false_2.
  - intros x. rewrite Hin. unfold verdict. intros (g & _ & Hv).
    destruct (resolved a g) as [q|]; [|done].
    destruct (d !! q) as [[c|w]|]; [| injection Hv as <-; by left..].
    destruct (checkSize && _); [|done]. injection Hv as <-. by right.
  - intros d' Hshape. unfold findInvalidFiles. by apply scan_shape.
  - intros -> f. unfold scan_cursor, find. rewrite list_elem_of_filter.
    unfold matches, field_matches. cbn.
    rewrite !andb_true_r, bool_decide_eq_true. split; intros [H1 H2]; split;
      congruence.
Qed.

Lemma scan_completeness_witness :
  findInvalidFiles demo_root shared_store shared_disk None true
  = ([{| reason := "missing"; finding_file := stored_file 3 "gone" 4 "ef01";
         finding_path := "/data/ef/01/ef01" |}], None)
  ∧ ∀ d' : fs, (∀ p, isfile d' p = isfile shared_disk p
                     ∧ getsize d' p = getsize shared_disk p) →
      findInvalidFiles demo_root shared_store d' None true
      = findInvalidFiles demo_root shared_store shared_disk None true.
Proof.
  destruct (scan_completeness demo_root shared_store shared_disk None true)
    as (findings & Hrun & _ & _ & _ & Hshape & _).
  - vm_compute. repeat constructor; eauto.
  - split; [reflexivity | exact Hshape].
Defined.

(** ** Paths *)

Lemma str_app_nil (y : string) : "" +:+ y = y.
Proof. reflexivity. Qed.

Lemma str_app_cons (c : ascii) (x y : string) :
  String c x +:+ y = String c (x +:+ y).
Proof. reflexivity. Qed.

Ltac app_simpl := rewrite ?str_app_cons, ?str_app_nil in *.

Lemma str_app_assoc (x y z : string) : (x +:+ y) +:+ z = x +:+ (y +:+ z).
Proof. induction x as [|c x IH]; app_simpl; [done | by rewrite IH]. Qed.

Lemma str_app_length (x y : string) :
  String.length (x +:+ y) = String.length x + String.length y.
Proof. induction x as [|c x IH]; app_simpl; simpl; [done | by rewrite IH]. Qed.

Lemma rsplit_slash_app_eq (p : string) :
  fst (rsplit_slash p) +:+ snd (rsplit_slash p) = p.
Proof.
  induction p as [|c p IH]; [done|]. cbn [rsplit_slash].
  destruct (rsplit_slash p) as [h t]. cbn [fst snd] in *.
  destruct h as [|c' h].
  - app_simpl. subst. by destruct (is_slash c).
  - cbn [fst snd]. app_simpl. by rewrite IH.
Qed.

Lemma rstrip_slash_length (p : string) :
  String.length (rstrip_slash p) ≤ String.length p.
Proof.
  induction p as [|c p IH]; simpl; [done|].
  destruct (rstrip_slash p); [destruct (is_slash c)|]; simpl in *; lia.
Qed.

Lemma split_head_length (p : string) :
  String.length (fst (split p)) ≤ String.length p.
Proof.
  unfold split. pose proof (rsplit_slash_app_eq p) as H.
  destruct (rsplit_slash p) as [h t]. cbn [fst snd] in *.
  assert (String.length h ≤ String.length p)
    by (rewrite <- H, str_app_length; lia).
  destruct (_ && _); [|done].
  pose proof (rstrip_slash_length h). lia.
Qed.

Lemma rsplit_no_slash (t : string) :
  no_slash t = true → rsplit_slash t = (EmptyString, t).
Proof.
  induction t as [|c t IH]; [done|]. cbn [no_slash rsplit_slash].
  intros [Hc Ht]%andb_true_iff. rewrite IH by done.
  by destruct (is_slash c).
Qed.

Lemma rsplit_slash_app (y t : string) :
  no_slash t = true → rsplit_slash (y +:+ "/" +:+ t) = (y +:+ "/", t).
Proof.
  intros Ht. induction y as [|c y IH]; app_simpl.
  - cbn [rsplit_slash]. by rewrite (rsplit_no_slash t Ht).
  - cbn [rsplit_slash]. rewrite IH. destruct y; by app_simpl.
Qed.

Lemma all_slashes_app (x y : string) :
  all_slashes (x +:+ y) = all_slashes x && all_slashes y.
Proof.
  induction x as [|c x IH]; app_simpl; cbn [all_slashes]; [done|].
  rewrite IH. apply andb_assoc.
Qed.

(** ** [os.makedirs] *)

Lemma grows_refl (name : string) (d : fs) : grows name d d.
Proof. intros q. by left. Qed.

Lemma grows_trans (n1 n2 name : string) (d1 d2 d3 : fs) :
  String.length n1 ≤ String.length name → String.length n2 ≤ String.length name →
  grows n1 d1 d2 → grows n2 d2 d3 → grows name d1 d3.
Proof.
  intros H1 H2 G1 G2 q.
  destruct (G2 q) as [E2 | (E2 & E2' & L2)]; destruct (G1 q) as [E1 | (E1 & E1' & L1)].
  - left. congruence.
  - right. split; [done|]. split; [congruence | lia].
  - right. split; [congruence|]. split; [done | lia].
  - congruence.
Qed.

Lemma mkdir_grows (p : string) (d d' : fs) (r : exn + unit) :
  mkdir p d = (d', r) →
  grows p d d' ∧ (∀ e, r = inl e → is_OSError e = true)
  ∧ (r = inr () → d' !! p = Some (Dir true)).
Proof.
  unfold mkdir, check_parent. intros H.
  destruct (d !! p) as [n|] eqn:E.
  - injection H as <- <-. split; [apply grows_refl|].
    split; [by intros e [= <-] | done].
  - destruct (d !! parent p) as [[c|[|]]|]; injection H as <- <-.
    + split; [apply grows_refl|]. split; [by intros e [= <-] | done].
    + split; [|split; [done | intros _; apply lookup_insert_eq]].
      intros q. destruct (decide (p = q)) as [<- | Hne].
      * right. rewrite lookup_insert_eq. auto.
      * left. by rewrite lookup_insert_ne.
    + split; [apply grows_refl|]. split; [by intros e [= <-] | done].
    + split; [apply grows_refl|]. split; [by intros e [= <-] | done].
Qed.

Lemma makedirs_fuel_grows (fuel : nat) (name : string) (d d' : fs) (r : exn + unit) :
  makedirs_fuel fuel name d = (d', r) →
  grows name d d' ∧ (∀ e, r = inl e → is_OSError e = true).
Proof.
  revert name d d' r. induction fuel as [|fuel IH]; intros name d d' r H.
  - cbn [makedirs_fuel] in H. apply mkdir_grows in H. tauto.
  - cbn [makedirs_fuel] in H.
    pose proof (split_head_length name) as Hlen.
    destruct (split name) as [h t]. simpl in Hlen.
    assert (∃ h' t', (if bool_decide (t = "") then split h else (h, t)) = (h', t')
                     ∧ String.length h' ≤ String.length name) as (h' & t' & Hs & Hl).
    { destruct (bool_decide (t = "")).
      - pose proof (split_head_length h). destruct (split h) as [h2 t2].
        exists h2, t2. simpl in *. split; [done | lia].
      - by exists h, t. }
    rewrite Hs in H. revert H. run. step.
    destruct (_ && _).
    + destruct (makedirs_fuel fuel h' d) as [d1 r1] eqn:E1.
      apply IH in E1 as [G1 O1].
      assert (∀ d2 r2, (if bool_decide (t' = ".")
                        then λ s : fs, (s, inr ()) else mkdir name) d1 = (d2, r2) →
                grows name d d2 ∧ (∀ e, r2 = inl e → is_OSError e = true)) as Hrest.
      { intros d2 r2 H2. destruct (bool_decide (t' = ".")).
        - injection H2 as <- <-. split; [|done].
          by apply (grows_trans h' h' name d d1 d1); [..| apply grows_refl].
        - apply mkdir_grows in H2 as (G2 & O2 & _). split; [|done].
          by apply (grows_trans h' name name d d1 d2). }
      destruct r1 as [e|[]].
      * destruct (is_EEXIST e); [apply Hrest|].
        intros [= <- <-]. split; [|intros e' [= <-]; by apply O1].
        by apply (grows_trans h' h' name d d1 d1); [..| apply grows_refl].
      * apply Hrest.
    + intros H. apply mkdir_grows in H. tauto.
Qed.

Lemma makedirs_grows (name : string) (d d' : fs) (r : exn + unit) :
  makedirs name d = (d', r) →
  grows name d d' ∧ (∀ e, r = inl e → is_OSError e = true).
Proof. apply makedirs_fuel_grows. Qed.

(** When the last component of [name] is a proper name, a successful
    [makedirs] leaves a directory at [name]. *)
Lemma makedirs_fuel_makes (fuel : nat) (name : string) (d d' : fs) :
  snd (split name) ≠ "" → snd (split name) ≠ "." →
  makedirs_fuel fuel name d = (d', inr ()) → d' !! name = Some (Dir true).
Proof.
  intros Hne Hdot H. destruct fuel as [|fuel]; cbn [makedirs_fuel] in H.
  - by apply mkdir_grows in H as (_ & _ & ->).
  - destruct (split name) as [h t]. simpl in Hne, Hdot.
    rewrite bool_decide_eq_false_2 in H by done.
    revert H. run. step. destruct (_ && _).
    + destruct (makedirs_fuel fuel h d) as [d1 [e|[]]].
      * destruct (is_EEXIST e); [|done].
        rewrite bool_decide_eq_false_2 by done.
        intros H. by apply mkdir_grows in H as (_ & _ & ->).
      * rewrite bool_decide_eq_false_2 by done.
        intros H. by apply mkdir_grows in H as (_ & _ & ->).
    + intros H. by apply mkdir_grows in H as (_ & _ & ->).
Qed.

(** ** [validateInfo] *)

(** C7 as stated fails: the root [/data] is no directory of the disk, and
    [validateInfo] accepts it, having made it. *)
Lemma missing_root_is_created :
  let r := validateInfo demo_env (bare_disk, demo_root) in
  isdir bare_disk (assetstore_root demo_root) = false
  ∧ snd r = inr ()
  ∧ fst (fst r) !! "/data" = Some (Dir true).
Proof. vm_compute. auto. Qed.

(** C7, as the code has it.  The root is first expanded at a leading [~].
    It is refused when it is then not absolute; when it is a directory
    that is not writable; and when it is no directory and [os.makedirs]
    cannot make it.  A root that is no directory but can be made is made,
    and accepted if writable; making it adds writable directories and
    changes nothing else. *)
Theorem validateInfo_cases (env : os_env) (d : fs) (doc : assetstore) :
  let root := expanduser env (assetstore_root doc) in
  let doc' := set_root doc root in
  validateInfo env (d, doc)
  = (if negb (isabs root) then ((d, doc'), inl (ValidationException NotAbsolute))
     else if isdir d root then
       if access_W_OK d root then ((d, doc'), inr ())
       else ((d, doc'), inl (ValidationException (NotWritable root)))
     else
       match makedirs root d with
       | (d', inl _) => ((d', doc'), inl (ValidationException (CannotMakeDirectory root)))
       | (d', inr _) =>
           if access_W_OK d' root then ((d', doc'), inr ())
           else ((d', doc'), inl (ValidationException (NotWritable root)))
       end)
  ∧ (∀ d' r, makedirs root d = (d', r) → grows root d d').
Proof.
  intros root doc'. split.
  - unfold validateInfo. run. step. fold root. fold doc'.
    change (assetstore_root doc') with root.
    destruct (isabs root); cbn [negb]; step; [|done].
    destruct (isdir d root); cbn [negb]; step.
    + by destruct (access_W_OK d root).
    + destruct (makedirs root d) as [d' [e|[]]] eqn:E; step.
      * apply makedirs_grows in E as [_ O]. rewrite (O e eq_refl). reflexivity.
      * destruct (access_W_OK d' root); reflexivity.
  - intros d' r H. by apply makedirs_grows in H as [G _].
Qed.

(** ** [finalizeUpload] *)

Lemma hex_digit_no_slash (c : ascii) : is_hex_digit c = true → is_slash c = false.
Proof.
  intros H. unfold is_slash. apply bool_decide_eq_false_2. intros ->.
  vm_compute in H. discriminate.
Qed.

Lemma all_hex_no_slash (s : string) : all_hex s = true → no_slash s = true.
Proof.
  induction s as [|c s IH]; [done|]. cbn [all_hex no_slash].
  intros [Hc Hs]%andb_true_iff. by rewrite (hex_digit_no_slash c Hc), IH.
Qed.

Lemma join_relative (a x : string) :
  startswith_slash x = false → join a x = join_prefix a +:+ x.
Proof.
  intros Hx. unfold join, join_prefix. rewrite Hx.
  destruct (_ || _); [done|]. by rewrite str_app_assoc.
Qed.

Section Shard.
Variables (c0 c1 c2 c3 : ascii) (rest : string).
Hypothesis H0 : is_slash c0 = false.
Hypothesis H1 : is_slash c1 = false.
Hypothesis H2 : is_slash c2 = false.
Hypothesis H3 : is_slash c3 = false.
Hypothesis Hrest : no_slash rest = true.

Let hash := String c0 (String c1 (String c2 (String c3 rest))).
Let h02 := String c0 (String c1 EmptyString).
Let h24 := String c2 (String c3 EmptyString).

Lemma shard_slices : substring 0 2 hash = h02 ∧ substring 2 2 hash = h24.
Proof.
  unfold hash, h02, h24. cbn [substring]. by destruct rest.
Qed.

Lemma shard_dir : join (substring 0 2 hash) (substring 2 2 hash) = h02 +:+ "/" +:+ h24.
Proof.
  destruct shard_slices as [-> ->].
  unfold join, h02, h24. cbn [startswith_slash endswith_slash].
  rewrite H2, H1. by rewrite bool_decide_eq_false_2.
Qed.

Lemma shard_path :
  join (join (substring 0 2 hash) (substring 2 2 hash)) hash
  = h02 +:+ "/" +:+ h24 +:+ "/" +:+ hash.
Proof.
  rewrite shard_dir. unfold join, h02, h24, hash. app_simpl.
  cbn [startswith_slash endswith_slash].
  rewrite H0, H3. by rewrite bool_decide_eq_false_2.
Qed.

Lemma shard_abspath (root : string) :
  join root (join (join (substring 0 2 hash) (substring 2 2 hash)) hash)
  = join root (join (substring 0 2 hash) (substring 2 2 hash)) +:+ "/" +:+ hash.
Proof.
  rewrite shard_path, shard_dir.
  rewrite !join_relative by (unfold h02; cbn [startswith_slash]; by app_simpl).
  unfold h02, h24. app_simpl. by rewrite !str_app_assoc.
Qed.

Lemma shard_absdir_tail (root : string) :
  snd (split (join root (join (substring 0 2 hash) (substring 2 2 hash)))) = h24.
Proof.
  rewrite shard_dir, join_relative by (unfold h02; cbn [startswith_slash]; by app_simpl).
  replace (join_prefix root +:+ h02 +:+ "/" +:+ h24)
    with ((join_prefix root +:+ h02) +:+ "/" +:+ h24)
    by (by rewrite !str_app_assoc).
  unfold split. rewrite rsplit_slash_app; [done|].
  unfold h24. cbn [no_slash]. by rewrite H2, H3.
Qed.
End Shard.

Section Finalize.
Context {D : Digest} {L : DigestLaws D}.

Lemma hex_shape (h : digest_state) :
  ∃ c0 c1 c2 c3 rest,
    hexdigest h = String c0 (String c1 (String c2 (String c3 rest)))
    ∧ is_slash c0 = false ∧ is_slash c1 = false ∧ is_slash c2 = false
    ∧ is_slash c3 = false ∧ no_slash rest = true.
Proof.
  pose proof (hexdigest_length h) as Hlen. pose proof (hexdigest_hex h) as Hhex.
  destruct (hexdigest h) as [|c0 [|c1 [|c2 [|c3 rest]]]]; try discriminate Hlen.
  cbn [all_hex] in Hhex.
  apply andb_true_iff in Hhex as [X0 Hhex]. apply andb_true_iff in Hhex as [X1 Hhex].
  apply andb_true_iff in Hhex as [X2 Hhex]. apply andb_true_iff in Hhex as [X3 Hhex].
  exists c0, c1, c2, c3, rest.
  auto 10 using hex_digit_no_slash, all_hex_no_slash.
Qed.

(** [finalizeUpload] with its exceptions sorted out: the shard directory
    is made when missing, the scratch file is removed when the canonical
    path is taken and moved there otherwise; the record is written last. *)
Lemma finalizeUpload_run (a : assetstore) (u : upload) (d : fs) (f : file)
    (h : digest_state) :
  restoreHex (upload_sha512state u) = Some h →
  let hash := hexdigest h in
  let dir := join (substring 0 2 hash) (substring 2 2 hash) in
  let absdir := join (assetstore_root a) dir in
  let path := join dir hash in
  let abspath := join (assetstore_root a) path in
  finalizeUpload a u (d, f)
  = match (if exists_ d absdir then (d, inr ()) else makedirs absdir d) with
    | (dm, inl e) => ((dm, f), inl e)
    | (dm, inr _) =>
        match (if exists_ dm abspath then remove (upload_tempFile u) dm
               else move (upload_tempFile u) abspath dm) with
        | (d1, inl e) => ((d1, f), inl e)
        | (d1, inr _) => ((d1, set_sha512_path f hash path), inr ())
        end
    end.
Proof.
  intros Hh hash dir absdir path abspath.
  unfold finalizeUpload. run. rewrite Hh. step.
  fold hash. fold dir. fold absdir. fold path. fold abspath.
  destruct (exists_ d absdir); cbn [negb]; step.
  - destruct (exists_ d abspath); step.
    + by destruct (remove (upload_tempFile u) d) as [d1 [e|[]]].
    + destruct (move (upload_tempFile u) abspath d) as [d1 [e|[]]]; step; [done|].
      unfold chmod. by destruct (exists_ d1 abspath).
  - destruct (makedirs absdir d) as [dm [e|[]]]; step; [done|].
    destruct (exists_ dm abspath); step.
    + by destruct (remove (upload_tempFile u) dm) as [d1 [e|[]]].
    + destruct (move (upload_tempFile u) abspath dm) as [d1 [e|[]]]; step; [done|].
      unfold chmod. by destruct (exists_ d1 abspath).
Qed.
End Finalize.

Lemma isfile_delete (d : fs) (t p : string) :
  isfile (delete t d) p = negb (bool_decide (p = t)) && isfile d p.
Proof.
  unfold isfile. case_bool_decide as E.
  - subst. by rewrite lookup_delete_eq.
  - by rewrite lookup_delete_ne.
Qed.

Lemma isfile_insert_file (d : fs) (q p : string) (c : bytes) :
  isfile (<[q := File c]> d) p = bool_decide (p = q) || isfile d p.
Proof.
  unfold isfile. case_bool_decide as E.
  - subst. by rewrite lookup_insert_eq.
  - by rewrite lookup_insert_ne.
Qed.

Lemma grows_isfile (name : string) (d d' : fs) (p : string) :
  grows name d d' → isfile d' p = isfile d p.
Proof.
  intros G. unfold isfile. destruct (G p) as [-> | (-> & -> & _)]; done.
Qed.

Lemma grows_keeps (name : string) (d d' : fs) (p : string) (n : node) :
  grows name d d' → d !! p = Some n → d' !! p = Some n.
Proof. intros G H. destruct (G p) as [-> | (E & _)]; congruence. Qed.

Lemma grows_longer (name : string) (d d' : fs) (p : string) :
  grows name d d' → String.length name < String.length p → d' !! p = d !! p.
Proof. intros G H. destruct (G p) as [-> | (_ & _ & Hl)]; [done | lia]. Qed.

Lemma endswith_slash_app (x y : string) :
  y ≠ "" → endswith_slash (x +:+ y) = endswith_slash y.
Proof.
  intros Hy. induction x as [|c x IH]; app_simpl; [done|].
  cbn [endswith_slash]. rewrite IH.
  destruct (x +:+ y) eqn:E; [|done].
  destruct x, y; app_simpl; done.
Qed.

(** A scratch file is [temp/name] under the root; a shard directory and a
    canonical path are not. *)
Lemma scratch_form (a : assetstore) (p : string) :
  scratch_path a p →
  ∃ name, p = join_prefix (assetstore_root a) +:+ "temp/" +:+ name.
Proof.
  intros (name & Hne & Hns & ->). exists name. unfold tempDir.
  assert (startswith_slash name = false) as Hs.
  { destruct name as [|c name]; [done|]. cbn [no_slash startswith_slash] in *.
    apply andb_true_iff in Hns as [Hc _]. by destruct (is_slash c). }
  rewrite (join_relative _ name Hs), (join_relative _ "temp") by done.
  unfold join_prefix at 1.
  rewrite endswith_slash_app by done. cbn [endswith_slash is_slash].
  rewrite bool_decide_eq_false_2
    by (destruct (join_prefix (assetstore_root a)); app_simpl; done).
  change (is_slash "p") with false.
  cbn [orb]. rewrite !str_app_assoc. by app_simpl.
Qed.

Section FinalizeClaims.
Context {D : Digest} {L : DigestLaws D}.

(** C1, deduplication.  Two uploads of the same bytes, finalized one
    after the other: both records carry the digest of the bytes and the
    path [hash[0:2]/hash[2:4]/hash]; the second finalize succeeds, only
    deletes its scratch file and leaves what is at the canonical path as
    it found it; afterwards a regular file is at the canonical path,
    holding the uploaded bytes when nothing was there before, both
    scratch files are gone, and no other file has appeared or gone. *)
Theorem finalize_dedup (a : assetstore) (u1 u2 : upload) (f1 f2 r1 : file)
    (content : bytes) (d d1 : fs) :
  let hash := hexdigest (sha512_update sha512 content) in
  let path := substring 0 2 hash +:+ "/" +:+ substring 2 2 hash +:+ "/" +:+ hash in
  let abspath := join (assetstore_root a) path in
  upload_sha512state u1 = serializeHex (sha512_update sha512 content) →
  upload_sha512state u2 = serializeHex (sha512_update sha512 content) →
  scratch_path a (upload_tempFile u1) →
  scratch_path a (upload_tempFile u2) →
  upload_tempFile u1 ≠ upload_tempFile u2 →
  d !! upload_tempFile u1 = Some (File content) →
  d !! upload_tempFile u2 = Some (File content) →
  isdir d abspath = false →
  finalizeUpload a u1 (d, f1) = ((d1, r1), inr ()) →
  ∃ d2 r2,
    finalizeUpload a u2 (d1, f2) = ((d2, r2), inr ())
    ∧ file_sha512 r1 = Some hash ∧ file_sha512 r2 = Some hash
    ∧ file_path r1 = Some path ∧ file_path r2 = Some path
    ∧ d2 = delete (upload_tempFile u2) d1
    ∧ d2 !! abspath = d1 !! abspath
    ∧ (∃ c, d2 !! abspath = Some (File c) ∧ (d !! abspath = None → c = content))
    ∧ (∀ p, isfile d2 p = true
            ↔ p = abspath
              ∨ (isfile d p = true ∧ p ≠ upload_tempFile u1 ∧ p ≠ upload_tempFile u2)).
Proof.
  intros hash path abspath Hs1 Hs2 Hsc1 Hsc2 Hne Ht1 Ht2 Hnd Hrun.
  set (h := sha512_update sha512 content) in *.
  assert (restoreHex (upload_sha512state u1) = Some h) as Hr1
    by (rewrite Hs1; apply restore_serialize).
  assert (restoreHex (upload_sha512state u2) = Some h) as Hr2
    by (rewrite Hs2; apply restore_serialize).
  destruct (hex_shape h) as (c0 & c1 & c2 & c3 & rest & Hhash & X0 & X1 & X2 & X3 & Xr).
  set (dir := join (substring 0 2 hash) (substring 2 2 hash)).
  set (absdir := join (assetstore_root a) dir).
  assert (join dir hash = path) as Hpath.
  { unfold dir, path, hash. rewrite Hhash.
    rewrite (shard_path c0 c1 c2 c3 rest) by assumption.
    by destruct (shard_slices c0 c1 c2 c3 rest) as [-> ->]. }
  assert (abspath = absdir +:+ "/" +:+ hash) as Habs.
  { unfold abspath, absdir, dir. rewrite <- Hpath. unfold dir, hash. rewrite Hhash.
    by apply shard_abspath. }
  assert (String.length absdir < String.length abspath) as Hlonger
    by (rewrite Habs, !str_app_length; cbn [String.length]; lia).
  assert (absdir = join_prefix (assetstore_root a)
                   +:+ String c0 (String c1 (String "/" (String c2 (String c3 "")))))
    as Hdirform.
  { unfold absdir, dir, hash. rewrite Hhash.
    rewrite (shard_dir c0 c1 c2 c3 rest) by assumption.
    by rewrite join_relative by (cbn [startswith_slash]; by app_simpl). }
  assert (∀ t, scratch_path a t → t ≠ absdir ∧ t ≠ abspath) as Hscratch.
  { intros t [name ->]%scratch_form. rewrite Habs, Hdirform, !str_app_assoc.
    split; intros E%(inj (String.append _)); app_simpl; by injection E. }
  destruct (Hscratch _ Hsc1) as [Hd1 Ha1]. destruct (Hscratch _ Hsc2) as [Hd2 Ha2].
  assert (abspath ≠ absdir) as Hneq by (intros E; rewrite E in Hlonger; lia).
  assert (snd (split absdir) ≠ "" ∧ snd (split absdir) ≠ ".") as [Htl1 Htl2].
  { unfold absdir, dir, hash. rewrite Hhash.
    rewrite (shard_absdir_tail c0 c1 c2 c3 rest) by assumption.
    split; [done|]. intros [= -> ?]. }
  (* the first finalize *)
  rewrite (finalizeUpload_run a u1 d f1 h Hr1) in Hrun.
  fold hash in Hrun. fold dir in Hrun. fold absdir in Hrun.
  rewrite Hpath in Hrun. fold abspath in Hrun.
  assert (∃ dm, grows absdir d dm ∧ exists_ dm absdir = true
                ∧ match (if exists_ dm abspath then remove (upload_tempFile u1) dm
                         else move (upload_tempFile u1) abspath dm) with
                  | (d1', inl e) => ((d1', f1), inl e)
                  | (d1', inr _) => ((d1', set_sha512_path f1 hash path), inr ())
                  end = ((d1, r1), inr ())) as (dm & G & Edir & Hrun').
  { destruct (exists_ d absdir) eqn:E.
    - exists d. split; [apply grows_refl | done].
    - destruct (makedirs absdir d) as [dm [e|[]]] eqn:Em; [done|].
      exists dm. split; [by apply makedirs_grows in Em as [? _]|]. split; [|done].
      unfold exists_. apply bool_decide_eq_true_2.
      by rewrite (makedirs_fuel_makes _ _ _ _ Htl1 Htl2 Em). }
  clear Hrun.
  pose proof (grows_keeps _ _ _ _ _ G Ht1) as Hm1.
  pose proof (grows_keeps _ _ _ _ _ G Ht2) as Hm2.
  pose proof (grows_longer _ _ _ abspath G Hlonger) as Hmabs.
  assert (is_Some (dm !! absdir)) as Hmdir
    by (by apply bool_decide_eq_true in Edir).
  assert (r1 = set_sha512_path f1 hash path
          ∧ (∃ c, d1 !! abspath = Some (File c) ∧ (d !! abspath = None → c = content))
          ∧ is_Some (d1 !! absdir)
          ∧ d1 !! upload_tempFile u2 = Some (File content)
          ∧ (∀ p, isfile d1 p
                  = bool_decide (p = abspath)
                    || negb (bool_decide (p = upload_tempFile u1)) && isfile d p))
    as (-> & (c & Hc & Hcc) & Hdir1 & Ht21 & Hfiles).
  { destruct (exists_ dm abspath) eqn:Eabs.
    - unfold remove in Hrun'. rewrite Hm1 in Hrun'. injection Hrun' as <- <-.
      apply bool_decide_eq_true in Eabs. rewrite Hmabs in Eabs.
      destruct Eabs as [n Hn].
      assert (∃ c, n = File c) as [c ->].
      { unfold isdir in Hnd. rewrite Hn in Hnd. destruct n; [eauto | done]. }
      split; [done|]. split; [|split; [|split]].
      + exists c. rewrite lookup_delete_ne by done. rewrite Hmabs, Hn.
        split; [done | congruence].
      + by rewrite lookup_delete_ne.
      + by rewrite lookup_delete_ne.
      + intros p. rewrite isfile_delete, (grows_isfile _ _ _ p G).
        destruct (decide (p = abspath)) as [-> | Ep].
        * rewrite (bool_decide_eq_true_2 (abspath = abspath)) by done.
          rewrite bool_decide_eq_false_2 by done.
          unfold isfile. by rewrite Hn.
        * by rewrite (bool_decide_eq_false_2 (p = abspath)).
    - unfold move in Hrun'. rewrite Hm1 in Hrun'.
      apply bool_decide_eq_false in Eabs.
      assert (dm !! abspath = None) as Hnone
        by (destruct (dm !! abspath); [by destruct Eabs | done]).
      rewrite Hnone in Hrun'.
      destruct (check_parent dm abspath) as [e|[]]; [done|].
      injection Hrun' as <- <-.
      split; [done|]. split; [|split; [|split]].
      + exists content. by rewrite lookup_insert_eq.
      + rewrite lookup_insert_ne, lookup_delete_ne by done. done.
      + rewrite lookup_insert_ne, lookup_delete_ne by done. done.
      + intros p. rewrite isfile_insert_file, isfile_delete.
        by rewrite (grows_isfile _ _ _ p G). }
  (* the second finalize *)
  exists (delete (upload_tempFile u2) d1), (set_sha512_path f2 hash path).
  split; [|split; [done|split; [done|split; [done|split; [done|split; [done|]]]]]].
  - rewrite (finalizeUpload_run a u2 d1 f2 h Hr2).
    fold hash. fold dir. fold absdir. rewrite Hpath. fold abspath.
    unfold exists_ at 1. rewrite bool_decide_eq_true_2 by done.
    unfold exists_. rewrite bool_decide_eq_true_2 by (by rewrite Hc).
    unfold remove. by rewrite Ht21.
  - split; [by rewrite lookup_delete_ne|]. split.
    + exists c. by rewrite lookup_delete_ne.
    + intros p. rewrite isfile_delete, Hfiles.
      destruct (decide (p = upload_tempFile u2)) as [E2|E2],
               (decide (p = abspath)) as [Ea|Ea],
               (decide (p = upload_tempFile u1)) as [E1|E1];
        rewrite ?(bool_decide_eq_true_2 _ E2), ?(bool_decide_eq_false_2 _ E2),
          ?(bool_decide_eq_true_2 _ Ea), ?(bool_decide_eq_false_2 _ Ea),
          ?(bool_decide_eq_true_2 _ E1), ?(bool_decide_eq_false_2 _ E1);
        destruct (isfile d p); cbn [negb andb orb];
        intuition congruence.
Qed.
End FinalizeClaims.

Lemma finalize_dedup_witness :
  ∃ d1 r1 d2 r2,
    finalizeUpload (D := demo_digest) demo_root (twin_upload "/data/temp/tmpA")
      (twin_disk, fresh_file 1 "a.txt") = ((d1, r1), inr ())
    ∧ finalizeUpload (D := demo_digest) demo_root (twin_upload "/data/temp/tmpB")
        (d1, fresh_file 2 "b.txt") = ((d2, r2), inr ())
    ∧ file_sha512 r2 = file_sha512 r1
    ∧ file_path r2 = file_path r1
    ∧ d2 = delete "/data/temp/tmpB" d1.
Proof.
  set (first := finalizeUpload (D := demo_digest) demo_root
                  (twin_upload "/data/temp/tmpA") (twin_disk, fresh_file 1 "a.txt")).
  assert (snd first = inr ()) as Hok by (vm_compute; reflexivity).
  assert (first = ((fst (fst first), snd (fst first)), inr ())) as E.
  { rewrite (surjective_pairing first) at 1.
    rewrite (surjective_pairing (fst first)) at 1. by rewrite Hok. }
  destruct (finalize_dedup (D := demo_digest) (L := demo_laws) demo_root
              (twin_upload "/data/temp/tmpA") (twin_upload "/data/temp/tmpB")
              (fresh_file 1 "a.txt") (fresh_file 2 "b.txt") (snd (fst first))
              (b "hello") twin_disk (fst (fst first)))
    as (d2 & r2 & Hrun & Hs1 & Hs2 & Hp1 & Hp2 & Hd2 & _).
  - reflexivity.
  - reflexivity.
  - exists "tmpA". split; [discriminate | split; reflexivity].
  - exists "tmpB". split; [discriminate | split; reflexivity].
  - discriminate.
  - reflexivity.
  - reflexivity.
  - vm_compute. reflexivity.
  - exact E.
  - exists (fst (fst first)), (snd (fst first)), d2, r2.
    split; [exact E|]. split; [exact Hrun|].
    split; [by rewrite Hs1, Hs2|]. split; [by rewrite Hp1, Hp2 | exact Hd2].
Defined.

(** ** [importFile] and [importData] *)





Lemma createFile_spec (name : string) (creator : N) (it : item) (a : assetstore)
    (mimeType : option string) (size : nat) (st : store) :
  ∃ st' f, createFile name creator it a mimeType size st = (st', inr f)
    ∧ files st' = files st ∧ file_size f = size ∧ file_name f = name.
Proof.
  unfold createFile. destruct (list_find _ _) as [[? ?]|]; eauto 10.
Qed.

Lemma save_spec (f : file) (st : store) :
  ∃ st', save f st = (st', inr f) ∧ f ∈ files st'
    ∧ ∀ g, g ∈ files st' → g = f ∨ g ∈ files st.
Proof.
  unfold save. eexists. split; [done|]. cbn [files set_files].
  case_bool_decide as E.
  - split.
    + apply Exists_exists in E as (g & Hg & Hid).
      apply list_elem_of_fmap. exists g. by rewrite bool_decide_eq_true_2.
    + intros g (g' & -> & Hg')%list_elem_of_fmap.
      case_bool_decide; auto.
  - split; [apply elem_of_app; right; by apply list_elem_of_singleton|].
    intros g [Hg | ->%list_elem_of_singleton]%elem_of_app; auto.
Qed.

Lemma importFile_spec (env : os_env) (mtimes : string → Z) (d : fs) (a : assetstore)
    (it : item) (path : string) (user : N) (name mimeType : option string)
    (st : store) (s : stat_result) :
  os_stat mtimes d path = inr s →
  ∃ st' f, importFile env mtimes d a it path user name mimeType st = (st', inr f)
    ∧ file_imported f = Some true
    ∧ file_path f = Some (abspath env (expanduser env path))
    ∧ file_size f = st_size s ∧ file_mtime f = Some (st_mtime s)
    ∧ f ∈ files st'
    ∧ ∀ g, g ∈ files st' → g = f ∨ g ∈ files st.
Proof.
  intros Hs. unfold importFile. run. rewrite Hs. step.
  set (n := match name with Some n0 => _ | None => _ end).
  destruct (createFile_spec n user it a mimeType (st_size s) st)
    as (st1 & f & -> & Hf & Hsz & _). step.
  destruct (save_spec (set_imported f (abspath env (expanduser env path)) (st_mtime s)) st1)
    as (st2 & -> & Hin & Hold).
  eexists _, _. split; [done|]. rewrite <- Hf. auto 10.
Qed.

(** ** [importData]: every file of the tree gets its record *)


Lemma listdir_inv (d : fs) (p name : string) :
  name ∈ listdir d p →
  ∃ k, is_Some (d !! k) ∧ name = basename k ∧ name ≠ "" ∧ join p name = k.
Proof.
  unfold listdir. intros (k & Hk & Hsel)%list_elem_of_omap.
  apply list_elem_of_fmap in Hk as ([k' v] & -> & Hkv).
  apply elem_of_map_to_list in Hkv. cbn [fst] in *.
  destruct (negb _ && bool_decide (join p (basename k') = k') && _) eqn:Hc; [|done].
  injection Hsel as <-.
  apply andb_true_iff in Hc as [Hc _]. apply andb_true_iff in Hc as [Hn Hc].
  apply negb_true_iff, bool_decide_eq_false in Hn.
  apply bool_decide_eq_true in Hc. exists k'. split; [by eexists | done].
Qed.












Lemma inside_region (st : store) (P X : N) :
  inside st P X → region st P "folder" X.
Proof.
  induction 1 as [|fo Hfo Ht Hin IH]; [by left|]. right.
  destruct IH as [[_ E] | (fo' & Hfo' & HP & HT & Hin')].
  - exists fo. split; [done|]. split; [done|]. split; [done | constructor].
  - exists fo'. split; [done|]. split; [done|]. split; [done|].
    by apply inside_child.
Qed.






Section ImportTree.
Variables (env : os_env) (mtimes : string → Z) (d : fs) (a : assetstore) (user : N).




End ImportTree.

(** ** [importData] returns

    On a disk of the model every listed entry can be read, so that an
    import into a folder fails for want of recursion depth only. *)

Lemma longest_bound (d : fs) (k : string) :
  is_Some (d !! k) → String.length k ≤ longest d.
Proof.
  intros [v Hv]. apply max_list_elem_of_le, list_elem_of_fmap. exists k.
  split; [done|]. apply list_elem_of_fmap. exists (k, v).
  split; [done | by apply elem_of_map_to_list].
Qed.

Lemma basename_no_slash (p : string) : startswith_slash (basename p) = false.
Proof.
  unfold basename. induction p as [|c r IH]; [done|]. cbn [rsplit_slash].
  destruct (rsplit_slash r) as [h t]. cbn [snd] in *.
  destruct h; [|done]. destruct (is_slash c) eqn:Hc; [done|].
  cbn [snd startswith_slash]. done.
Qed.

Lemma listdir_longer (d : fs) (dir n : string) :
  n ∈ listdir d dir → String.length dir < String.length (join dir n).
Proof.
  intros (k & _ & -> & Hne & _)%listdir_inv. unfold join.
  rewrite basename_no_slash.
  assert (0 < String.length (basename k)) by (destruct (basename k); [done | cbn; lia]).
  destruct (_ || _); rewrite !str_app_length; lia.
Qed.

Lemma for_each_returns {S A} (l : list A) (body : A → M S unit) :
  (∀ x s, x ∈ l → ∃ s', body x s = (s', inr ())) →
  ∀ s, ∃ s', for_each l body s = (s', inr ()).
Proof.
  induction l as [|x l IH]; intros Hbody s; [by eexists|].
  cbn [for_each]. run. destruct (Hbody x s) as [s1 ->]; [by left|].
  apply IH. intros y s0 Hy. apply Hbody. by right.
Qed.


Section ImportReturns.
Variables (env : os_env) (mtimes : string → Z) (d : fs) (a : assetstore) (user : N).

Lemma importData_returns (fuel : nat) (P : N) (T dir : string) (st : store) :
  listing_ok env → isdir d dir = true →
  T = "folder" ∨ (∀ n, n ∈ listdir d dir → isdir d (join dir n) = true) →
  longest d < fuel + String.length dir →
  ∃ st', importData fuel env mtimes d a P T dir user st = (st', inr ()).
Proof.
  intros Hl. revert P T dir st.
  induction fuel as [|fuel IH]; intros P T dir st Hdir HT Hfuel.
  { assert (String.length dir ≤ longest d); [|lia].
    apply longest_bound. unfold isdir in Hdir. destruct (d !! dir); [by eexists | done]. }
  cbn [importData]. rewrite Hdir. cbn [negb].
  apply for_each_returns. intros n s Hn. rewrite (Hl _) in Hn.
  pose proof (listdir_longer d dir n Hn) as Hlen.
  destruct (isdir d (join dir n)) eqn:Hdn.
  - run. unfold createFolder.
    destruct (list_find _ _) as [[i fo]|]; step;
      (apply IH; [done | by left | lia]).
  - destruct HT as [-> | Hall]; [|by rewrite (Hall n Hn) in Hdn].
    run. rewrite bool_decide_eq_true_2 by done. cbn [negb]. step.
    apply listdir_inv in Hn as (k & [v Hk] & _ & _ & Hj).
    assert (∃ s0, os_stat mtimes d (join dir n) = inr s0) as [s0 Hs].
    { unfold os_stat. rewrite Hj, Hk. destruct v; by eexists. }
    unfold createItem. destruct (list_find _ _) as [[i it]|]; step;
      match goal with
      | |- context [importFile env mtimes d a ?it ?p user ?nm None ?s1] =>
          destruct (importFile_spec env mtimes d a it p user nm None s1 s0 Hs)
            as (s2 & f & -> & _)
      end; step; by eexists.
Qed.

End ImportReturns.



(** The tree of section 8: [a/b.txt] and [a/c/] become a folder [a], an item
    and an imported record for [b.txt], and a nested folder [c]. *)
Example import_tree :
  let r := importData 5 demo_env import_mtimes import_disk demo_root 10 "folder"
             "/srv" 1 (store_of []) in
  snd r = inr ()
  ∧ map folder_name (folders (fst r)) = ["a"; "c"]
  ∧ map (λ f, (file_name f, file_path f, file_imported f, file_size f)) (files (fst r))
    = [("b.txt", Some "/srv/a/b.txt", Some true, 5)].
Proof. vm_compute. auto. Qed.

(** * More of the adapter *)

(** ** Sequences of chunks *)

Section UploadMore.
Context {D : Digest} {L : DigestLaws D}.

Lemma uploadChunk_consistent (d : fs) (u : upload) (c : chunk) (data F : bytes) :
  chunk_bytes c = Some data →
  consistent d u F →
  upload_received u + length data ≤ upload_size u →
  ∃ u', uploadChunk c (d, u)
        = ((<[upload_tempFile u := File (F ++ data)]> d, u'), inr ())
    ∧ consistent (<[upload_tempFile u := File (F ++ data)]> d) u' (F ++ data)
    ∧ upload_tempFile u' = upload_tempFile u
    ∧ upload_size u' = upload_size u
    ∧ upload_received u' = upload_received u + length data.
Proof.
  intros Hc (HF & Hlen & Hh) Hfit.
  eexists. split.
  - apply (uploadChunk_accepts d u c data F _ Hc HF Hh Hfit).
  - rewrite <- Hlen, Nat.ltb_irrefl, update_app.
    repeat split; cbn [set_state_received upload_tempFile upload_sha512state
                       upload_received upload_size].
    + apply lookup_insert_eq.
    + rewrite length_app. lia.
    + apply restore_serialize.
Qed.

(** X1.  Chunks that fit, appended one after the other to a session in
    normal operation, leave it in normal operation: the scratch file holds
    the old bytes followed by all the chunks, as many bytes as are
    recorded, and the digest state is that of exactly these bytes; no other
    path of the disk changes. *)
Theorem uploads_resume (cs : list chunk) (datas : list bytes) (d : fs) (u : upload)
    (F : bytes) :
  Forall2 (λ c data, chunk_bytes c = Some data) cs datas →
  consistent d u F →
  upload_received u + length (concat datas) ≤ upload_size u →
  ∃ d' u', for_each cs uploadChunk (d, u) = ((d', u'), inr ())
    ∧ consistent d' u' (F ++ concat datas)
    ∧ upload_tempFile u' = upload_tempFile u
    ∧ upload_size u' = upload_size u
    ∧ (∀ p, p ≠ upload_tempFile u → d' !! p = d !! p).
Proof.
  intros Hcs. revert d u F.
  induction Hcs as [|c data cs datas Hc _ IH]; intros d u F Hcons Hfit.
  - exists d, u. cbn [concat for_each]. rewrite app_nil_r. auto.
  - cbn [concat] in *. rewrite length_app in Hfit.
    destruct (uploadChunk_consistent d u c data F Hc Hcons)
      as (u1 & Hrun & Hcons1 & Ht & Hs & Hr); [lia|].
    destruct (IH _ u1 (F ++ data) Hcons1) as (d' & u' & Hrest & Hc' & Ht' & Hs' & Hfr);
      [lia|].
    exists d', u'. split; [|split; [|split; [|split]]].
    + cbn [for_each]. run. rewrite Hrun. exact Hrest.
    + by rewrite app_assoc.
    + congruence.
    + congruence.
    + intros p Hp. rewrite Hfr by congruence. by rewrite lookup_insert_ne.
Qed.

(** X2.  [initUpload] on a record that has received nothing starts the
    session in normal operation on an empty scratch file, at a path that
    was free; when [mkstemp] fails, neither the disk nor the record
    changes. *)
Theorem initUpload_starts (mkstemp : string → M fs string) (a : assetstore)
    (d d' : fs) (u u' : upload) (r : exn + unit) :
  mkstemp_law mkstemp →
  upload_received u = 0 →
  initUpload mkstemp a (d, u) = ((d', u'), r) →
  match r with
  | inr _ => d !! upload_tempFile u' = None
             ∧ d' = <[upload_tempFile u' := File []]> d
             ∧ consistent d' u' []
             ∧ upload_size u' = upload_size u
  | inl _ => d' = d ∧ u' = u
  end.
Proof.
  intros Hlaw Hr0. unfold initUpload. run.
  destruct (mkstemp (tempDir a) d) as [d1 [e|p]] eqn:E; apply Hlaw in E.
  - intros [= <- <- <-]. auto.
  - destruct E as [Hfree ->]. step. intros [= <- <- <-].
    cbn [upload_tempFile upload_size]. split; [done|]. split; [done|].
    split; [|done]. repeat split; cbn [upload_tempFile upload_sha512state upload_received].
    + apply lookup_insert_eq.
    + by rewrite Hr0.
    + by rewrite update_nil, restore_serialize.
Qed.

(** X4.  After a crash the record stays behind.  With more bytes on disk
    than recorded, an accepted chunk advances [received] by the chunk only,
    so the scratch file is still longer by the same gap; a second accepted
    chunk then digests the last gap-many bytes of the file once more. *)
Theorem crash_gap_persists (d : fs) (u : upload) (c1 c2 : chunk)
    (d1 d2 F : bytes) (h0 : digest_state) :
  chunk_bytes c1 = Some d1 →
  chunk_bytes c2 = Some d2 →
  d !! upload_tempFile u = Some (File F) →
  upload_received u < length F →
  restoreHex (upload_sha512state u) = Some h0 →
  upload_received u + length d1 + length d2 ≤ upload_size u →
  let again := drop (upload_received u + length d1) (F ++ d1) in
  (uploadChunk c1;; uploadChunk c2) (d, u)
  = ((<[upload_tempFile u := File (F ++ d1 ++ d2)]> d,
      set_state_received u
        (serializeHex
           (sha512_update h0 (drop (upload_received u) F ++ d1 ++ again ++ d2)))
        (upload_received u + length d1 + length d2)),
     inr ())
  ∧ length again = length F - upload_received u
  ∧ length (F ++ d1 ++ d2) - (upload_received u + length d1 + length d2)
    = length F - upload_received u.
Proof.
  intros Hc1 Hc2 HF Hgap Hh Hfit again.
  split; [|split].
  - change ((uploadChunk c1;; uploadChunk c2) (d, u))
      with (match uploadChunk c1 (d, u) with
            | (s', inl e) => (s', inl e)
            | (s', inr _) => uploadChunk c2 s'
            end).
    rewrite (uploadChunk_accepts d u c1 d1 F h0 Hc1 HF Hh) by lia.
    apply Nat.ltb_lt in Hgap as Hgapb. rewrite Hgapb.
    set (h1 := sha512_update (sha512_update h0 (drop (upload_received u) F)) d1).
    rewrite (uploadChunk_accepts _ _ c2 d2 (F ++ d1) h1 Hc2).
    + cbn [set_state_received upload_tempFile upload_sha512state upload_received
           upload_size].
      assert ((upload_received u + length d1 <? length (F ++ d1)) = true) as ->
        by (apply Nat.ltb_lt; rewrite length_app; lia).
      rewrite insert_insert_eq. unfold h1, again.
      by rewrite !update_app, <- !app_assoc.
    + apply lookup_insert_eq.
    + apply restore_serialize.
    + cbn [set_state_received upload_received upload_size]. lia.
  - unfold again. rewrite length_drop, length_app. lia.
  - rewrite !length_app. lia.
Qed.
End UploadMore.

Section UploadFailures.
Context {D : Digest} {L : DigestLaws D}.

Lemma read_all_state {S} (c : chunk) (s s' : S) (r : exn + bytes) :
  read_all c s = (s', r) →
  s' = s ∧ ∀ data, r = inr data → chunk_reads c = Some data.
Proof.
  destruct c as [t|x|x|x e0]; cbn; [destruct (encode_utf8 t)|..];
    intros [= <- <-]; (split; [done|]); by intros ? [= <-].
Qed.

(** X3.  A chunk that is not accepted leaves the session record as it
    was, whatever is raised, the exception of a read that breaks
    included.  The disk is as it was; or the size was found exceeded after
    the write and the scratch file has been cut to exactly [received]
    bytes; or the appending was cut short by an exception and the scratch
    file has gained the bytes appended until then, a prefix of what the
    chunk gives. *)
Theorem uploadChunk_failure (c : chunk) (d d' : fs) (u u' : upload) (e : exn) :
  uploadChunk c (d, u) = ((d', u'), inl e) →
  u' = u
  ∧ (d' = d
     ∨ (e = ValidationException SizeExceeded
        ∧ ∃ content, d' = <[upload_tempFile u := File content]> d
                     ∧ length content = upload_received u)
     ∨ (∃ F data w, d !! upload_tempFile u = Some (File F)
          ∧ chunk_reads c = Some data ∧ w `prefix_of` data
          ∧ d' = <[upload_tempFile u := File (F ++ w)]> d)).
Proof.
  unfold uploadChunk. run. unfold requestOffset, getsize, open_rb, open_ab, close_file.
  destruct (getChunkSize c) as [e0|n]; step; [intros [= <- <- <-]; auto|].
  destruct (checkUploadSize u n) as [e0|[]]; step; [intros [= <- <- <-]; auto|].
  destruct (read_all c (d, u)) as [[d0 u0] [e0|data]] eqn:Er;
    apply read_all_state in Er as [[= -> ->] Hreads];
    [intros [= <- <- <-]; auto|].
  specialize (Hreads data eq_refl). step.
  destruct (restoreHex (upload_sha512state u)) as [h0|]; step;
    [|intros [= <- <- <-]; auto].
  destruct (d !! upload_tempFile u) as [[F|w]|] eqn:HF; step;
    [| |intros [= <- <- <-]; auto].
  - assert (∀ (w : bytes) (s : fs * upload),
              read_raises c u (0 + length w) s = (s, inr ())
              ∨ ∃ e0, read_raises c u (0 + length w) s = (s, inl e0)) as Hend.
    { intros w s. destruct c as [| | |x e0]; cbn [read_raises]; try by left.
      destruct (upload_size u <? _); [by left | right; eauto]. }
    destruct (upload_received u <? length F); step; rewrite ?HF; step;
      match goal with
      | |- context [append_blocks _ _ _ (0, F, ?h)] =>
          destruct (append_blocks_spec (length data) u data F 0 h)
            as (w & Hpre & -> & _); [done|]
      end; step;
      (destruct (Hend w (<[upload_tempFile u := File (F ++ w)]> d, u))
         as [-> | (e0 & ->)]; step;
       [ unfold checkUploadSize;
         (destruct (upload_size u <? upload_received u + (0 + length w)); step;
            [|done]);
         cbn [is_ValidationException]; step; rewrite lookup_insert_eq; step;
         rewrite insert_insert_eq; intros [= <- <- <-]; (split; [done|]);
         right; left; (split; [done|]); eexists; (split; [done|]);
         apply truncate_length
       | intros [= <- <- <-]; (split; [done|]); right; right;
         exists F, data, w; auto ]).
  - assert ((upload_received u <? 0) = false) as -> by (apply Nat.ltb_ge; lia).
    step. rewrite HF. step. intros [= <- <- <-]. auto.
Qed.

(** X5.  What refuses a chunk that fits, and in which order: a text with a
    lone surrogate has no encoding; a digest state that does not restore is
    met before the disk is looked at; a missing scratch file is an
    [OSError].  Nothing changes in any of these. *)
Theorem uploadChunk_refusals (d : fs) (u : upload) :
  (∀ t, encode_utf8 t = None →
     uploadChunk (TextChunk t) (d, u) = ((d, u), inl UnicodeEncodeError))
  ∧ (∀ c data, chunk_bytes c = Some data →
       upload_received u + length data ≤ upload_size u →
       restoreHex (upload_sha512state u) = None →
       uploadChunk c (d, u) = ((d, u), inl CorruptDigestState))
  ∧ (∀ c data, chunk_bytes c = Some data →
       upload_received u + length data ≤ upload_size u →
       is_Some (restoreHex (upload_sha512state u)) →
       d !! upload_tempFile u = None →
       uploadChunk c (d, u) = ((d, u), inl (OSError ENOENT))).
Proof.
  assert (∀ c data, chunk_bytes c = Some data →
            upload_received u + length data ≤ upload_size u →
            ∃ n, getChunkSize c = inr n ∧ checkUploadSize u n = inr ()
                 ∧ read_all c (d, u) = ((d, u), inr data)) as Hhead.
  { intros c data Hc Hfit.
    assert ((upload_size u <? upload_received u + length data) = false) as Hnb
      by (apply Nat.ltb_ge; lia).
    eexists. split; [apply (getChunkSize_bytes c data Hc)|].
    destruct c as [t|x|x|x e0]; cbn in *; rewrite ?Hnb, ?Hc; split; try done;
      by inversion Hc. }
  split; [|split].
  - intros t Ht. unfold uploadChunk. run. cbn [getChunkSize]. by rewrite Ht.
  - intros c data Hc Hfit Hh.
    destruct (Hhead c data Hc Hfit) as (n & Hn & Hck & Hrd).
    unfold uploadChunk. run. rewrite Hn. step. rewrite Hck. step.
    rewrite Hrd. step. by rewrite Hh.
  - intros c data Hc Hfit [h0 Hh] Hnone.
    destruct (Hhead c data Hc Hfit) as (n & Hn & Hck & Hrd).
    unfold uploadChunk. run. rewrite Hn. step. rewrite Hck. step.
    rewrite Hrd. step. rewrite Hh. step. unfold requestOffset, getsize.
    by rewrite Hnone.
Qed.
End UploadFailures.

Lemma triple_eta {A B C} (x : A * B * C) : x = (fst (fst x), snd (fst x), snd x).
Proof. by destruct x as [[? ?] ?]. Qed.

(** The [mkstemp] of the examples keeps the promise of [tempfile.mkstemp]. *)
Lemma mkstemp_of_law (names : list string) : mkstemp_law (mkstemp_of names).
Proof.
  intros dir d d' r. induction names as [|n names IH]; cbn [mkstemp_of].
  - by intros [= <- <-].
  - destruct (d !! join dir n) eqn:E; [exact IH|].
    destruct (check_parent d (join dir n)); by intros [= <- <-].
Qed.

Lemma uploads_resume_witness :
  ∃ d' u',
    for_each [BytesChunk (b "ab"); TextChunk [0x68; 0xE9]%N; FileChunk (b "c")]
      (uploadChunk (D := demo_digest)) (crashed_disk, steady_upload 20)
    = ((d', u'), inr ())
    ∧ consistent (D := demo_digest) d' u'
        (b "hello" ++ concat [b "ab"; [x68; xc3; xa9]; b "c"])
    ∧ upload_tempFile u' = "/data/temp/tmpA"
    ∧ upload_size u' = 20
    ∧ (∀ p, p ≠ "/data/temp/tmpA" → d' !! p = crashed_disk !! p).
Proof.
  apply (uploads_resume (D := demo_digest) (L := demo_laws)
           [BytesChunk (b "ab"); TextChunk [0x68; 0xE9]%N; FileChunk (b "c")]
           [b "ab"; [x68; xc3; xa9]; b "c"]
           crashed_disk (steady_upload 20) (b "hello")).
  - repeat constructor.
  - repeat split.
  - simpl. lia.
Defined.

Lemma initUpload_starts_witness :
  let u := {| upload_tempFile := ""; upload_sha512state := "";
              upload_received := 0; upload_size := 12 |} in
  ∃ d' u',
    initUpload (D := demo_digest) (mkstemp_of ["tmpA"; "tmpB"]) demo_root
      (crashed_disk, u) = ((d', u'), inr ())
    ∧ upload_tempFile u' = "/data/temp/tmpB"
    ∧ crashed_disk !! upload_tempFile u' = None
    ∧ d' = <[upload_tempFile u' := File []]> crashed_disk
    ∧ consistent (D := demo_digest) d' u' []
    ∧ upload_size u' = 12.
Proof.
  intros u.
  set (out := initUpload (D := demo_digest) (mkstemp_of ["tmpA"; "tmpB"]) demo_root
                (crashed_disk, u)).
  assert (snd out = inr ()) as Hr by (vm_compute; reflexivity).
  assert (upload_tempFile (snd (fst out)) = "/data/temp/tmpB") as Hp
    by (vm_compute; reflexivity).
  pose proof (initUpload_starts (D := demo_digest) (L := demo_laws)
                (mkstemp_of ["tmpA"; "tmpB"]) demo_root crashed_disk
                (fst (fst out)) u (snd (fst out)) (snd out)
                (mkstemp_of_law _) eq_refl (triple_eta out)) as H.
  rewrite Hr in H.
  exists (fst (fst out)), (snd (fst out)).
  split; [rewrite <- Hr; apply triple_eta | tauto].
Defined.

Lemma crash_gap_persists_witness :
  (uploadChunk (D := demo_digest) (BytesChunk (b "XY"));;
   uploadChunk (D := demo_digest) (BytesChunk (b "Z")))
    (crashed_disk, crashed_upload 9)
  = ((<["/data/temp/tmpA" := File (b "helloXYZ")]> crashed_disk,
      set_state_received (crashed_upload 9)
        (serializeHex (Digest := demo_digest) (b "helloXYloXYZ")) 4),
     inr ()).
Proof.
  refine (proj1 (crash_gap_persists (D := demo_digest) (L := demo_laws)
                   crashed_disk (crashed_upload 9)
                   (BytesChunk (b "XY")) (BytesChunk (b "Z"))
                   (b "XY") (b "Z") (b "hello") (b "h") _ _ _ _ _ _));
    [reflexivity | reflexivity | reflexivity | simpl; lia | reflexivity | simpl; lia].
Defined.

(** A stream that breaks after two bytes: the record stays, the two
    bytes are on disk. *)
Lemma uploadChunk_failure_witness :
  let c := BrokenChunk (b "XY") (GirderException "stream") in
  ∃ d', uploadChunk (D := demo_digest) c (crashed_disk, steady_upload 20)
        = ((d', steady_upload 20), inl (GirderException "stream"))
      ∧ read_file d' "/data/temp/tmpA" = Some (b "helloXY").
Proof.
  intros c.
  set (out := uploadChunk (D := demo_digest) c (crashed_disk, steady_upload 20)).
  assert (snd out = inl (GirderException "stream")) as Hr
    by (vm_compute; reflexivity).
  destruct (uploadChunk_failure (D := demo_digest) (L := demo_laws) c
              crashed_disk (fst (fst out)) (steady_upload 20) (snd (fst out))
              (GirderException "stream")) as [Hu _].
  { rewrite <- Hr. apply triple_eta. }
  exists (fst (fst out)). split.
  - rewrite <- Hu, <- Hr. apply triple_eta.
  - vm_compute. reflexivity.
Defined.

Lemma uploadChunk_refusals_witness :
  uploadChunk (D := demo_digest) (TextChunk [0x68; 0xD800]%N)
    (crashed_disk, crashed_upload 9)
  = ((crashed_disk, crashed_upload 9), inl UnicodeEncodeError)
  ∧ (let u := {| upload_tempFile := "/data/temp/tmpA"; upload_sha512state := "xyz";
                 upload_received := 1; upload_size := 9 |} in
     uploadChunk (D := demo_digest) (BytesChunk (b "XY")) (bare_disk, u)
     = ((bare_disk, u), inl CorruptDigestState))
  ∧ uploadChunk (D := demo_digest) (BytesChunk (b "XY"))
      (bare_disk, crashed_upload 9)
    = ((bare_disk, crashed_upload 9), inl (OSError ENOENT)).
Proof.
  split; [|split].
  - apply (proj1 (uploadChunk_refusals (D := demo_digest) _ _)). reflexivity.
  - intros u.
    apply (proj1 (proj2 (uploadChunk_refusals (D := demo_digest) bare_disk u))
             (BytesChunk (b "XY")) (b "XY"));
      [reflexivity | simpl; lia | reflexivity].
  - apply (proj2 (proj2 (uploadChunk_refusals (D := demo_digest) bare_disk
                           (crashed_upload 9)))
             (BytesChunk (b "XY")) (b "XY"));
      [reflexivity | simpl; lia | by eexists | reflexivity].
Defined.


(** ** [finalizeUpload], whatever the disk *)

Section FinalizeMore.
Context {D : Digest}.

(** The second half of [finalizeUpload]: the scratch file [t] is removed
    or moved to [abspath]. *)
Lemma finalize_tail_frame (t abspath : string) (dm d1 : fs) (r : exn + unit) :
  (if exists_ dm abspath then remove t dm else move t abspath dm) = (d1, r) →
  (∀ p n, p ≠ t → dm !! p = Some n → d1 !! p = Some n)
  ∧ (∀ p n, dm !! p = None → d1 !! p = Some n →
       p = abspath ∧ ∃ c, n = File c ∧ dm !! t = Some (File c))
  ∧ match r with
    | inl e => d1 = dm ∧ is_OSError e = true
    | inr _ => d1 !! t = None
    end.
Proof.
  unfold remove, move, check_parent.
  destruct (exists_ dm abspath) eqn:Ex.
  - destruct (dm !! t) as [[c|w]|] eqn:Et; intros [= <- <-];
      try (split; [done|]; split; [congruence|]; by split).
    split; [|split].
    + intros p n Hp Hn. by rewrite lookup_delete_ne.
    + intros p n Hnone Hn. destruct (decide (p = t)) as [->|Hp].
      * by rewrite lookup_delete_eq in Hn.
      * rewrite lookup_delete_ne in Hn by done. congruence.
    + apply lookup_delete_eq.
  - apply bool_decide_eq_false_1 in Ex.
    assert (dm !! abspath = None) as Hfree
      by (destruct (dm !! abspath) eqn:E; [destruct Ex; by eexists | done]).
    rewrite Hfree.
    destruct (dm !! t) as [[c|w]|] eqn:Et;
      [destruct (dm !! parent abspath) as [[c'|[|]]|]|..]; intros [= <- <-];
      try (split; [done|]; split; [congruence|]; by split).
    assert (abspath ≠ t) as Hne by congruence.
    split; [|split].
    + intros p n Hp Hn. destruct (decide (p = abspath)) as [->|Hpa]; [congruence|].
      by rewrite lookup_insert_ne, lookup_delete_ne.
    + intros p n Hnone Hn. destruct (decide (p = abspath)) as [->|Hpa].
      * rewrite lookup_insert_eq in Hn. injection Hn as <-. eauto.
      * rewrite lookup_insert_ne in Hn by done.
        destruct (decide (p = t)) as [->|Hp]; [by rewrite lookup_delete_eq in Hn|].
        rewrite lookup_delete_ne in Hn by done. congruence.
    + rewrite lookup_insert_ne by done. apply lookup_delete_eq.
Qed.

(** [finalizeUpload] on any disk: what stays, what may appear, and the
    outcome. *)
Lemma finalizeUpload_outcome (a : assetstore) (u : upload) (d d' : fs)
    (f f' : file) (r : exn + unit) :
  finalizeUpload a u (d, f) = ((d', f'), r) →
  (∀ p n, p ≠ upload_tempFile u → d !! p = Some n → d' !! p = Some n)
  ∧ (∀ p c, d !! p = None → d' !! p = Some (File c) →
       d !! upload_tempFile u = Some (File c)
       ∧ ∃ h, restoreHex (upload_sha512state u) = Some h
              ∧ p = join (assetstore_root a) (shard_rel (hexdigest h)))
  ∧ (∀ p w, d !! p = None → d' !! p = Some (Dir w) → w = true)
  ∧ match r with
    | inl e => f' = f ∧ (e = CorruptDigestState ∨ is_OSError e = true)
    | inr _ => d' !! upload_tempFile u = None
               ∧ ∃ h, restoreHex (upload_sha512state u) = Some h
                      ∧ f' = set_sha512_path f (hexdigest h) (shard_rel (hexdigest h))
    end.
Proof.
  destruct (restoreHex (upload_sha512state u)) as [h|] eqn:Hh.
  2:{ unfold finalizeUpload. run. rewrite Hh. intros [= <- <- <-].
      split; [done|]. split; [congruence|]. split; [congruence|]. auto. }
  rewrite (finalizeUpload_run a u d f h Hh). cbv zeta.
  set (absdir := join (assetstore_root a) _).
  fold (shard_rel (hexdigest h)). set (abspath := join (assetstore_root a) _).
  destruct (if exists_ d absdir then (d, inr ()) else makedirs absdir d)
    as [dm rm] eqn:Em.
  assert (grows absdir d dm ∧ ∀ e, rm = inl e → is_OSError e = true) as [G O].
  { destruct (exists_ d absdir).
    - injection Em as <- <-. split; [apply grows_refl | done].
    - by apply makedirs_grows in Em. }
  destruct rm as [e|[]].
  { intros [= <- <- <-]. split; [|split; [|split]].
    - intros p n _ Hn. by apply (grows_keeps absdir d).
    - intros p c Hnone Hc. destruct (G p) as [E | (_ & E & _)]; congruence.
    - intros p w Hnone Hw. destruct (G p) as [E | (_ & E & _)]; congruence.
    - split; [done|]. right. by apply O. }
  destruct (if exists_ dm abspath then remove (upload_tempFile u) dm
            else move (upload_tempFile u) abspath dm) as [d1 r1] eqn:Et.
  apply finalize_tail_frame in Et as (Keep & New & Out).
  assert (∀ p, d !! p = None → dm !! p = None ∨ dm !! p = Some (Dir true)) as Hdm
    by (intros p Hp; destruct (G p) as [E | (_ & E & _)]; [left; congruence | by right]).
  assert (∀ c, dm !! upload_tempFile u = Some (File c) →
               d !! upload_tempFile u = Some (File c)) as Hback
    by (intros c Hc; destruct (G (upload_tempFile u)) as [E | (_ & E & _)]; congruence).
  assert ((∀ p n, p ≠ upload_tempFile u → d !! p = Some n → d1 !! p = Some n)
          ∧ (∀ p c, d !! p = None → d1 !! p = Some (File c) →
               d !! upload_tempFile u = Some (File c)
               ∧ ∃ h0, Some h = Some h0
                       ∧ p = join (assetstore_root a) (shard_rel (hexdigest h0)))
          ∧ (∀ p w, d !! p = None → d1 !! p = Some (Dir w) → w = true))
    as (K & N & W).
  { split; [|split].
    - intros p n Hp Hn. apply Keep; [done|]. by apply (grows_keeps absdir d).
    - intros p c Hnone Hc. destruct (Hdm p Hnone) as [E|E].
      + destruct (New p _ E Hc) as (-> & c' & [= <-] & Ht).
        split; [by apply Hback|]. by exists h.
      + destruct (decide (p = upload_tempFile u)) as [->|Hp].
        * destruct r1; [destruct Out as [-> _]|]; congruence.
        * apply (Keep p _ Hp) in E. congruence.
    - intros p w Hnone Hw. destruct (Hdm p Hnone) as [E|E].
      + by destruct (New p _ E Hw) as (_ & c' & [=] & _).
      + destruct (decide (p = upload_tempFile u)) as [->|Hp].
        * destruct r1; [destruct Out as [-> _]|]; congruence.
        * apply (Keep p _ Hp) in E. congruence. }
  destruct r1 as [e|[]]; intros [= <- <- <-].
  - split; [done|]. split; [done|]. split; [done|]. split; [done|]. right. apply Out.
  - split; [done|]. split; [done|]. split; [done|]. split; [done|]. eauto.
Qed.

(** X6.  [finalizeUpload] on any disk whose scratch path holds no
    directory.  Nothing that is on the disk is removed or changed except
    the scratch file; what appears is writable directories and at most one
    regular file, at the canonical path of the digest and holding the
    scratch file's bytes.  On success the scratch path is free and the
    record carries the digest and its canonical path; when an exception is
    raised the record is as it was. *)
Theorem finalizeUpload_frame (a : assetstore) (u : upload) (d d' : fs)
    (f f' : file) (r : exn + unit) :
  (∀ w, d !! upload_tempFile u ≠ Some (Dir w)) →
  finalizeUpload a u (d, f) = ((d', f'), r) →
  (∀ p n, p ≠ upload_tempFile u → d !! p = Some n → d' !! p = Some n)
  ∧ (∀ p c, d !! p = None → d' !! p = Some (File c) →
       d !! upload_tempFile u = Some (File c)
       ∧ ∃ h, restoreHex (upload_sha512state u) = Some h
              ∧ p = join (assetstore_root a) (shard_rel (hexdigest h)))
  ∧ (∀ p w, d !! p = None → d' !! p = Some (Dir w) → w = true)
  ∧ match r with
    | inl e => f' = f
    | inr _ => d' !! upload_tempFile u = None
               ∧ ∃ h, restoreHex (upload_sha512state u) = Some h
                      ∧ f' = set_sha512_path f (hexdigest h) (shard_rel (hexdigest h))
    end.
Proof.
  intros _ Hrun. apply finalizeUpload_outcome in Hrun as (K & N & W & Out).
  split; [done|]. split; [done|]. split; [done|].
  destruct r as [e|[]]; [by destruct Out | done].
Qed.
End FinalizeMore.

Lemma finalizeUpload_frame_witness :
  ∃ d' f',
    finalizeUpload (D := demo_digest) demo_root (twin_upload "/data/temp/tmpA")
      (twin_disk, fresh_file 1 "a") = ((d', f'), inr ())
    ∧ d' !! "/data/temp/tmpB" = Some (File (b "hello"))
    ∧ d' !! "/data/temp/tmpA" = None.
Proof.
  set (out := finalizeUpload (D := demo_digest) demo_root
                (twin_upload "/data/temp/tmpA") (twin_disk, fresh_file 1 "a")).
  assert (snd out = inr ()) as Hr by (vm_compute; reflexivity).
  destruct (finalizeUpload_frame (D := demo_digest) demo_root
              (twin_upload "/data/temp/tmpA") twin_disk (fst (fst out))
              (fresh_file 1 "a") (snd (fst out)) (snd out))
    as (Keep & _ & _ & Out);
    [intros w; vm_compute; discriminate | apply triple_eta |].
  rewrite Hr in Out. destruct Out as [Hgone _].
  exists (fst (fst out)), (snd (fst out)). split; [|split].
  - rewrite <- Hr. apply triple_eta.
  - apply Keep; [done | vm_compute; reflexivity].
  - exact Hgone.
Defined.

(** ** [downloadFile], whatever the file holds *)

(** The loop of [stream] on any file and any range: it yields the bytes
    from the position on, as many as the range asks for or as the file
    has. *)
Lemma stream_loop_any (fuel : nat) (content : bytes) (pos : nat)
    (bytesRead endByte : Z) :
  length content - pos ≤ fuel →
  concat (stream_loop fuel content pos bytesRead endByte)
    = take (Z.to_nat (endByte - bytesRead)) (drop pos content)
  ∧ Forall (λ c, 0 < length c ≤ BUF_SIZE)
      (stream_loop fuel content pos bytesRead endByte).
Proof.
  revert pos bytesRead.
  induction fuel as [|fuel IH]; intros pos bytesRead Hfuel.
  - cbn [stream_loop concat]. rewrite drop_ge by lia. by rewrite take_nil.
  - cbn [stream_loop]. pose proof BUF_SIZE_pos as HB.
    set (readLen := Z.min (Z.of_nat BUF_SIZE) (endByte - bytesRead)).
    destruct (readLen <=? 0)%Z eqn:Hz.
    + apply Z.leb_le in Hz.
      replace (Z.to_nat (endByte - bytesRead)) with 0 by lia. by split.
    + apply Z.leb_gt in Hz.
      pose proof (length_take (drop pos content) (Z.to_nat readLen)) as Hlen.
      rewrite length_drop in Hlen.
      destruct (take (Z.to_nat readLen) (drop pos content)) as [|x data] eqn:E.
      { apply take_is_nil in E; [|lia]. rewrite E. by rewrite take_nil. }
      rewrite <- E in *.
      assert (0 < length (take (Z.to_nat readLen) (drop pos content))) as Hpos
        by (rewrite E; simpl; lia).
      destruct (IH (pos + length (take (Z.to_nat readLen) (drop pos content)))
                  (bytesRead + readLen)%Z) as [Hcat Hall]; [lia|].
      cbn [concat]. split; [|constructor; [lia | done]].
      rewrite Hcat.
      destruct (decide (Z.to_nat readLen ≤ length content - pos)) as [Hfull|Hshort].
      * replace (length (take (Z.to_nat readLen) (drop pos content)))
          with (Z.to_nat readLen) by lia.
        rewrite <- drop_drop, take_take_drop. f_equal. lia.
      * rewrite (drop_ge content (pos + _)) by lia. rewrite take_nil, app_nil_r.
        rewrite !take_ge; [done | rewrite length_drop; lia | rewrite length_drop; lia].
Qed.

(** X7.  Streaming from any backing file.  Whatever the file holds when
    the generator is run, the chunks concatenate to its bytes from
    [max(offset, 0)] on, [endByte - offset] of them or as many as there
    are, with [endByte] defaulting to and capped at the recorded size; each
    chunk is non-empty and no longer than the buffer.  The file is opened
    when the generator is run: if it is gone by then, [OSError]. *)
Theorem download_any (a : assetstore) (d : fs) (f : file) (path : string)
    (offset : Z) (endByte : option Z) :
  resolved a f = Some path →
  isfile d path = true →
  let e := match endByte with
           | None => Z.of_nat (file_size f)
           | Some e => Z.min e (Z.of_nat (file_size f))
           end in
  ∃ gen : M fs (list bytes),
    downloadFile a f offset endByte d = (d, inr gen)
    ∧ (∀ d2 content, d2 !! path = Some (File content) →
         ∃ chunks, gen d2 = (d2, inr chunks)
           ∧ concat chunks
             = take (Z.to_nat (e - offset)) (drop (Z.to_nat offset) content)
           ∧ Forall (λ c, 0 < length c ≤ BUF_SIZE) chunks)
    ∧ (∀ d2, d2 !! path = None → gen d2 = (d2, inl (OSError ENOENT))).
Proof.
  intros Hp Hd e.
  exists (stream path offset e). split; [|split].
  - unfold downloadFile. run. rewrite fullPath_resolved, Hp. step.
    rewrite Hd. step.
    replace (match endByte with
             | Some e0 => if (Z.of_nat (file_size f) <? e0)%Z
                          then Z.of_nat (file_size f) else e0
             | None => Z.of_nat (file_size f)
             end) with e; [done|].
    unfold e. destruct endByte as [e0|]; [|done].
    destruct (Z.of_nat (file_size f) <? e0)%Z eqn:Hc;
      [apply Z.ltb_lt in Hc | apply Z.ltb_ge in Hc]; lia.
  - intros d2 content Hd2.
    set (pos := if (0 <? offset)%Z then Z.to_nat offset else 0).
    assert (pos = Z.to_nat offset) as Hpos
      by (unfold pos; destruct (0 <? offset)%Z eqn:H0;
          [done | apply Z.ltb_ge in H0; lia]).
    destruct (stream_loop_any (length content) content pos offset e)
      as [Hcat Hall]; [lia|].
    exists (stream_loop (length content) content pos offset e).
    split; [|split; [by rewrite Hcat, Hpos | done]].
    unfold stream, open_rb. run. by rewrite Hd2.
  - intros d2 Hd2. unfold stream, open_rb. run. by rewrite Hd2.
Qed.

(** A record whose backing file has lost its last two bytes, asked for
    with a negative offset: the read starts at the beginning and runs for
    [endByte - offset] bytes, here past the three the file still has. *)
Lemma download_any_witness :
  ∃ (gen : M fs (list bytes)) (chunks : list bytes),
    downloadFile demo_root (stored_file 1 "one" 5 "abcd") (-1) (Some 2%Z) shared_disk
      = (shared_disk, inr gen)
    ∧ gen (<["/data/ab/cd/abcd" := File (b "hel")]> shared_disk)
      = (<["/data/ab/cd/abcd" := File (b "hel")]> shared_disk, inr chunks)
    ∧ concat chunks = b "hel"
    ∧ gen (delete "/data/ab/cd/abcd" shared_disk)
      = (delete "/data/ab/cd/abcd" shared_disk, inl (OSError ENOENT)).
Proof.
  destruct (download_any demo_root shared_disk (stored_file 1 "one" 5 "abcd")
              "/data/ab/cd/abcd" (-1) (Some 2%Z))
    as (gen & H1 & H2 & H3); [reflexivity | reflexivity |].
  destruct (H2 (<["/data/ab/cd/abcd" := File (b "hel")]> shared_disk) (b "hel"))
    as (chunks & Hrun & Hcat & _); [apply lookup_insert_eq|].
  exists gen, chunks. split; [exact H1|]. split; [exact Hrun|].
  split; [exact Hcat|]. apply H3, lookup_delete_eq.
Defined.

(** X8.  [downloadFile] never changes the disk, and it fails in exactly two
    ways: [KeyError] for a record without [path], and the file-does-not-exist
    [GirderException] when what the record resolves to is no regular file,
    a directory included. *)
Theorem download_refusals (a : assetstore) (d : fs) (f : file) (offset : Z)
    (endByte : option Z) :
  fst (downloadFile a f offset endByte d) = d
  ∧ (∀ e, snd (downloadFile a f offset endByte d) = inl e ↔
       match resolved a f with
       | None => e = KeyError "path"
       | Some path => isfile d path = false
                      ∧ e = GirderException file_does_not_exist
       end).
Proof.
  unfold downloadFile. run. rewrite fullPath_resolved.
  destruct (resolved a f) as [path|]; step.
  - destruct (isfile d path); cbn [negb fst snd]; (split; [done|]); intros e; split.
    + done.
    + by intros [? _].
    + by intros [= <-].
    + by intros [_ ->].
  - cbn [fst snd]. split; [done|]. intros e. split; [by intros [= <-] | by intros ->].
Qed.

(** ** [findInvalidFiles], whatever the records *)

(** Every finding is the verdict on a record of the cursor. *)
Lemma scan_sound (a : assetstore) (d : fs) (checkSize : bool) (cursor : list file)
    (x : finding) :
  x ∈ fst (scan a d checkSize cursor) →
  ∃ f, f ∈ cursor ∧ verdict a d checkSize f = Some x.
Proof.
  induction cursor as [|f cursor IH]; cbn [scan].
  - cbn. by intros ?%elem_of_nil.
  - rewrite fullPath_resolved.
    destruct (resolved a f) as [p|] eqn:Hp; [|cbn; by intros ?%elem_of_nil].
    assert (∃ v : option string,
              (if negb (isfile d p) then inr (Some "missing")
               else if checkSize
                    then match getsize d p with
                         | inl e => inl e
                         | inr n => inr (if bool_decide (n = file_size f)
                                         then None else Some "size")
                         end
                    else inr None) = inr v
              ∧ verdict a d checkSize f
                = (λ r, {| reason := r; finding_file := f; finding_path := p |}) <$> v)
      as (v & -> & Hv).
    { unfold verdict, isfile, getsize. rewrite Hp.
      destruct (d !! p) as [[c|w]|]; cbn [negb]; try by eexists.
      destruct checkSize; cbn [andb]; [|by eexists].
      destruct (bool_decide (length c = file_size f)); by eexists. }
    destruct (scan a d checkSize cursor) as [rest e]. cbn [fst] in *.
    assert (x ∈ rest → ∃ f0, f0 ∈ f :: cursor ∧ verdict a d checkSize f0 = Some x)
      as Hrest.
    { intros (f0 & H0 & H1)%IH. exists f0. split; [by right | done]. }
    destruct v as [r|]; [|exact Hrest].
    intros [->|Hx]%elem_of_cons; [|by apply Hrest].
    exists f. split; [by left | done].
Qed.

(** X9.  The scan stops at the first record without [path]: the generator
    raises [KeyError] there, having yielded the findings on the records
    before it, and the records after it are never looked at. *)
Theorem scan_stops (a : assetstore) (d : fs) (checkSize : bool)
    (before after : list file) (f : file) :
  Forall (λ g, is_Some (file_path g)) before →
  file_path f = None →
  scan a d checkSize (before ++ f :: after)
  = (omap (verdict a d checkSize) before, Some (KeyError "path")).
Proof.
  intros Hb Hf. induction Hb as [|g before [p Hp] _ IH].
  - cbn [app scan omap list_omap]. rewrite fullPath_resolved.
    unfold resolved. by rewrite Hf.
  - cbn [app scan omap list_omap]. rewrite fullPath_resolved, IH.
    unfold verdict, resolved, isfile, getsize. rewrite Hp.
    destruct (d !! _) as [[c|w]|]; cbn [negb]; try done.
    destruct checkSize; cbn [andb]; [|done].
    by destruct (bool_decide (length c = file_size g)).
Qed.

Lemma scan_stops_witness :
  scan demo_root shared_disk true
    [stored_file 3 "gone" 4 "ef01"; fresh_file 5 "new"; stored_file 6 "lost" 4 "0123"]
  = ([{| reason := "missing"; finding_file := stored_file 3 "gone" 4 "ef01";
         finding_path := "/data/ef/01/ef01" |}], Some (KeyError "path")).
Proof.
  apply (scan_stops demo_root shared_disk true [stored_file 3 "gone" 4 "ef01"]
           [stored_file 6 "lost" 4 "0123"] (fresh_file 5 "new")).
  - repeat constructor. by eexists.
  - reflexivity.
Defined.

(** X10.  The [filters] of [findInvalidFiles] are laid over the adapter's
    own query, so an [assetstoreId] among them replaces the adapter's:
    every finding is then on a record of the assetstore the filter names,
    its path resolved under this adapter's root.  An empty filter
    dictionary is as good as none. *)
Theorem filters_override (a : assetstore) (st : store) (d : fs) (q : query)
    (checkSize : bool) (k : N) :
  q_assetstoreId q = Some k →
  (∀ x, x ∈ fst (findInvalidFiles a st d (Some q) checkSize) →
     finding_file x ∈ files st
     ∧ file_assetstoreId (finding_file x) = k
     ∧ resolved a (finding_file x) = Some (finding_path x))
  ∧ findInvalidFiles a st d (Some no_filter) checkSize
    = findInvalidFiles a st d None checkSize.
Proof.
  intros Hk. split; [|done].
  intros x (f & Hf & Hv)%scan_sound.
  assert (finding_file x = f ∧ resolved a f = Some (finding_path x)) as [-> Hr].
  { unfold verdict in Hv. destruct (resolved a f) as [p|]; [|done].
    destruct (d !! p) as [[c|w]|]; [destruct (checkSize && _); [|done]|..];
      by injection Hv as <-. }
  unfold find in Hf. apply list_elem_of_filter in Hf as [Hm Hin].
  split; [done|]. split; [|done].
  unfold matches, field_matches, dict_update in Hm.
  cbn in Hm. rewrite Hk in Hm. cbn in Hm.
  apply andb_true_iff in Hm as [Hm _]. apply andb_true_iff in Hm as [Hm _].
  apply andb_true_iff in Hm as [Hm _]. apply bool_decide_eq_true in Hm. congruence.
Qed.

Lemma filters_override_witness :
  let other := {| file_id := 9; file_name := "theirs"; file_itemId := 1;
                  file_creatorId := 1; file_assetstoreId := 8; file_mimeType := None;
                  file_size := 4; file_sha512 := Some "ef01";
                  file_path := Some "ef/01/ef01";
                  file_imported := None; file_mtime := None |} in
  let q := {| q_assetstoreId := Some 8%N; q_sha512 := None; q_imported := None;
              q_name := None |} in
  let st := store_of [stored_file 1 "one" 5 "abcd"; other] in
  findInvalidFiles demo_root st shared_disk (Some q) true
  = ([{| reason := "missing"; finding_file := other;
         finding_path := "/data/ef/01/ef01" |}], None)
  ∧ ∀ x, x ∈ fst (findInvalidFiles demo_root st shared_disk (Some q) true) →
      file_assetstoreId (finding_file x) = 8%N.
Proof.
  intros other q st. split; [reflexivity|].
  intros x Hx.
  by destruct (proj1 (filters_override demo_root st shared_disk q true 8 eq_refl) x Hx)
    as (_ & H & _).
Defined.

(** ** [deleteFile] and [cancelUpload], whatever the record *)

(** X11.  What [deleteFile] does to the disk.  When it raises, the disk is
    as it was.  When the disk has changed, the record is not imported, it is
    the only holder of its digest the store knows in this assetstore, and
    what has gone is the regular file at its own path under the root,
    nothing else.  A record without [sha512] raises [KeyError] before the
    store is asked; one without [path] raises it only as the sole holder,
    and is passed over otherwise. *)
Theorem deleteFile_frame (a : assetstore) (st : store) (f : file) (d d' : fs)
    (r : exn + unit) :
  deleteFile a st f d = (d', r) →
  (∀ e, r = inl e → d' = d)
  ∧ (d' = d
     ∨ ∃ sha p c,
         truthy (file_imported f) = false ∧ file_sha512 f = Some sha
         ∧ file_path f = Some p ∧ length (holders a st sha) = 1
         ∧ d !! join (assetstore_root a) p = Some (File c)
         ∧ d' = delete (join (assetstore_root a) p) d ∧ r = inr ())
  ∧ (truthy (file_imported f) = false → file_sha512 f = None →
       r = inl (KeyError "sha512"))
  ∧ (∀ sha, truthy (file_imported f) = false → file_sha512 f = Some sha →
       file_path f = None →
       r = if bool_decide (length (holders a st sha) = 1)
           then inl (KeyError "path") else inr ()).
Proof.
  unfold deleteFile. destruct (truthy (file_imported f)) eqn:Hi.
  { intros [= <- <-]. split; [done|]. split; [by left | done]. }
  run. destruct (file_sha512 f) as [sha|] eqn:Hs; step;
    [|intros [= <- <-]; split; [done|]; split; [by left | done]].
  rewrite find_holders.
  assert (bool_decide (length (take 2 (holders a st sha)) = 1)
          = bool_decide (length (holders a st sha) = 1)) as ->
    by (apply bool_decide_ext, take_2_length_1).
  destruct (decide (length (holders a st sha) = 1)) as [Hone|Hone];
    [rewrite bool_decide_eq_true_2 by done
    |rewrite bool_decide_eq_false_2 by done]; step.
  2:{ intros [= <- <-]. split; [done|]. split; [by left|]. split; [done|].
      intros ? _ [= <-] _. by rewrite bool_decide_eq_false_2. }
  destruct (file_path f) as [p|] eqn:Hp; step.
  2:{ intros [= <- <-]. split; [done|]. split; [by left|]. split; [done|].
      intros ? _ [= <-] _. by rewrite bool_decide_eq_true_2. }
  unfold isfile, remove.
  destruct (d !! join (assetstore_root a) p) as [[c|w]|] eqn:E; step; rewrite ?E;
    intros [= <- <-]; (split; [done|]); (split; [|done]); [|by left..].
  right. exists sha, p, c. auto 10.
Qed.

Lemma deleteFile_frame_witness :
  let st := store_of [stored_file 2 "two" 5 "abcd"; stored_file 3 "gone" 4 "ef01"] in
  deleteFile demo_root st (stored_file 2 "two" 5 "abcd") shared_disk
  = (delete "/data/ab/cd/abcd" shared_disk, inr ())
  ∧ length (holders demo_root st "abcd") = 1.
Proof.
  intros st. split; [reflexivity|].
  destruct (deleteFile_frame demo_root st (stored_file 2 "two" 5 "abcd") shared_disk
              (delete "/data/ab/cd/abcd" shared_disk) (inr ()) eq_refl)
    as [_ [[_ | (sha & p & c & _ & Hs & _ & Hl & _)] _]].
  - reflexivity.
  - injection Hs as <-. exact Hl.
Defined.

Section FinalizeCancel.
Context {D : Digest}.

(** X12.  The scratch file is gone after a successful [finalizeUpload], so
    a [cancelUpload] that follows finds nothing to delete and succeeds
    without touching the disk. *)
Theorem cancel_after_finalize (a : assetstore) (u : upload) (d d' : fs)
    (f f' : file) :
  finalizeUpload a u (d, f) = ((d', f'), inr ()) →
  cancelUpload u d' = (d', inr ()).
Proof.
  intros H. apply finalizeUpload_outcome in H as (_ & _ & _ & Hgone & _).
  unfold cancelUpload, exists_. run. rewrite Hgone.
  rewrite bool_decide_eq_false_2; [done | by intros [? ?]].
Qed.

(** X13.  [finalizeUpload] on a session whose scratch file is gone, as
    after a cancel, fails with an [OSError] and leaves the record alone,
    but not before it has made the shard directory of the digest when that
    was missing: the disk has gained what [os.makedirs] added, writable
    directories, and nothing else has changed. *)
Theorem finalize_after_cancel (a : assetstore) (u : upload) (d : fs) (f : file)
    (h : digest_state) :
  d !! upload_tempFile u = None →
  restoreHex (upload_sha512state u) = Some h →
  let absdir := join (assetstore_root a)
                  (join (substring 0 2 (hexdigest h)) (substring 2 2 (hexdigest h))) in
  ∃ d' e, finalizeUpload a u (d, f) = ((d', f), inl e)
    ∧ is_OSError e = true
    ∧ d' = (if exists_ d absdir then d else fst (makedirs absdir d))
    ∧ grows absdir d d'.
Proof.
  intros Hnone Hh absdir.
  rewrite (finalizeUpload_run a u d f h Hh). cbv zeta. fold absdir.
  set (abspath := join (assetstore_root a) _).
  assert (∃ dm rm, (if exists_ d absdir then (d, inr ()) else makedirs absdir d)
                   = (dm, rm)
                   ∧ dm = (if exists_ d absdir then d else fst (makedirs absdir d))
                   ∧ grows absdir d dm ∧ ∀ e, rm = inl e → is_OSError e = true)
    as (dm & rm & -> & Hdm & G & O).
  { destruct (exists_ d absdir).
    - exists d, (inr ()). split; [done|]. split; [done|].
      split; [apply grows_refl | done].
    - destruct (makedirs absdir d) as [dm rm] eqn:Em. exists dm, rm.
      split; [done|]. split; [done|]. by apply makedirs_grows in Em. }
  destruct rm as [e|[]].
  { exists dm, e. split; [done|]. split; [by apply O|]. by split. }
  destruct (dm !! upload_tempFile u) as [n|] eqn:Et.
  - destruct (G (upload_tempFile u)) as [E | (_ & E & _)]; [congruence|].
    assert (n = Dir true) as -> by congruence.
    exists dm, (OSError EISDIR). unfold remove, move. rewrite Et.
    split; [by destruct (exists_ dm abspath)|]. by split.
  - exists dm, (OSError ENOENT). unfold remove, move. rewrite Et.
    split; [by destruct (exists_ dm abspath)|]. by split.
Qed.
End FinalizeCancel.

Lemma cancel_after_finalize_witness :
  let out := finalizeUpload (D := demo_digest) demo_root
               (twin_upload "/data/temp/tmpA") (twin_disk, fresh_file 1 "a") in
  snd out = inr ()
  ∧ cancelUpload (twin_upload "/data/temp/tmpA") (fst (fst out))
    = (fst (fst out), inr ()).
Proof.
  intros out.
  assert (snd out = inr ()) as Hr by (vm_compute; reflexivity).
  split; [exact Hr|].
  apply (cancel_after_finalize (D := demo_digest) demo_root
           (twin_upload "/data/temp/tmpA") twin_disk (fst (fst out))
           (fresh_file 1 "a") (snd (fst out))).
  rewrite <- Hr. apply triple_eta.
Defined.

Lemma finalize_after_cancel_witness :
  ∃ d' e,
    finalizeUpload (D := demo_digest) demo_root (twin_upload "/data/temp/tmpA")
      (shared_disk, fresh_file 1 "a") = ((d', fresh_file 1 "a"), inl e)
    ∧ is_OSError e = true
    ∧ length (map_to_list d') = length (map_to_list shared_disk) + 2.
Proof.
  destruct (finalize_after_cancel (D := demo_digest) demo_root
              (twin_upload "/data/temp/tmpA") shared_disk (fresh_file 1 "a")
              (b "hello") eq_refl eq_refl) as (d' & e & Hrun & He & Hd & _).
  exists d', e. split; [exact Hrun|]. split; [exact He|].
  rewrite Hd. vm_compute. reflexivity.
Defined.

(** ** [importData]: how it fails *)

Lemma listdir_exists (d : fs) (p name : string) :
  name ∈ listdir d p → is_Some (d !! join p name).
Proof.
  unfold listdir. intros (k & Hk & Hsel)%list_elem_of_omap.
  apply list_elem_of_fmap in Hk as ([k' v] & -> & Hkv).
  apply elem_of_map_to_list in Hkv. cbn [fst] in *.
  destruct (negb _ && bool_decide (join p (basename k') = k') && _) eqn:Hc; [|done].
  injection Hsel as <-.
  apply andb_true_iff in Hc as [Hc _]. apply andb_true_iff in Hc as [_ Hc].
  apply bool_decide_eq_true in Hc. rewrite Hc. by eexists.
Qed.

Lemma for_each_failure {S A} (l : list A) (body : A → M S unit) (s s' : S) (e : exn) :
  for_each l body s = (s', inl e) →
  ∃ x s0, x ∈ l ∧ body x s0 = (s', inl e).
Proof.
  revert s. induction l as [|x l IH]; intros s; cbn [for_each]; [done|]. run.
  destruct (body x s) as [s1 [e1|[]]] eqn:E1.
  - intros [= <- <-]. exists x, s. split; [by left | done].
  - intros (y & s0 & Hy & Hrun)%IH. exists y, s0. split; [by right | done].
Qed.

(** X14.  The two validation errors of [importData] belong to the
    outermost call.  A no-such-directory error is that of the directory
    the importer was called on, raised before the store is touched; a
    files-cannot-be-imported error is that of the parent type it was
    called with, which is then not [folder].  The inner calls raise
    neither, since they are made on directories and with parent type
    [folder]. *)
Theorem importData_failures (fuel : nat) (env : os_env) (mtimes : string → Z)
    (d : fs) (a : assetstore) (parent : N) (parentType importPath : string)
    (user : N) (st st' : store) (e : exn) :
  importData fuel env mtimes d a parent parentType importPath user st = (st', inl e) →
  (∀ p, e = ValidationException (NoSuchDirectory p) →
     p = importPath ∧ isdir d importPath = false ∧ st' = st)
  ∧ (∀ t, e = ValidationException (BadParentType t) →
       t = parentType ∧ parentType ≠ "folder" ∧ isdir d importPath = true).
Proof.
  revert parent parentType importPath st st'.
  induction fuel as [|fuel IH]; intros parent parentType importPath st st'.
  - intros [= <- <-]. by split.
  - cbn [importData]. destruct (isdir d importPath) eqn:Hdir; cbn [negb].
    2:{ intros [= <- <-]. split; [by intros p [= <-] | done]. }
    intros (name & st0 & Hname & Hbody)%for_each_failure. revert Hbody.
    destruct (isdir d (join importPath name)) eqn:Hsub.
    + run. unfold createFolder.
      assert (∀ parent' s0,
                importData fuel env mtimes d a parent' "folder"
                  (join importPath name) user s0 = (st', inl e) →
                (∀ p, e = ValidationException (NoSuchDirectory p) →
                   p = importPath ∧ true = false ∧ st' = st)
                ∧ (∀ t, e = ValidationException (BadParentType t) →
                     t = parentType ∧ parentType ≠ "folder" ∧ true = true))
        as Hinner.
      { intros parent' s0 [H1 H2]%IH. split.
        - intros p Hp. destruct (H1 p Hp) as (_ & H & _). congruence.
        - intros t Ht. by destruct (H2 t Ht) as (_ & H & _). }
      destruct (list_find _ _) as [[? fo]|]; step; apply Hinner.
    + run. case_bool_decide as Hpt; cbn [negb]; step.
      * unfold createItem.
        assert (∀ it s0 r,
                  importFile env mtimes d a it (join importPath name) user
                    (Some name) None s0 = (st', r) →
                  match r with
                  | inl e0 => is_OSError e0 = true
                  | inr _ => True
                  end) as Hfile.
        { intros it s0 r. unfold importFile, os_stat. run.
          destruct (d !! join importPath name) as [[c|w]|]; step.
          - destruct (createFile _ _ _ _ _ _ s0) as [s1 [e1|f1]] eqn:Ec.
            + unfold createFile in Ec. by destruct (list_find _ _) as [[? ?]|].
            + unfold save. by intros [= <- <-].
          - destruct (createFile _ _ _ _ _ _ s0) as [s1 [e1|f1]] eqn:Ec.
            + unfold createFile in Ec. by destruct (list_find _ _) as [[? ?]|].
            + unfold save. by intros [= <- <-].
          - by intros [= <- <-]. }
        destruct (list_find _ _) as [[? it]|]; step.
        -- destruct (importFile env mtimes d a it (join importPath name) user
                       (Some name) None st0) as [s1 [e1|f1]] eqn:Ei; [|done].
           intros [= <- <-]. apply Hfile in Ei.
           split; intros ? ->; done.
        -- match goal with
           | |- context [importFile env mtimes d a ?it ?p user ?n None ?s0] =>
               destruct (importFile env mtimes d a it p user n None s0)
                 as [s1 [e1|f1]] eqn:Ei; [|done]
           end.
           intros [= <- <-]. apply Hfile in Ei.
           split; intros ? ->; done.
      * intros [= <- <-]. split; [done|]. by intros t [= <-].
Qed.

(** Files directly under a user: the importer refuses. *)
Lemma importData_failures_witness :
  let out := importData 5 demo_env import_mtimes import_disk demo_root 10 "user"
               "/srv/a" 1 (store_of []) in
  snd out = inl (ValidationException (BadParentType "user"))
  ∧ "user" ≠ "folder".
Proof.
  intros out.
  assert (snd out = inl (ValidationException (BadParentType "user"))) as Hr
    by (vm_compute; reflexivity).
  split; [exact Hr|].
  destruct (importData_failures 5 demo_env import_mtimes import_disk demo_root 10
              "user" "/srv/a" 1 (store_of []) (fst out)
              (ValidationException (BadParentType "user"))) as [_ H].
  - rewrite <- Hr. apply surjective_pairing.
  - by destruct (H "user" eq_refl) as (_ & ? & _).
Defined.

(** ** [__init__] *)

Lemma endswith_slash_form (p : string) :
  endswith_slash p = true → ∃ y, p = y +:+ "/".
Proof.
  induction p as [|c p IH]; [done|]. cbn [endswith_slash].
  destruct p as [|c' p].
  - unfold is_slash. intros ->%bool_decide_eq_true. by exists "".
  - intros [y Hy]%IH. exists (String c y). app_simpl. by rewrite Hy.
Qed.

Lemma tempDir_tail (a : assetstore) : snd (split (tempDir a)) = "temp".
Proof.
  unfold tempDir. rewrite join_relative by done. unfold join_prefix, split.
  case_bool_decide as Hempty; cbn [orb].
  - rewrite Hempty. by app_simpl.
  - destruct (endswith_slash (assetstore_root a)) eqn:Hs.
    + apply endswith_slash_form in Hs as [y ->].
      rewrite str_app_assoc. by rewrite rsplit_slash_app.
    + rewrite str_app_assoc. by rewrite rsplit_slash_app.
Qed.

(** X15.  Constructing the adapter never raises.  When something is at the
    temp path already, a regular file included, nothing is done and nothing
    is logged.  Otherwise [os.makedirs] is tried: when it succeeds the temp
    directory is there and nothing is logged, when it fails one message is
    logged; either way the disk has at most gained directories. *)
Theorem adapter_init_spec (a : assetstore) (d : fs) (log : list string) :
  ∃ d' log', adapter_init a (d, log) = ((d', log'), inr ())
    ∧ grows (tempDir a) d d'
    ∧ (is_Some (d !! tempDir a) → d' = d ∧ log' = log)
    ∧ (d !! tempDir a = None →
         (log' = log ∧ d' !! tempDir a = Some (Dir true))
         ∨ (∃ msg, log' = log ++ [msg]) ∧ d' = fst (makedirs (tempDir a) d)).
Proof.
  unfold adapter_init, exists_. run. step.
  case_bool_decide as Hex; cbn [negb]; step.
  - exists d, log. split; [done|]. split; [apply grows_refl|].
    split; [done|]. intros Hnone. rewrite Hnone in Hex. by destruct Hex.
  - assert (d !! tempDir a = None) as Hnone
      by (destruct (d !! tempDir a) eqn:E; [destruct Hex; by eexists | done]).
    destruct (makedirs (tempDir a) d) as [d1 [e|[]]] eqn:Em.
    + pose proof Em as [G O]%makedirs_grows. rewrite (O e eq_refl). step.
      eexists _, _. split; [done|]. split; [done|].
      split; [intros [? ?]; congruence|]. intros _. right. eauto.
    + pose proof Em as [G _]%makedirs_grows.
      eexists _, _. split; [done|]. split; [done|].
      split; [intros [? ?]; congruence|]. intros _. left. split; [done|].
      apply (makedirs_fuel_makes (String.length (tempDir a)) (tempDir a) d);
        [by rewrite tempDir_tail..| exact Em].
Qed.

(** * The route registry *)

Lemma join_slash_slashed (x : string) (xs : list string) :
  join_slash (x :: xs) = x +:+ slashed xs.
Proof.
  unfold join_slash. revert x. induction xs as [|y xs IH]; intros x; cbn [fold_left slashed].
  - induction x as [|c x IHx]; app_simpl; [done | by rewrite <- IHx].
  - by rewrite IH, !str_app_assoc.
Qed.

Lemma convRoute_spec (route : list string) :
  convRoute route = if bool_decide ("" ∈ route) then inl IndexError
                    else inr (braced <$> route).
Proof.
  induction route as [|token route IH]; [done|]. cbn [convRoute].
  destruct token as [|c rest].
  - rewrite bool_decide_eq_true_2; [done | by left].
  - rewrite IH. destruct (decide ("" ∈ route)) as [Hin|Hin].
    + rewrite !bool_decide_eq_true_2; [done | by right | done].
    + rewrite (bool_decide_eq_false_2 ("" ∈ route)) by done.
      rewrite (bool_decide_eq_false_2 ("" ∈ String c rest :: route));
        [done|]. by intros [?|?]%elem_of_cons.
Qed.

(** X16.  [_toRoutePath] raises [IndexError] exactly when a token of the
    route is empty.  Otherwise the path is the resource and the tokens,
    each with a slash before it, a token [:name] written [{name}]; the
    empty route gives the resource alone. *)
Theorem toRoutePath_spec (resource : string) (route : list string) :
  ("" ∈ route → _toRoutePath resource route = inl IndexError)
  ∧ ("" ∉ route →
       _toRoutePath resource route
       = inr ("/" +:+ resource +:+ slashed (braced <$> route)))
  ∧ _toRoutePath resource [] = inr ("/" +:+ resource).
Proof.
  unfold _toRoutePath. rewrite convRoute_spec. split; [|split].
  - intros Hin. by rewrite bool_decide_eq_true_2.
  - intros Hin. rewrite bool_decide_eq_false_2 by done.
    by rewrite join_slash_slashed.
  - cbn [convRoute]. rewrite join_slash_slashed. cbn [slashed]. app_simpl.
    f_equal. f_equal. induction resource as [|c r IH]; app_simpl; [done | by rewrite IH].
Qed.

Lemma toRoutePath_spec_witness :
  _toRoutePath "item" ["folder"; ""] = inl IndexError
  ∧ _toRoutePath "item" [":id"; "files"] = inr "/item/{id}/files".
Proof.
  split.
  - apply (proj1 (toRoutePath_spec "item" ["folder"; ""])). by right; left.
  - apply (proj1 (proj2 (toRoutePath_spec "item" [":id"; "files"]))).
    intros [H|[H|H%elem_of_nil]%elem_of_cons]%elem_of_cons; done.
Defined.

Lemma remove_first_spec {A} `{EqDecision A} (x : A) (l : list A) :
  match remove_first x l with
  | Some l' => x ∈ l ∧ length l = S (length l')
               ∧ (∀ y, y ∈ l' → y ∈ l) ∧ (NoDup l → NoDup l' ∧ x ∉ l')
  | None => x ∉ l
  end.
Proof.
  induction l as [|y l IH]; cbn [remove_first].
  - by intros ?%elem_of_nil.
  - case_bool_decide as E.
    + subst. split; [by left|]. split; [done|]. split; [by right|].
      by intros [? ?]%NoDup_cons.
    + destruct (remove_first x l) as [l'|].
      * destruct IH as (Hin & Hlen & Hsub & Hnd). split; [by right|].
        split; [simpl; lia|]. split.
        -- intros z [->|Hz]%elem_of_cons; [by left | right; by apply Hsub].
        -- intros [Hy Hl]%NoDup_cons. destruct (Hnd Hl) as [Hnd' Hx]. split.
           ++ apply NoDup_cons. split; [|done]. intros Hy'. by apply Hy, Hsub.
           ++ intros [?|?]%elem_of_cons; [congruence | done].
      * intros [?|?]%elem_of_cons; [congruence | done].
Qed.

Lemma remove_first_last {A} `{EqDecision A} (x : A) (l : list A) :
  x ∉ l → remove_first x (l ++ [x]) = Some l.
Proof.
  induction l as [|y l IH]; intros Hx; cbn [app remove_first].
  - by rewrite bool_decide_eq_true_2.
  - rewrite bool_decide_eq_false_2 by (intros ->; apply Hx; by left).
    rewrite IH; [done|]. intros ?. apply Hx. by right.
Qed.

Section DocsProofs.
Context {V : Type} `{EqDecision V}.
Variable str : string → V.
Variable upper : string → string.

Local Abbreviation operation := (gmap string V).
Local Abbreviation registry := (gmap string (gmap string (list (gmap string V)))).

Lemma toOperation_keys (info : operation) (method handler : string) :
  _toOperation str upper info method handler !! "httpMethod" = Some (str (upper method))
  ∧ is_Some (_toOperation str upper info method handler !! "nickname").
Proof.
  unfold _toOperation. case_bool_decide as Hn.
  - split; [apply lookup_insert_eq | done].
  - split; [by rewrite lookup_insert_ne, lookup_insert_eq|].
    rewrite lookup_insert_eq. by eexists.
Qed.

(** An info that is an operation of the method already is its own
    operation. *)
Lemma toOperation_fixed (info : operation) (method handler : string) :
  info !! "httpMethod" = Some (str (upper method)) →
  is_Some (info !! "nickname") →
  _toOperation str upper info method handler = info.
Proof.
  intros Hm Hn. unfold _toOperation. rewrite insert_id by done.
  by rewrite bool_decide_eq_true_2.
Qed.

Lemma registered_insert (routes : registry) (resource path : string)
    (l : list operation) (r p : string) :
  registered (<[resource := <[path := l]> (default ∅ (routes !! resource))]> routes) r p
  = if bool_decide (r = resource ∧ p = path) then l else registered routes r p.
Proof.
  unfold registered. case_bool_decide as E.
  - destruct E as [-> ->]. rewrite lookup_insert_eq. cbn. by rewrite lookup_insert_eq.
  - destruct (decide (r = resource)) as [->|Hr].
    + rewrite lookup_insert_eq. cbn.
      rewrite lookup_insert_ne by (intros ->; by apply E).
      destruct (routes !! resource); cbn; [done | by rewrite lookup_empty].
    + by rewrite lookup_insert_ne.
Qed.

(** X17.  [addRouteDocs] with a route it can convert registers the
    operation under the resource and the path: it is appended unless it is
    there already, nothing else that is registered changes, and a second
    call with the same arguments changes nothing at all. *)
Theorem addRouteDocs_registers (resource : string) (route : list string)
    (method : string) (info : operation) (handler : string)
    (routes : registry) (path : string) :
  _toRoutePath resource route = inr path →
  let op := _toOperation str upper info method handler in
  let l := registered routes resource path in
  ∃ routes',
    addRouteDocs str upper resource route method info handler routes = (routes', inr ())
    ∧ registered routes' resource path = (if bool_decide (op ∈ l) then l else l ++ [op])
    ∧ op ∈ registered routes' resource path
    ∧ (∀ r p, ¬ (r = resource ∧ p = path) →
         registered routes' r p = registered routes r p)
    ∧ addRouteDocs str upper resource route method info handler routes'
      = (routes', inr ()).
Proof.
  intros Hpath op l. unfold addRouteDocs. rewrite Hpath. fold op.
  assert (default [] (default ∅ (routes !! resource) !! path) = l) as Hl.
  { unfold l, registered. destruct (routes !! resource); cbn; [done|].
    by rewrite lookup_empty. }
  rewrite Hl. eexists. split; [done|].
  assert (op ∈ (if bool_decide (op ∈ l) then l else l ++ [op])) as Hin.
  { case_bool_decide; [done|]. apply elem_of_app. right. by left. }
  split; [|split; [|split]].
  - rewrite registered_insert. by rewrite bool_decide_eq_true_2.
  - rewrite registered_insert. by rewrite bool_decide_eq_true_2.
  - intros r p Hne. rewrite registered_insert. by rewrite bool_decide_eq_false_2.
  - rewrite lookup_insert_eq. cbn [default from_option id]. rewrite lookup_insert_eq.
    cbn [default from_option id]. rewrite (bool_decide_eq_true_2 _ Hin).
    by rewrite !insert_insert_eq.
Qed.

Lemma toRoutePath_error (resource : string) (route : list string) (e : docs_exn) :
  _toRoutePath resource route = inl e → e = IndexError.
Proof.
  unfold _toRoutePath. rewrite convRoute_spec.
  destruct (bool_decide _); congruence.
Qed.

Lemma registered_lookup (routes : registry) (resource path : string)
    (byPath : gmap string (list operation)) (l : list operation) :
  routes !! resource = Some byPath → byPath !! path = Some l →
  registered routes resource path = l.
Proof. intros Hr Hp. unfold registered. rewrite Hr. cbn. by rewrite Hp. Qed.

(** [removeRouteDocs] leaves the registry as it is, or removes the first
    occurrence of the operation from the list of the path. *)
Lemma removeRouteDocs_outcome (resource : string) (route : list string)
    (method : string) (info : operation) (handler : string)
    (routes routes' : registry) (r : docs_exn + unit) :
  removeRouteDocs str upper resource route method info handler routes = (routes', r) →
  (routes' = routes
   ∧ (r = inr ()
      ∨ (∃ e, _toRoutePath resource route = inl e ∧ r = inl e)
      ∨ (r = inl ValueError
         ∧ ∃ path, _toRoutePath resource route = inr path
                   ∧ info ∈ registered routes resource path)))
  ∨ ∃ path l', r = inr ()
      ∧ _toRoutePath resource route = inr path
      ∧ info ∈ registered routes resource path
      ∧ remove_first (_toOperation str upper info method handler)
          (registered routes resource path) = Some l'
      ∧ (∀ r p, registered routes' r p
                = if bool_decide (r = resource ∧ p = path) then l'
                  else registered routes r p)
      ∧ (tidy routes → tidy routes').
Proof.
  unfold removeRouteDocs.
  destruct (routes !! resource) as [byPath|] eqn:Hres;
    [|intros [= <- <-]; left; split; [done | by left]].
  destruct (_toRoutePath resource route) as [e|path] eqn:Hpath;
    [intros [= <- <-]; left; split; [done|]; right; left; by exists e|].
  destruct (byPath !! path) as [l|] eqn:Hl;
    [|intros [= <- <-]; left; split; [done | by left]].
  pose proof (registered_lookup routes resource path byPath l Hres Hl) as Hreg.
  destruct (decide (info ∈ l)) as [Hin|Hin];
    [rewrite bool_decide_eq_true_2 by done
    |rewrite bool_decide_eq_false_2 by done; intros [= <- <-]; left;
     split; [done | by left]].
  destruct (remove_first _ l) as [l'|] eqn:Hrm;
    [|intros [= <- <-]; left; split; [done|]; right; right; split; [done|];
      exists path; by rewrite Hreg].
  assert (byPath = default ∅ (routes !! resource)) as Hby by (by rewrite Hres).
  intros Hrun. right. exists path, l'. rewrite Hreg.
  assert (r = inr ()) as ->
    by (destruct l'; [destruct (bool_decide _)|]; by injection Hrun as <- <-).
  split; [done|]. split; [done|]. split; [done|]. split; [done|].
  destruct l' as [|x l'].
  - destruct (decide (delete path byPath = ∅)) as [Hemp|Hemp];
      [rewrite bool_decide_eq_true_2 in Hrun by done
      |rewrite bool_decide_eq_false_2 in Hrun by done]; injection Hrun as <-.
    + split.
      * intros r0 p. unfold registered. case_bool_decide as E.
        -- destruct E as [-> ->]. by rewrite lookup_delete_eq.
        -- destruct (decide (r0 = resource)) as [->|Hr].
           ++ rewrite lookup_delete_eq, Hres. cbn.
              assert (p ≠ path) as Hp by (intros ->; by apply E).
              rewrite <- (lookup_delete_ne byPath path p) by done.
              by rewrite Hemp, lookup_empty.
           ++ by rewrite lookup_delete_ne.
      * unfold tidy. intros Ht res b Hb. apply lookup_delete_Some in Hb as [_ Hb]. exact (Ht res b Hb).
    + split.
      * intros r0 p. unfold registered. case_bool_decide as E.
        -- destruct E as [-> ->]. rewrite lookup_insert_eq. cbn.
           by rewrite lookup_delete_eq.
        -- destruct (decide (r0 = resource)) as [->|Hr].
           ++ rewrite lookup_insert_eq, Hres. cbn.
              rewrite lookup_delete_ne; [done|]. intros ->. by apply E.
           ++ by rewrite lookup_insert_ne.
      * unfold tidy. intros Ht res b Hb. destruct (decide (res = resource)) as [->|Hr].
        -- rewrite lookup_insert_eq in Hb. injection Hb as <-. split; [done|].
           intros p l0 [_ Hp]%lookup_delete_Some.
           by apply (proj2 (Ht resource byPath Hres) p).
        -- rewrite lookup_insert_ne in Hb by done. exact (Ht res b Hb).
  - injection Hrun as <-. split.
    + intros r0 p. rewrite Hby. apply registered_insert.
    + unfold tidy. intros Ht res b Hb. destruct (decide (res = resource)) as [->|Hr].
      * rewrite lookup_insert_eq in Hb. injection Hb as <-.
        split; [apply insert_non_empty|].
        intros p l0 Hp. destruct (decide (p = path)) as [->|Hne].
        -- rewrite lookup_insert_eq in Hp. by injection Hp as <-.
        -- rewrite lookup_insert_ne in Hp by done.
           by apply (proj2 (Ht resource byPath Hres) p).
      * rewrite lookup_insert_ne in Hb by done. exact (Ht res b Hb).
Qed.

Lemma addRouteDocs_outcome (resource : string) (route : list string)
    (method : string) (info : operation) (handler : string)
    (routes routes' : registry) (r : docs_exn + unit) :
  addRouteDocs str upper resource route method info handler routes = (routes', r) →
  routes' = routes
  ∨ ∃ path, _toRoutePath resource route = inr path
      ∧ let op := _toOperation str upper info method handler in
        let l := registered routes resource path in
        routes' = <[resource := <[path := if bool_decide (op ∈ l) then l else l ++ [op]]>
                                  (default ∅ (routes !! resource))]> routes.
Proof.
  unfold addRouteDocs.
  destruct (_toRoutePath resource route) as [e|path] eqn:Hpath;
    [intros [= <- <-]; by left|].
  intros [= <- <-]. right. exists path. split; [done|]. cbv zeta.
  assert (default [] (default ∅ (routes !! resource) !! path)
          = registered routes resource path) as ->; [|done].
  unfold registered. destruct (routes !! resource); cbn; [done|].
  by rewrite lookup_empty.
Qed.

Lemma addRouteDocs_built (resource : string) (route : list string)
    (method : string) (info : operation) (handler : string) (routes : registry) :
  built routes →
  built (fst (addRouteDocs str upper resource route method info handler routes)).
Proof.
  intros Hb.
  destruct (addRouteDocs str upper resource route method info handler routes)
    as [routes' r] eqn:E. cbn [fst].
  apply addRouteDocs_outcome in E as [-> | (path & _ & ->)]; [done|].
  intros r0 p op. rewrite registered_insert. case_bool_decide as E; [|apply Hb].
  destruct E as [-> ->]. case_bool_decide; [apply Hb|].
  intros [? | ->%list_elem_of_singleton]%elem_of_app; [by apply (Hb resource path)|].
  pose proof (toOperation_keys info method handler) as [-> ?]. split; [by eexists | done].
Qed.

(** X18.  [removeRouteDocs] looks for [info] in the list but removes the
    operation built from it.  Every operation [addRouteDocs] registers
    carries [httpMethod] and [nickname]; so with an [info] that lacks one
    of the two keys nothing is found and nothing is removed: the registry
    is as it was and no [ValueError] is raised.  In particular a removal
    right after [addRouteDocs] with the same arguments leaves the
    operation registered. *)
Theorem removeRouteDocs_plain_info (resource : string) (route : list string)
    (method : string) (info : operation) (handler : string) (routes : registry) :
  built routes →
  info !! "httpMethod" = None ∨ info !! "nickname" = None →
  (∃ r, removeRouteDocs str upper resource route method info handler routes
        = (routes, r) ∧ r ≠ inl ValueError)
  ∧ (∀ path, _toRoutePath resource route = inr path →
       let routes1 :=
         fst (addRouteDocs str upper resource route method info handler routes) in
       removeRouteDocs str upper resource route method info handler routes1
       = (routes1, inr ())
       ∧ _toOperation str upper info method handler
         ∈ registered routes1 resource path).
Proof.
  intros Hb Hplain.
  assert (∀ rs : registry, built rs →
            ∀ rs' r, removeRouteDocs str upper resource route method info handler rs
                     = (rs', r) →
            rs' = rs ∧ (r = inr () ∨ ∃ e, _toRoutePath resource route = inl e
                                          ∧ r = inl e)) as Hkeep.
  { assert (∀ rs : registry, built rs → ∀ path,
              info ∈ registered rs resource path → False) as Hnot.
    { intros rs Hrs path Hin. destruct (Hrs resource path info Hin) as [[? ?] [? ?]].
      destruct Hplain; congruence. }
    intros rs Hrs rs' r
      [[-> [?|[?|(_ & path & _ & Hin)]]] | (path & l' & _ & _ & Hin & _)]%removeRouteDocs_outcome;
      auto; by destruct (Hnot rs Hrs path). }
  split.
  - destruct (removeRouteDocs str upper resource route method info handler routes)
      as [rs' r] eqn:E.
    destruct (Hkeep routes Hb _ _ E) as [-> Hr]. exists r. split; [done|].
    destruct Hr as [-> | (e & He & ->)]; [done|].
    apply toRoutePath_error in He as ->. done.
  - intros path Hpath routes1.
    destruct (addRouteDocs_registers resource route method info handler routes path
                Hpath) as (rs1 & Hadd & _ & Hin & _).
    assert (routes1 = rs1) as -> by (unfold routes1; by rewrite Hadd).
    split; [|done].
    assert (built rs1) as Hb1.
    { pose proof (addRouteDocs_built resource route method info handler routes Hb) as H1.
      by rewrite Hadd in H1. }
    destruct (removeRouteDocs str upper resource route method info handler rs1)
      as [rs' r] eqn:E.
    destruct (Hkeep rs1 Hb1 _ _ E) as [-> [-> | (e & He & _)]]; [done | congruence].
Qed.

(** X19.  When [info] is itself an operation of the method, it carries
    [httpMethod] with the upper-cased method and a [nickname], the
    operation built from it is [info], and removal undoes registration: on
    a registry without empty lists or dictionaries, adding an operation
    that was not registered and removing it again gives the registry back,
    the entries made for it included. *)
Theorem remove_undoes_add (resource : string) (route : list string)
    (method : string) (info : operation) (handler : string) (routes : registry)
    (path : string) :
  tidy routes →
  info !! "httpMethod" = Some (str (upper method)) →
  is_Some (info !! "nickname") →
  _toRoutePath resource route = inr path →
  info ∉ registered routes resource path →
  _toOperation str upper info method handler = info
  ∧ removeRouteDocs str upper resource route method info handler
      (fst (addRouteDocs str upper resource route method info handler routes))
    = (routes, inr ()).
Proof.
  intros Ht Hm Hn Hpath Hnew.
  pose proof (toOperation_fixed info method handler Hm Hn) as Hop.
  split; [done|].
  unfold addRouteDocs, removeRouteDocs. rewrite Hpath, Hop. cbn [fst].
  set (byPath := default ∅ (routes !! resource)).
  assert (default [] (byPath !! path) = registered routes resource path) as Hl.
  { unfold byPath, registered. destruct (routes !! resource); cbn; [done|].
    by rewrite lookup_empty. }
  rewrite Hl. set (l := registered routes resource path) in *.
  rewrite (bool_decide_eq_false_2 (info ∈ l)) by done.
  rewrite lookup_insert_eq, lookup_insert_eq.
  rewrite bool_decide_eq_true_2 by (apply elem_of_app; right; by left).
  rewrite remove_first_last by done.
  assert (byPath ≠ ∅ → routes !! resource = Some byPath) as Hsome.
  { unfold byPath. destruct (routes !! resource); [done|]. by intros []. }
  destruct l as [|x l'] eqn:El.
  - assert (byPath !! path = None) as Hfree.
    { destruct (byPath !! path) as [l0|] eqn:E0; [|done]. exfalso.
      cbn in Hl. subst l0.
      assert (byPath ≠ ∅) as Hne by (intros Hemp; by rewrite Hemp, lookup_empty in E0).
      by destruct (proj2 (Ht resource byPath (Hsome Hne)) path [] E0). }
    rewrite delete_insert_id by done.
    destruct (decide (byPath = ∅)) as [Hemp|Hne].
    + rewrite bool_decide_eq_true_2 by done. f_equal.
      apply delete_insert_id.
      destruct (routes !! resource) as [b0|] eqn:E0; [|done]. exfalso.
      by destruct (Ht resource b0 E0) as [Hne _].
    + rewrite bool_decide_eq_false_2 by done. f_equal.
      rewrite insert_insert_eq. by apply insert_id, Hsome.
  - assert (byPath !! path = Some (x :: l')) as Hthere
      by (destruct (byPath !! path); [cbn in Hl; by subst | done]).
    rewrite !insert_insert_eq. f_equal.
    rewrite (insert_id byPath) by done. apply insert_id, Hsome.
    intros Hemp. by rewrite Hemp, lookup_empty in Hthere.
Qed.

Lemma built_empty : built (∅ : registry).
Proof.
  intros r p op. unfold registered. rewrite lookup_empty. by intros ?%elem_of_nil.
Qed.

Lemma tidy_empty : tidy (∅ : registry).
Proof. intros r b. by rewrite lookup_empty. Qed.

Lemma distinct_empty : distinct (∅ : registry).
Proof. intros r p. unfold registered. rewrite lookup_empty. apply NoDup_nil_2. Qed.

(** X20.  What holds of every registry the two functions can produce from
    the empty one: every registered operation carries [httpMethod] and
    [nickname], no path has an empty list and no resource an empty
    dictionary, and no operation is registered twice for a path.  The
    empty registry has the three properties and both functions keep them,
    whatever they are called with and whether they raise or not. *)
Theorem registry_invariants (resource : string) (route : list string)
    (method : string) (info : operation) (handler : string) (routes : registry) :
  let inv := λ rs : registry, built rs ∧ tidy rs ∧ distinct rs in
  inv ∅
  ∧ (inv routes →
       inv (fst (addRouteDocs str upper resource route method info handler routes)))
  ∧ (inv routes →
       inv (fst (removeRouteDocs str upper resource route method info handler routes))).
Proof.
  intros inv. split; [|split].
  - split; [apply built_empty|]. split; [apply tidy_empty | apply distinct_empty].
  - intros (Hb & Ht & Hd). split; [by apply addRouteDocs_built|].
    destruct (addRouteDocs str upper resource route method info handler routes)
      as [routes' r] eqn:E. cbn [fst].
    apply addRouteDocs_outcome in E as [-> | (path & _ & ->)]; [done|]. cbv zeta.
    set (op := _toOperation str upper info method handler).
    set (l := registered routes resource path).
    set (l' := if bool_decide (op ∈ l) then l else l ++ [op]).
    assert (l' ≠ []) as Hne.
    { unfold l'. case_bool_decide as E; [|by destruct l].
      intros Hnil. rewrite Hnil in E. by apply elem_of_nil in E. }
    split.
    + unfold tidy. intros res b Hres. destruct (decide (res = resource)) as [->|Hr].
      * rewrite lookup_insert_eq in Hres. injection Hres as <-.
        split; [apply insert_non_empty|].
        intros p l0 Hp. destruct (decide (p = path)) as [->|Hp'].
        -- rewrite lookup_insert_eq in Hp. by injection Hp as <-.
        -- rewrite lookup_insert_ne in Hp by done.
           destruct (routes !! resource) as [b0|] eqn:E0; cbn in Hp.
           ++ by apply (proj2 (Ht resource b0 E0) p).
           ++ by rewrite lookup_empty in Hp.
      * rewrite lookup_insert_ne in Hres by done. exact (Ht res b Hres).
    + intros r0 p. rewrite registered_insert. case_bool_decide as E; [|apply Hd].
      unfold l'. case_bool_decide as Hin; [apply Hd|].
      apply NoDup_app. split; [apply Hd|]. split; [|apply NoDup_singleton].
      intros y Hy ->%list_elem_of_singleton. done.
  - intros (Hb & Ht & Hd).
    destruct (removeRouteDocs str upper resource route method info handler routes)
      as [routes' r] eqn:E. cbn [fst].
    apply removeRouteDocs_outcome in E
      as [[-> _] | (path & l' & _ & _ & _ & Hrm & Hreg & Htidy)]; [done|].
    pose proof (remove_first_spec (_toOperation str upper info method handler)
                  (registered routes resource path)) as Hs.
    rewrite Hrm in Hs. destruct Hs as (_ & _ & Hsub & Hnd).
    split; [|split; [by apply Htidy|]].
    + intros r0 p op. rewrite Hreg. case_bool_decide; [|apply Hb].
      intros Hop. by apply (Hb resource path), Hsub.
    + intros r0 p. rewrite Hreg. case_bool_decide; [|apply Hd].
      by apply Hnd, Hd.
Qed.
End DocsProofs.

(** Examples on a registry of string-valued operations. *)
Lemma addRouteDocs_registers_witness :
  let info : gmap string string := {[ "summary" := "Get an item" ]} in
  let op : gmap string string :=
    {[ "summary" := "Get an item"; "httpMethod" := "GET"; "nickname" := "getItem" ]} in
  ∃ routes',
    addRouteDocs id upper_ascii "item" [":id"] "get" info "getItem" ∅ = (routes', inr ())
    ∧ registered routes' "item" "/item/{id}" = [op]
    ∧ addRouteDocs id upper_ascii "item" [":id"] "get" info "getItem" routes'
      = (routes', inr ()).
Proof.
  intros info op.
  destruct (addRouteDocs_registers id upper_ascii "item" [":id"] "get" info "getItem"
              ∅ "/item/{id}" eq_refl) as (routes' & Hadd & Hreg & _ & _ & Hagain).
  exists routes'. split; [exact Hadd|]. split; [|exact Hagain].
  rewrite Hreg. vm_compute. reflexivity.
Defined.

Lemma removeRouteDocs_plain_info_witness :
  let info : gmap string string := {[ "summary" := "Get an item" ]} in
  let routes1 := fst (addRouteDocs id upper_ascii "item" [":id"] "get" info "getItem" ∅) in
  removeRouteDocs id upper_ascii "item" [":id"] "get" info "getItem" routes1
  = (routes1, inr ())
  ∧ _toOperation id upper_ascii info "get" "getItem"
    ∈ registered routes1 "item" "/item/{id}".
Proof.
  intros info.
  apply (proj2 (removeRouteDocs_plain_info id upper_ascii "item" [":id"] "get" info
                  "getItem" ∅
                  built_empty
                  (or_introl eq_refl)) "/item/{id}" eq_refl).
Defined.

Lemma remove_undoes_add_witness :
  let op : gmap string string :=
    {[ "summary" := "Get an item"; "httpMethod" := "GET"; "nickname" := "getItem" ]} in
  removeRouteDocs id upper_ascii "item" [":id"] "get" op "getItem"
    (fst (addRouteDocs id upper_ascii "item" [":id"] "get" op "getItem" ∅))
  = (∅, inr ()).
Proof.
  intros op.
  apply (proj2 (remove_undoes_add id upper_ascii "item" [":id"] "get" op "getItem" ∅
                  "/item/{id}" tidy_empty eq_refl (ex_intro _ "getItem" eq_refl)
                  eq_refl (not_elem_of_nil _))).
Defined.

Lemma registry_invariants_witness :
  let info : gmap string string := {[ "summary" := "Get an item" ]} in
  let routes1 := fst (addRouteDocs id upper_ascii "item" [":id"] "get" info "getItem" ∅) in
  built routes1 ∧ tidy routes1 ∧ distinct routes1.
Proof.
  intros info.
  apply (proj1 (proj2 (registry_invariants id upper_ascii "item" [":id"] "get" info
                         "getItem" ∅))).
  apply (proj1 (registry_invariants id upper_ascii "item" [":id"] "get" info
                  "getItem" ∅)).
Defined.

(** * The port search of the mock S3 server *)

(** The port tried in round [porttry]. *)
Lemma select_port_spec (bind : Z → bind_result) (pid : Z) (fuel : nat) (k : Z) :
  let P := λ j : Z, (_startPort + (j + pid) mod _maxTries)%Z in
  match select_port bind pid fuel k with
  | inr (Some port) =>
      ∃ j, (k ≤ j < k + Z.of_nat fuel)%Z ∧ port = P j ∧ bind port = Bound
           ∧ ∀ i, (k ≤ i < j)%Z → bind (P i) = AddrInUse
  | inr None => ∀ j, (k ≤ j < k + Z.of_nat fuel)%Z → bind (P j) = AddrInUse
  | inl errno =>
      ∃ j, (k ≤ j < k + Z.of_nat fuel)%Z ∧ bind (P j) = BindError errno
           ∧ ∀ i, (k ≤ i < j)%Z → bind (P i) = AddrInUse
  end.
Proof.
  intros P. revert k. induction fuel as [|fuel IH]; intros k; cbn [select_port].
  - intros j Hj. lia.
  - fold (P k). destruct (bind (P k)) eqn:Hk.
    + exists k. split; [lia|]. split; [done|]. split; [done|]. intros i Hi. lia.
    + specialize (IH (k + 1)%Z).
      destruct (select_port bind pid fuel (k + 1)) as [errno|[port|]].
      * destruct IH as (j & Hj & Hb & Hbefore). exists j. split; [lia|].
        split; [done|]. intros i Hi.
        destruct (decide (i = k)) as [->|Hne]; [done | apply Hbefore; lia].
      * destruct IH as (j & Hj & Hp & Hb & Hbefore). exists j. split; [lia|].
        split; [done|]. split; [done|]. intros i Hi.
        destruct (decide (i = k)) as [->|Hne]; [done | apply Hbefore; lia].
      * intros j Hj.
        destruct (decide (j = k)) as [->|Hne]; [done | apply IH; lia].
    + exists k. split; [lia|]. split; [done|]. intros i Hi. lia.
Qed.

(** Every port of the range is the port of one of the rounds. *)
Lemma port_round (pid port : Z) :
  (_startPort ≤ port < _startPort + _maxTries)%Z →
  ∃ j, (0 ≤ j < _maxTries)%Z ∧ port = (_startPort + (j + pid) mod _maxTries)%Z.
Proof.
  unfold _startPort, _maxTries. intros Hp.
  exists ((port - 31100 - pid) mod 100)%Z.
  split; [apply Z.mod_pos_bound; lia|].
  rewrite Zplus_mod_idemp_l.
  replace (port - 31100 - pid + pid)%Z with (port - 31100)%Z by lia.
  rewrite Z.mod_small by lia. lia.
Qed.

(** X21.  The port search of [startMockS3Server].  A selected port lies in
    the hundred ports from 31100 on, binds, and is the first to bind in
    the order of the rounds, which starts at [31100 + pid % 100] and wraps
    around; every port tried before it was in use.  No port is selected
    only when all hundred ports of the range are in use, whatever the
    process id; and an error that is raised is that of a port of the
    range. *)
Theorem selectedPort_spec (bind : Z → bind_result) (pid : Z) :
  let P := λ j : Z, (_startPort + (j + pid) mod _maxTries)%Z in
  (∀ port, selectedPort bind pid = inr (Some port) →
     (_startPort ≤ port < _startPort + _maxTries)%Z ∧ bind port = Bound
     ∧ ∃ j, (0 ≤ j < _maxTries)%Z ∧ port = P j
            ∧ ∀ i, (0 ≤ i < j)%Z → bind (P i) = AddrInUse)
  ∧ (selectedPort bind pid = inr None ↔
     ∀ port, (_startPort ≤ port < _startPort + _maxTries)%Z → bind port = AddrInUse)
  ∧ (∀ errno, selectedPort bind pid = inl errno →
       ∃ port, (_startPort ≤ port < _startPort + _maxTries)%Z
               ∧ bind port = BindError errno).
Proof.
  intros P. unfold selectedPort.
  pose proof (select_port_spec bind pid (Z.to_nat _maxTries) 0) as Hs.
  fold P in Hs. cbv zeta in Hs.
  assert (Z.of_nat (Z.to_nat _maxTries) = _maxTries) as Hn by (unfold _maxTries; lia).
  rewrite Hn in Hs.
  assert (∀ j, (_startPort ≤ P j < _startPort + _maxTries)%Z) as Hrange.
  { intros j. unfold P. pose proof (Z.mod_pos_bound (j + pid) _maxTries) as Hb.
    unfold _maxTries in *. lia. }
  destruct (select_port bind pid (Z.to_nat _maxTries) 0) as [errno|[port|]].
  - destruct Hs as (j & Hj & Hb & _). split; [done|]. split.
    + split; [done|]. intros Hall. rewrite (Hall (P j) (Hrange j)) in Hb. done.
    + intros e [= <-]. exists (P j). split; [apply Hrange | done].
  - destruct Hs as (j & Hj & -> & Hb & Hbefore). split; [|split; [|done]].
    + intros p [= <-]. split; [apply Hrange|]. split; [done|].
      exists j. split; [lia|]. split; [done|]. intros i Hi. apply Hbefore. lia.
    + split; [done|]. intros Hall. rewrite (Hall (P j) (Hrange j)) in Hb. done.
  - split; [done|]. split; [|done]. split; [|done]. intros _ port Hp.
    destruct (port_round pid port Hp) as (j & Hj & ->). apply Hs. lia.
Qed.

(** Process 4242 with the ports 31142 and 31143 taken. *)
Lemma selectedPort_spec_witness :
  let bind := λ port : Z, if bool_decide (port = 31142 ∨ port = 31143)%Z
                          then AddrInUse else Bound in
  selectedPort bind 4242 = inr (Some 31144%Z)
  ∧ (_startPort ≤ 31144 < _startPort + _maxTries)%Z.
Proof.
  intros bind.
  assert (selectedPort bind 4242 = inr (Some 31144%Z)) as Hrun
    by (vm_compute; reflexivity).
  split; [exact Hrun|].
  apply (proj1 (selectedPort_spec bind 4242) 31144%Z Hrun).
Defined.

(** * From upload to download *)

Section RoundTrip.
Context {D : Digest} {L : DigestLaws D}.

(** A successful [finalizeUpload] leaves a regular file at the canonical
    path: the one that was there, or the scratch file moved. *)
Lemma finalizeUpload_stores (a : assetstore) (u : upload) (d d' : fs) (f f' : file)
    (h : digest_state) (F : bytes) (old : option bytes) :
  restoreHex (upload_sha512state u) = Some h →
  let abspath := join (assetstore_root a) (shard_rel (hexdigest h)) in
  d !! upload_tempFile u = Some (File F) →
  upload_tempFile u ≠ abspath →
  d !! abspath = File <$> old →
  finalizeUpload a u (d, f) = ((d', f'), inr ()) →
  d' !! abspath = Some (File (default F old))
  ∧ f' = set_sha512_path f (hexdigest h) (shard_rel (hexdigest h)).
Proof.
  intros Hh abspath Ht Hne Hold.
  rewrite (finalizeUpload_run a u d f h Hh). cbv zeta.
  set (absdir := join (assetstore_root a) _).
  fold (shard_rel (hexdigest h)). fold abspath.
  destruct (hex_shape h) as (c0 & c1 & c2 & c3 & rest & Hhash & X0 & X1 & X2 & X3 & Xr).
  assert (String.length absdir < String.length abspath) as Hlonger.
  { unfold abspath, absdir, shard_rel. rewrite Hhash.
    rewrite (shard_abspath c0 c1 c2 c3 rest) by assumption.
    rewrite !str_app_length. cbn [String.length]. lia. }
  destruct (if exists_ d absdir then (d, inr ()) else makedirs absdir d)
    as [dm rm] eqn:Em.
  assert (grows absdir d dm) as G.
  { destruct (exists_ d absdir).
    - injection Em as <- <-. apply grows_refl.
    - by apply makedirs_grows in Em as [? _]. }
  destruct rm as [e|[]]; [done|].
  pose proof (grows_keeps _ _ _ _ _ G Ht) as Hmt.
  pose proof (grows_longer _ _ _ abspath G Hlonger) as Hmabs.
  rewrite Hold in Hmabs. unfold exists_, remove, move.
  rewrite Hmt, Hmabs. destruct old as [c|]; cbn [fmap option_fmap option_map].
  - rewrite bool_decide_eq_true_2 by (by eexists). intros [= <- <-].
    split; [|done]. by rewrite lookup_delete_ne.
  - rewrite bool_decide_eq_false_2 by (by intros [? ?]).
    destruct (check_parent dm abspath) as [e|[]]; [done|]. intros [= <- <-].
    split; [|done]. by rewrite lookup_insert_eq.
Qed.

(** X22.  From upload to download.  A session in normal operation on the
    bytes [F] is finalized into a record that declares their length; when
    the canonical path of their digest was free or held the same bytes,
    the record then carries the digest of [F] and its canonical path, and
    [downloadFile] on it, without a range, streams exactly [F]. *)
Theorem upload_download_roundtrip (a : assetstore) (u : upload) (d d' : fs)
    (f f' : file) (F : bytes) :
  let hash := hexdigest (sha512_update sha512 F) in
  let abspath := join (assetstore_root a) (shard_rel hash) in
  consistent d u F →
  truthy (file_imported f) = false →
  file_size f = length F →
  upload_tempFile u ≠ abspath →
  d !! abspath = None ∨ d !! abspath = Some (File F) →
  finalizeUpload a u (d, f) = ((d', f'), inr ()) →
  file_sha512 f' = Some hash
  ∧ file_path f' = Some (shard_rel hash)
  ∧ ∃ (gen : M fs (list bytes)) (chunks : list bytes),
      downloadFile a f' 0 None d' = (d', inr gen)
      ∧ gen d' = (d', inr chunks)
      ∧ concat chunks = F.
Proof.
  intros hash abspath (Ht & Hlen & Hh) Himp Hsize Hne Hold Hrun.
  destruct (finalizeUpload_stores a u d d' f f' (sha512_update sha512 F) F
              (match d !! abspath with Some _ => Some F | None => None end)
              Hh Ht Hne) as [Hfile ->]; [|exact Hrun|].
  { fold hash. fold abspath. destruct Hold as [-> | ->]; done. }
  fold hash in Hfile. fold abspath in Hfile.
  assert (d' !! abspath = Some (File F)) as Hthere
    by (rewrite Hfile; by destruct (d !! abspath)).
  fold hash. split; [done|]. split; [done|].
  assert (resolved a (set_sha512_path f hash (shard_rel hash)) = Some abspath) as Hres.
  { unfold resolved. cbn [set_sha512_path file_path file_imported]. by rewrite Himp. }
  exists (stream abspath 0 (Z.of_nat (file_size f))),
         (stream_loop (length F) F 0 0 (Z.of_nat (file_size f))).
  split; [|split].
  - unfold downloadFile. run. rewrite fullPath_resolved, Hres. step.
    unfold isfile. rewrite Hthere. done.
  - unfold stream, open_rb. run. by rewrite Hthere.
  - destruct (stream_loop_any (length F) F 0 0 (Z.of_nat (file_size f)))
      as [-> _]; [lia|].
    rewrite Hsize, Z.sub_0_r, Nat2Z.id. cbn [drop]. by rewrite firstn_all.
Qed.
End RoundTrip.

Lemma upload_download_roundtrip_witness :
  let out := finalizeUpload (D := demo_digest) demo_root
               (twin_upload "/data/temp/tmpA") (twin_disk, fresh_file 1 "a") in
  ∃ (gen : M fs (list bytes)) (chunks : list bytes),
    snd out = inr ()
    ∧ downloadFile demo_root (snd (fst out)) 0 None (fst (fst out))
      = (fst (fst out), inr gen)
    ∧ gen (fst (fst out)) = (fst (fst out), inr chunks)
    ∧ concat chunks = b "hello".
Proof.
  intros out.
  assert (snd out = inr ()) as Hr by (vm_compute; reflexivity).
  destruct (upload_download_roundtrip (D := demo_digest) (L := demo_laws) demo_root
              (twin_upload "/data/temp/tmpA") twin_disk (fst (fst out))
              (fresh_file 1 "a") (snd (fst out)) (b "hello"))
    as (_ & _ & gen & chunks & H1 & H2 & H3).
  - repeat split.
  - reflexivity.
  - reflexivity.
  - vm_compute. discriminate.
  - left. vm_compute. reflexivity.
  - rewrite <- Hr. apply triple_eta.
  - exists gen, chunks. auto.
Defined.

(** * [cancelUpload], whatever is at the scratch path *)

(** X23.  [cancelUpload] touches the scratch path only.  When it returns,
    the scratch path is free; when it raises, the exception is an
    [OSError] and nothing has changed.  It does raise when a directory is
    at the scratch path, which [os.path.exists] accepts and [os.unlink]
    refuses. *)
Theorem cancelUpload_frame (u : upload) (d d' : fs) (r : exn + unit) :
  cancelUpload u d = (d', r) →
  (∀ p, p ≠ upload_tempFile u → d' !! p = d !! p)
  ∧ (isdir d (upload_tempFile u) = true → ∃ e, r = inl e)
  ∧ match r with
    | inr _ => d' !! upload_tempFile u = None
    | inl e => d' = d ∧ is_OSError e = true
    end.
Proof.
  unfold cancelUpload, exists_, remove, isdir. run.
  destruct (d !! upload_tempFile u) as [[c|w]|] eqn:E.
  - rewrite bool_decide_eq_true_2 by (by eexists). step. rewrite E.
    intros [= <- <-]. split; [|split; [done | apply lookup_delete_eq]].
    intros p Hp. by rewrite lookup_delete_ne.
  - rewrite bool_decide_eq_true_2 by (by eexists). step. rewrite E.
    intros [= <- <-]. split; [done|]. split; [by eexists | done].
  - rewrite bool_decide_eq_false_2 by (by intros [? ?]). step.
    intros [= <- <-]. by split.
Qed.

Lemma cancelUpload_frame_witness :
  let u := {| upload_tempFile := "/data/temp"; upload_sha512state := "";
              upload_received := 0; upload_size := 0 |} in
  ∃ e, cancelUpload u crashed_disk = (crashed_disk, inl e) ∧ is_OSError e = true.
Proof.
  intros u.
  destruct (cancelUpload_frame u crashed_disk crashed_disk (inl (OSError EISDIR))
              eq_refl) as (_ & _ & _ & He).
  exists (OSError EISDIR). split; [reflexivity | exact He].
Defined.

(** * What follows a deletion and an import *)

(** X24.  After [deleteFile] on the only holder of a digest, no regular
    file is at the record's path, whether one was there before or not:
    [downloadFile] on the record raises the file-does-not-exist error and
    the scan reports the record as missing. *)
Theorem delete_then_missing (a : assetstore) (st : store) (f : file) (d : fs)
    (sha p : string) (offset : Z) (endByte : option Z) (checkSize : bool) :
  truthy (file_imported f) = false →
  file_sha512 f = Some sha →
  file_path f = Some p →
  length (holders a st sha) = 1 →
  let path := join (assetstore_root a) p in
  ∃ d', deleteFile a st f d = (d', inr ())
    ∧ isfile d' path = false
    ∧ downloadFile a f offset endByte d'
      = (d', inl (GirderException file_does_not_exist))
    ∧ scan a d' checkSize [f]
      = ([{| reason := "missing"; finding_file := f; finding_path := path |}], None).
Proof.
  intros Hi Hs Hp Hone path.
  assert (resolved a f = Some path) as Hres
    by (unfold resolved; by rewrite Hp, Hi).
  assert (∃ d', deleteFile a st f d = (d', inr ()) ∧ isfile d' path = false)
    as (d' & Hrun & Hgone).
  { unfold deleteFile. rewrite Hi, Hs, Hp. run. step. rewrite find_holders.
    rewrite bool_decide_eq_true_2 by (by apply take_2_length_1). step.
    fold path. unfold remove.
    destruct (isfile d path) eqn:E.
    - unfold isfile in E. destruct (d !! path) as [[c|w]|] eqn:E'; try done.
      eexists. split; [done|]. unfold isfile. by rewrite lookup_delete_eq.
    - by exists d. }
  exists d'. split; [done|]. split; [done|]. split.
  - unfold downloadFile. run. rewrite fullPath_resolved, Hres. step.
    by rewrite Hgone.
  - cbn [scan]. rewrite fullPath_resolved, Hres. by rewrite Hgone.
Qed.

Lemma delete_then_missing_witness :
  let st := store_of [stored_file 2 "two" 5 "abcd"; stored_file 3 "gone" 4 "ef01"] in
  let f := stored_file 2 "two" 5 "abcd" in
  ∃ d', deleteFile demo_root st f shared_disk = (d', inr ())
    ∧ isfile shared_disk "/data/ab/cd/abcd" = true
    ∧ isfile d' "/data/ab/cd/abcd" = false
    ∧ downloadFile demo_root f 0 None d'
      = (d', inl (GirderException file_does_not_exist)).
Proof.
  intros st f.
  destruct (delete_then_missing demo_root st f shared_disk "abcd" "ab/cd/abcd" 0 None
              true) as (d' & H1 & H2 & H3 & _);
    [reflexivity | reflexivity | reflexivity | reflexivity |].
  exists d'. split; [exact H1|]. split; [reflexivity|]. split; [exact H2 | exact H3].
Defined.

(** X25.  From import to download.  A regular file imported under the
    path it is stored at, a path that [abspath] and [expanduser] leave as
    it is, gives a record on which [downloadFile], without a range,
    streams the bytes of that file, from where it lies and not from under
    the root; [deleteFile] on the record leaves the disk as it is. *)
Theorem import_download_roundtrip (env : os_env) (mtimes : string → Z) (d : fs)
    (a : assetstore) (it : item) (path : string) (user : N)
    (name mimeType : option string) (st : store) (content : bytes) :
  d !! path = Some (File content) →
  abspath env (expanduser env path) = path →
  ∃ st' f,
    importFile env mtimes d a it path user name mimeType st = (st', inr f)
    ∧ f ∈ files st'
    ∧ (∃ (gen : M fs (list bytes)) (chunks : list bytes),
         downloadFile a f 0 None d = (d, inr gen)
         ∧ gen d = (d, inr chunks)
         ∧ concat chunks = content)
    ∧ deleteFile a st' f d = (d, inr ()).
Proof.
  intros Hd Hnorm.
  destruct (importFile_spec env mtimes d a it path user name mimeType st
              {| st_size := length content; st_mtime := mtimes path |})
    as (st' & f & Hrun & Himp & Hpath & Hsize & _ & Hin & _).
  { unfold os_stat. by rewrite Hd. }
  rewrite Hnorm in Hpath. cbn [st_size] in Hsize.
  exists st', f. split; [done|]. split; [done|].
  assert (resolved a f = Some path) as Hres
    by (unfold resolved; by rewrite Hpath, Himp).
  split.
  - exists (stream path 0 (Z.of_nat (file_size f))),
           (stream_loop (length content) content 0 0 (Z.of_nat (file_size f))).
    split; [|split].
    + unfold downloadFile. run. rewrite fullPath_resolved, Hres. step.
      unfold isfile. by rewrite Hd.
    + unfold stream, open_rb. run. by rewrite Hd.
    + destruct (stream_loop_any (length content) content 0 0
                  (Z.of_nat (file_size f))) as [-> _]; [lia|].
      rewrite Hsize, Z.sub_0_r, Nat2Z.id. cbn [drop]. by rewrite firstn_all.
  - unfold deleteFile. by rewrite Himp.
Qed.

Lemma import_download_roundtrip_witness :
  ∃ st' f,
    importFile demo_env import_mtimes import_disk demo_root
      {| item_id := 20; item_name := "b.txt"; item_folderId := 10; item_creatorId := 1 |}
      "/srv/a/b.txt" 1 None None (store_of []) = (st', inr f)
    ∧ ∃ (gen : M fs (list bytes)) (chunks : list bytes),
        downloadFile demo_root f 0 None import_disk = (import_disk, inr gen)
        ∧ gen import_disk = (import_disk, inr chunks)
        ∧ concat chunks = b "hello".
Proof.
  destruct (import_download_roundtrip demo_env import_mtimes import_disk demo_root
              {| item_id := 20; item_name := "b.txt"; item_folderId := 10;
                 item_creatorId := 1 |}
              "/srv/a/b.txt" 1 None None (store_of []) (b "hello"))
    as (st' & f & H1 & _ & H2 & _); [reflexivity | vm_compute; reflexivity |].
  exists st', f. split; [exact H1 | exact H2].
Defined.
